(** * SpreadsheetEval: a shallow embedding of SpreadsheetEvaluator.py

    The development follows the Python source function by function.
    Python integers are [Z], Python [str] values are Rocq strings whose
    characters are read as the code points 0..255, dictionaries are
    [gmap]s, the [visiting] set is a [gset], floats are IEEE binary64
    values ([spec_float] with 53 bits of precision), and a raised
    exception is the [Raise] outcome of the [res] monad.

    The input file is its text as Python's text layer delivers it
    (decoded, line ends translated to newlines); the output file is the
    text written to it. The recursion of [evaluateDFS] runs on fuel, and
    [evaluate] is shown to give it enough; the limits an interpreter
    sets (on the depth of recursion, on the number of digits [int]
    reads) are not part of the model. *)

From Stdlib Require Import ZArith Ascii String SpecFloat.
From stdpp Require Import base tactics option list gmap strings pretty relations.
From Equations Require Import Equations.

Local Open Scope Z_scope.
Local Set Warnings "-clear-no-such-hyp".

(** ** Outcomes of Python code *)

(** The dynamic type of an operand, as CPython names it in a [TypeError]. *)
Inductive pytype := TFloat | TStr | TTuple | TBuiltinMethod.

Inductive pyexn :=
  | Exception (msg : string)
  | TypeError (operator : string) (left right : pytype)
  | ValueError (text : string)
  | KeyError (key : string)
  | ZeroDivisionError
  | UnboundLocalError (name : string).

(** [OutOfFuel] is not a Python outcome: it marks a recursion that was cut
    by the fuel of the model. *)
Inductive res (A : Type) :=
  | Ret (a : A)
  | Raise (e : pyexn)
  | OutOfFuel.
Arguments Ret {A} a.
Arguments Raise {A} e.
Arguments OutOfFuel {A}.

Global Instance res_ret : MRet res := @Ret.
Global Instance res_bind : MBind res := λ A B k m,
  match m with
  | Ret a => k a
  | Raise e => Raise e
  | OutOfFuel => OutOfFuel
  end.

(** ** The Python built-ins the program calls *)

Module Py.

Definition code (c : ascii) : N := N_of_ascii c.

Definition between (lo hi : N) (c : ascii) : bool :=
  ((lo <=? code c) && (code c <=? hi))%N.

(** [str.isspace], which is also what [str.strip] and [str.split]
    take for white space. *)
Definition isspace (c : ascii) : bool :=
  between 9 13 c || between 28 32 c || between 133 133 c || between 160 160 c.

(** A decimal digit: what [int] and the regular expression class [\d] accept. *)
Definition isdecimal (c : ascii) : bool := between 48 57 c.

(** [str.isdigit] also holds of the superscripts two, three and one. *)
Definition isdigit (c : ascii) : bool :=
  isdecimal c || between 178 179 c || between 185 185 c.

Definition isupper (c : ascii) : bool :=
  between 65 90 c || between 192 214 c || between 216 222 c.

Definition isalpha (c : ascii) : bool :=
  between 65 90 c || between 97 122 c || between 170 170 c
  || between 181 181 c || between 186 186 c || between 192 214 c
  || between 216 246 c || between 248 255 c.

Fixpoint all (p : ascii → bool) (s : string) : bool :=
  match s with
  | EmptyString => true
  | String c s' => p c && all p s'
  end.

(** [s.isdigit()]: every character is a digit and there is at least one. *)
Definition str_isdigit (s : string) : bool :=
  match s with
  | EmptyString => false
  | _ => all isdigit s
  end.

Definition digit_value (c : ascii) : Z := Z.of_N (code c) - 48.

Fixpoint int_go (acc : Z) (s : string) : Z :=
  match s with
  | EmptyString => acc
  | String c s' => int_go (10 * acc + digit_value c) s'
  end.


(** [int(s)] on a text of digits, the only kind the program hands it:
    a text with a character that is no decimal digit is refused. The
    refusal of a text of more than [int_max_str_digits] digits is not
    modelled: what is stated of [int] on any text is stated of texts
    within that length. *)
Definition int (s : string) : res Z :=
  match s with
  | EmptyString => Raise (ValueError s)
  | _ => if all isdecimal s then Ret (int_go 0 s) else Raise (ValueError s)
  end.

Fixpoint lstrip (s : string) : string :=
  match s with
  | EmptyString => EmptyString
  | String c s' => if isspace c then lstrip s' else s
  end.

Definition rstrip (s : string) : string := String.rev (lstrip (String.rev s)).

Definition strip (s : string) : string := rstrip (lstrip s).

(** Cut [s] at every character that satisfies [sep]. *)
Fixpoint split_by (sep : ascii → bool) (s : string) : list string :=
  match s with
  | EmptyString => [EmptyString]
  | String c s' =>
      if sep c then EmptyString :: split_by sep s'
      else match split_by sep s' with
           | w :: ws => String c w :: ws
           | [] => [String c EmptyString]
           end
  end.

(** [s.split(',')] *)
Definition split_on (sep : ascii) (s : string) : list string :=
  split_by (λ c, bool_decide (c = sep)) s.

(** [s.split()]: cut at runs of white space, no empty word is kept. *)
Definition split (s : string) : list string :=
  filter (λ w, w ≠ EmptyString) (split_by isspace s).

Fixpoint join (sep : string) (l : list string) : string :=
  match l with
  | [] => EmptyString
  | [w] => w
  | w :: ws => w +:+ sep +:+ join sep ws
  end.

(** Iterating over a text file yields its lines, each with its newline
    (the last line may have none). *)
Fixpoint readlines (s : string) : list string :=
  match s with
  | EmptyString => []
  | String c s' =>
      if bool_decide (c = "010"%char) then String c EmptyString :: readlines s'
      else match readlines s' with
           | l :: ls => String c l :: ls
           | [] => [String c EmptyString]
           end
  end.

(** [str(n)] of an integer. *)
Definition str_of_int (n : Z) : string := pretty n.

(** [chr(n)] for a code point below 256. *)
Definition chr (n : Z) : ascii := ascii_of_N (Z.to_N n).

Definition ord (c : ascii) : Z := Z.of_N (code c).

(** [s[n:]] *)
Fixpoint slice_from (n : nat) (s : string) : string :=
  match n, s with
  | S n', String _ s' => slice_from n' s'
  | _, _ => s
  end.

(** The longest prefix of [s] whose characters satisfy [p], and the rest. *)
Fixpoint span (p : ascii → bool) (s : string) : string * string :=
  match s with
  | EmptyString => (EmptyString, EmptyString)
  | String c s' =>
      if p c then let '(pre, rest) := span p s' in (String c pre, rest)
      else (EmptyString, s)
  end.

(** A leading sign, if there is one, and the rest: whether the sign is
    a minus, and the text after it. *)
Definition split_sign (t : string) : bool * string :=
  match t with
  | String "+" r => (false, r)
  | String "-" r => (true, r)
  | _ => (false, t)
  end.

(** *** Floats *)

Definition prec : Z := 53.
Definition emax : Z := 1024.

Definition fadd : spec_float → spec_float → spec_float := SFadd prec emax.
Definition fsub : spec_float → spec_float → spec_float := SFsub prec emax.
Definition fmul : spec_float → spec_float → spec_float := SFmul prec emax.
Definition fdiv : spec_float → spec_float → spec_float := SFdiv prec emax.

(** The float nearest to [num/den] (ties to even), for [0 ≤ num], [0 < den]. *)
Definition float_of_ratio (neg : bool) (num den : Z) : spec_float :=
  if num =? 0 then S754_zero neg
  else
    let '(q, e, l) := SFdiv_core_binary prec emax num 0 den 0 in
    binary_round_aux prec emax neg q e l.

(** [float(s)] on a decimal numeral: white space around it, a sign, digits
    and a fraction; the program hands it nothing else. *)
Definition float (s : string) : res spec_float :=
  let t := strip s in
  let '(neg, body) := split_sign t in
  let '(ip, rest) := span isdecimal body in
  let frac :=
    match rest with
    | EmptyString => Some EmptyString
    | String "." r => if all isdecimal r then Some r else None
    | _ => None
    end in
  match frac with
  | Some fp =>
      if bool_decide (ip = EmptyString ∧ fp = EmptyString) then Raise (ValueError s)
      else Ret (float_of_ratio neg (int_go 0 (ip +:+ fp))
                               (10 ^ Z.of_nat (String.length fp)))
  | None => Raise (ValueError s)
  end.

(** [num/den / 10^p] as a ratio. *)
Definition scale10 (num den p : Z) : Z * Z :=
  if 0 <=? p then (num, den * 10 ^ p) else (num * 10 ^ (- p), den).

(** The decimal exponent [d] of [x = num/den]: [10^(d-1) ≤ x < 10^d].
    [b] is the binary exponent: [2^(b-1) ≤ x < 2^b]. *)
Definition decimal_point (num den b : Z) : Z :=
  let d0 := ((b - 1) * 30103) `div` 100000 in
  let below d := let '(n, dd) := scale10 num den d in n <? dd in
  if below (d0 - 1) then d0 - 1
  else if below d0 then d0
  else if below (d0 + 1) then d0 + 1
  else d0 + 2.

Definition same_float (x y : spec_float) : bool :=
  match x, y with
  | S754_finite sx mx ex, S754_finite sy my ey =>
      bool_decide (sx = sy) && (mx =? my)%positive && (ex =? ey)
  | _, _ => false
  end.

(** The [n]-digit decimal next to [x = num/den] that reads back as [x],
    if there is one. *)
Definition digits_of_length (x : spec_float) (num den d n : Z) : option Z :=
  let p := d - n in
  let '(sn, sd) := scale10 num den p in
  let lo := sn `div` sd in
  let r := sn `mod` sd in
  let hi := lo + 1 in
  let back D :=
    let '(bn, bd) := scale10 D 1 (- p) in
    same_float (float_of_ratio false bn bd) x in
  match back lo, back hi with
  | true, true =>
      match 2 * r ?= sd with
      | Lt => Some lo
      | Gt => Some hi
      | Eq => Some (if Z.even lo then lo else hi)
      end
  | true, false => Some lo
  | false, true => Some hi
  | false, false => None
  end.

Fixpoint shortest_digits (x : spec_float) (num den d : Z)
    (n : Z) (tries : nat) : Z * Z :=
  match tries with
  | O => (0, n)
  | S tries' =>
      match digits_of_length x num den d n with
      | Some D => (D, n)
      | None => shortest_digits x num den d (n + 1) tries'
      end
  end.

Fixpoint strip_zeros_rev (s : string) : string :=
  match s with
  | String "0" s' => strip_zeros_rev s'
  | _ => s
  end.

Fixpoint zeros (n : nat) : string :=
  match n with
  | O => EmptyString
  | S n' => String "0" (zeros n')
  end.

Fixpoint take (n : nat) (s : string) : string :=
  match n, s with
  | S n', String c s' => String c (take n' s')
  | _, _ => EmptyString
  end.

(** The digits and the position of the decimal point of the shortest
    decimal that reads back as the positive float [m * 2^e]: the value is
    [0.digits * 10^decpt]. *)
Definition shortest_decimal (m : positive) (e : Z) : string * Z :=
  let x := S754_finite false m e in
  let '(num, den) :=
    if 0 <=? e then (Zpos m * 2 ^ e, 1) else (Zpos m, 2 ^ (- e)) in
  let d := decimal_point num den (Zpos (digits2_pos m) + e) in
  let '(D, n) := shortest_digits x num den d 1 17 in
  let all_digits : string := pretty D in
  (String.rev (strip_zeros_rev (String.rev all_digits)),
   d + (Z.of_nat (String.length all_digits) - n)).

(** The exponent of the [e] notation: a sign and two digits at least. *)
Definition exponent_text (k : Z) : string :=
  let a : string := pretty (Z.abs k) in
  (if k <? 0 then "-" else "+")
  +:+ (if Z.abs k <? 10 then "0" +:+ a else a).

(** [repr] of a positive finite float, from its shortest decimal: fixed
    notation unless the decimal point falls before [-3] or after [16]. *)
Definition format_short (digits : string) (decpt : Z) : string :=
  let nd := Z.of_nat (String.length digits) in
  if (decpt <=? -4) || (16 <? decpt) then
    let mantissa :=
      match digits with
      | String c EmptyString => digits
      | String c ds => String c (String "." ds)
      | EmptyString => digits
      end in
    mantissa +:+ "e" +:+ exponent_text (decpt - 1)
  else if decpt <=? 0 then
    "0." +:+ zeros (Z.to_nat (- decpt)) +:+ digits
  else if nd <=? decpt then
    digits +:+ zeros (Z.to_nat (decpt - nd)) +:+ ".0"
  else
    take (Z.to_nat decpt) digits +:+ "." +:+ slice_from (Z.to_nat decpt) digits.

(** [repr(x)], which is also [str(x)], of a float. *)
Definition float_repr (x : spec_float) : string :=
  match x with
  | S754_zero neg => if neg then "-0.0" else "0.0"
  | S754_infinity neg => if neg then "-inf" else "inf"
  | S754_nan => "nan"
  | S754_finite neg m e =>
      let '(digits, decpt) := shortest_decimal m e in
      (if neg then "-" else "") +:+ format_short digits decpt
  end.

End Py.

(** ** Cell naming *)

(** [indexToColForm]: the [while (index >= 0)] loop, with the column name
    built so far as accumulator. *)
Equations? indexToColForm_loop (index : Z) (columnName : string) : string
  by wf (Z.to_nat (index + 1)) lt :=
  indexToColForm_loop index columnName with decide (0 ≤ index) := {
    | left _ =>
        indexToColForm_loop (index `div` 26 - 1)
          (String (Py.chr (Py.ord "A" + index `mod` 26)) columnName)
    | right _ => columnName }.
Proof.
  assert (index `div` 26 ≤ index) by (apply Z.div_le_upper_bound; lia).
  assert (0 ≤ index `div` 26) by (apply Z.div_pos; lia).
  lia.
Qed.

Definition indexToColForm (index : Z) : string := indexToColForm_loop index "".

(** [getCellName]: the f-string joins the column name and [rowIndex+1]. *)
Definition getCellName (colIndex rowIndex : Z) : string :=
  indexToColForm colIndex +:+ Py.str_of_int (rowIndex + 1).

(** What [isCellReference] hands back: a [bool], or the [str] that
    [row and ...] stops at when [row] is empty. *)
Inductive bool_or_str :=
  | BoolVal (b : bool)
  | StrVal (s : string).

(** Python's truth value, as the [elif] that calls [isCellReference] takes it. *)
Definition truthy (v : bool_or_str) : bool :=
  match v with
  | BoolVal b => b
  | StrVal s => negb (bool_decide (s = ""))
  end.

(** [char.isalpha() and char.isupper()] *)
Definition upper_alpha (char : ascii) : bool :=
  Py.isalpha char && Py.isupper char.

(** The [for char in op] loop: the number of leading characters that are
    alphabetic and upper case. *)
Fixpoint colCount (op : string) : nat :=
  match op with
  | EmptyString => O
  | String char op' => if upper_alpha char then S (colCount op') else O
  end.

Definition isCellReference (op : string) : res bool_or_str :=
  if bool_decide (op = "") then Ret (BoolVal false)
  else if bool_decide (colCount op = O) then Ret (BoolVal false)
  else
    let row := Py.slice_from (colCount op) op in
    if bool_decide (row = "") then Ret (StrVal row)
    else if negb (Py.str_isdigit row) then Ret (BoolVal false)
    else n ← Py.int row; Ret (BoolVal (0 <? n)).

(** ** Values and arithmetic *)

#[warnings="-register-all"]
Inductive pyval :=
  | PyFloat (f : spec_float)
  | PyStr (s : string)
  | PyTuple (items : list pyval)
  | PyBuiltinMethod (name : string).

Definition type_of (v : pyval) : pytype :=
  match v with
  | PyFloat _ => TFloat
  | PyStr _ => TStr
  | PyTuple _ => TTuple
  | PyBuiltinMethod _ => TBuiltinMethod
  end.

(** [a + b], [a - b], [a * b], [a / b] and [b == 0] on the values the
    program can hold. *)
Definition py_add (a b : pyval) : res pyval :=
  match a, b with
  | PyFloat x, PyFloat y => Ret (PyFloat (Py.fadd x y))
  | PyStr x, PyStr y => Ret (PyStr (x +:+ y))
  | PyTuple x, PyTuple y => Ret (PyTuple (x ++ y))
  | _, _ => Raise (TypeError "+" (type_of a) (type_of b))
  end.

Definition py_sub (a b : pyval) : res pyval :=
  match a, b with
  | PyFloat x, PyFloat y => Ret (PyFloat (Py.fsub x y))
  | _, _ => Raise (TypeError "-" (type_of a) (type_of b))
  end.

Definition py_mul (a b : pyval) : res pyval :=
  match a, b with
  | PyFloat x, PyFloat y => Ret (PyFloat (Py.fmul x y))
  | _, _ => Raise (TypeError "*" (type_of a) (type_of b))
  end.

Definition py_eq_zero (b : pyval) : bool :=
  match b with
  | PyFloat y => SFeqb y (S754_zero false)
  | _ => false
  end.

Definition py_truediv (a b : pyval) : res pyval :=
  match a, b with
  | PyFloat x, PyFloat y =>
      if py_eq_zero b then Raise ZeroDivisionError
      else Ret (PyFloat (Py.fdiv x y))
  | _, _ => Raise (TypeError "/" (type_of a) (type_of b))
  end.

Definition calculate (a b : pyval) (operator : string) : res pyval :=
  if bool_decide (operator = "+") then py_add a b
  else if bool_decide (operator = "-") then py_sub a b
  else if bool_decide (operator = "*") then py_mul a b
  else if bool_decide (operator = "/") then
    if py_eq_zero b then Raise (Exception "Division by zero")
    else py_truediv a b
  else Raise (UnboundLocalError "res").

(** [str(v)] of a cell value. Only floats and texts ever reach the
    writer (lemma [evaluate_plain]); for a tuple or a method object, whose
    text in CPython has quotes and an address in it, the model gives the
    name of the type. *)
Definition py_str (v : pyval) : string :=
  match v with
  | PyFloat f => Py.float_repr f
  | PyStr s => s
  | PyTuple _ => "<tuple>"
  | PyBuiltinMethod _ => "<built-in method>"
  end.

(** ** The evaluation engine *)

Definition is_operator (op : string) : bool :=
  bool_decide (op ∈ ["+"; "-"; "*"; "/"]).

(** Where [$] matches: at the end of the text, or before its last newline. *)
Definition at_end (s : string) : bool :=
  bool_decide (s = "") || bool_decide (s = String "010" "").

(** [re.match(r"^[+-]?\d*(\.\d+)?$", op)] *)
Definition match_number (op : string) : bool :=
  let body := (Py.split_sign op).2 in
  let '(_, rest) := Py.span Py.isdecimal body in
  match rest with
  | String "." r =>
      let '(fp, rest') := Py.span Py.isdecimal r in
      negb (bool_decide (fp = "")) && at_end rest'
  | _ => at_end rest
  end.

(** The two operands the operator branch hands to [calculate]:
    [a = queue.popleft,] is a one-element tuple that holds the bound
    method, [b = queue.popleft] is the bound method; neither is called. *)
Definition operand_a : pyval := PyTuple [PyBuiltinMethod "popleft"].
Definition operand_b : pyval := PyBuiltinMethod "popleft".

Section Engine.

Variable maxTokensPerCell : Z.
Variable exprMap : gmap string (list string).

(** The state [evaluateDFS] works on: the [visiting] set its callers
    share, and [self.valMap]. *)
Definition store : Type := gset string * gmap string pyval.

(** The [for op in ops] loop of [evaluateDFS]; [resolve] is the recursive
    call, [todo] the tokens still to come, [queue] the deque. *)
Fixpoint tokenLoop (resolve : string → store → res (pyval * store))
    (cell : string) (ops todo : list string) (queue : list pyval)
    (st : store) : res (list pyval * store) :=
  match todo with
  | [] => Ret (queue, st)
  | op :: todo' =>
      if Z.of_nat (length ops) >? maxTokensPerCell then
        Raise (Exception ("Expression too long in " +:+ cell +:+ " - max of "
                          +:+ Py.str_of_int maxTokensPerCell
                          +:+ " tokens in a cell"))
      else if is_operator op then
        if Z.of_nat (length queue) <? 2 then
          Raise (Exception ("Need at least 1 operand for " +:+ op
                            +:+ " in " +:+ cell))
        else
          r ← calculate operand_a operand_b op;
          tokenLoop resolve cell ops todo' (queue ++ [r]) st
      else
        isref ← isCellReference op;
        if truthy isref then
          '(val, st') ← resolve op st;
          tokenLoop resolve cell ops todo' (queue ++ [val]) st'
        else if match_number op then
          match Py.float op with
          | Ret f => tokenLoop resolve cell ops todo' (queue ++ [PyFloat f]) st
          | _ => Raise (Exception ("Error evaluating number " +:+ op
                                   +:+ " in " +:+ cell))
          end
        else Raise (Exception ("Invalid token '" +:+ op +:+ "' in " +:+ cell))
  end.

Fixpoint evaluateDFS (fuel : nat) (cell : string) (st : store)
    : res (pyval * store) :=
  match fuel with
  | O => OutOfFuel
  | S fuel' =>
      let '(visiting, valMap) := st in
      match valMap !! cell with
      | Some v => Ret (v, st)
      | None =>
          if bool_decide (cell ∈ visiting) then
            Raise (Exception ("Circular reference at " +:+ cell))
          else
            match exprMap !! cell with
            | None => Ret (PyStr "", st)
            | Some ops =>
                '(queue, (visiting', valMap')) ←
                  tokenLoop (evaluateDFS fuel') cell ops ops []
                            ({[cell]} ∪ visiting, valMap);
                match queue with
                | [r] =>
                    if bool_decide (cell ∈ visiting') then
                      Ret (r, (visiting' ∖ {[cell]}, <[cell := r]> valMap'))
                    else Raise (KeyError cell)
                | _ => Raise (Exception ("Invalid expression in " +:+ cell))
                end
            end
      end
  end.

(** [evaluate]: the two nested loops over the grid; every call of
    [evaluateDFS] gets a fresh [set()]. *)
Fixpoint evaluate_row (fuel : nat) (row : list string)
    (valMap : gmap string pyval) : res (gmap string pyval) :=
  match row with
  | [] => Ret valMap
  | cell :: row' =>
      match exprMap !! cell with
      | Some _ =>
          '(_, (_, valMap')) ← evaluateDFS fuel cell (∅, valMap);
          evaluate_row fuel row' valMap'
      | None => evaluate_row fuel row' valMap
      end
  end.

Fixpoint evaluate_rows (fuel : nat) (grid : list (list string))
    (valMap : gmap string pyval) : res (gmap string pyval) :=
  match grid with
  | [] => Ret valMap
  | row :: grid' =>
      valMap' ← evaluate_row fuel row valMap;
      evaluate_rows fuel grid' valMap'
  end.

End Engine.

(** ** The object and its methods *)

Record SpreadsheetEval := mkSpreadsheetEval {
  maxTokensPerCell : Z;
  maxCells : Z;
  grid : list (list string);
  exprMap : gmap string (list string);
  valMap : gmap string pyval }.

(** [__init__] *)
Definition init : SpreadsheetEval :=
  {| maxTokensPerCell := 100; maxCells := 500000;
     grid := []; exprMap := ∅; valMap := ∅ |}.

Definition set_valMap (self : SpreadsheetEval) (vm : gmap string pyval)
    : SpreadsheetEval :=
  {| maxTokensPerCell := maxTokensPerCell self; maxCells := maxCells self;
     grid := grid self; exprMap := exprMap self; valMap := vm |}.

Definition set_exprMap (self : SpreadsheetEval)
    (em : gmap string (list string)) : SpreadsheetEval :=
  {| maxTokensPerCell := maxTokensPerCell self; maxCells := maxCells self;
     grid := grid self; exprMap := em; valMap := valMap self |}.

Definition set_grid (self : SpreadsheetEval) (g : list (list string))
    : SpreadsheetEval :=
  {| maxTokensPerCell := maxTokensPerCell self; maxCells := maxCells self;
     grid := g; exprMap := exprMap self; valMap := valMap self |}.

(** The body of [for colIndex, expression in enumerate(cells)]. *)
Fixpoint parse_cells (rowIndex colIndex : Z) (cells : list string)
    (rowCells : list string) (self : SpreadsheetEval)
    : list string * SpreadsheetEval :=
  match cells with
  | [] => (rowCells, self)
  | expression :: cells' =>
      let cell := getCellName colIndex rowIndex in
      let rowCells := rowCells ++ [cell] in
      let expression := Py.strip expression in
      if bool_decide (expression = "") then
        parse_cells rowIndex (colIndex + 1) cells' rowCells
          (set_valMap self (<[cell := PyStr ""]> (valMap self)))
      else
        parse_cells rowIndex (colIndex + 1) cells' rowCells
          (set_exprMap self (<[cell := Py.split expression]> (exprMap self)))
  end.

(** The body of [for rowIndex, row in enumerate(rows)]. *)
Fixpoint parse_rows (rowIndex : Z) (rows : list string) (cellCount : Z)
    (self : SpreadsheetEval) : res SpreadsheetEval :=
  match rows with
  | [] => Ret self
  | row :: rows' =>
      let cells := Py.split_on "," (Py.strip row) in
      let cellCount := cellCount + Z.of_nat (length cells) in
      if cellCount >? maxCells self then
        Raise (Exception
          ("Input file contains more than maximum number of allowed cells ("
           +:+ Py.str_of_int (maxCells self) +:+ ")"))
      else
        let '(rowCells, self') := parse_cells rowIndex 0 cells [] self in
        parse_rows (rowIndex + 1) rows' cellCount
          (set_grid self' (grid self' ++ [rowCells]))
  end.

(** [parseInput], on the text of the input file. *)
Definition parseInput (self : SpreadsheetEval) (text : string)
    : res SpreadsheetEval :=
  parse_rows 0 (Py.readlines text) 0 self.

(** [evaluate]. The recursion of [evaluateDFS] is given one unit of fuel
    per cell with an expression, and one more. *)
Definition evaluate (self : SpreadsheetEval) : res SpreadsheetEval :=
  vm ← evaluate_rows (maxTokensPerCell self) (exprMap self)
         (S (size (exprMap self))) (grid self) (valMap self);
  Ret (set_valMap self vm).

Fixpoint write_cells (self : SpreadsheetEval) (row : list string)
    : res (list string) :=
  match row with
  | [] => Ret []
  | cell :: row' =>
      match valMap self !! cell with
      | Some v => cells ← write_cells self row'; Ret (py_str v :: cells)
      | None => Raise (KeyError cell)
      end
  end.

Fixpoint write_rows (self : SpreadsheetEval) (rows : list (list string))
    (out : string) : res string :=
  match rows with
  | [] => Ret out
  | row :: rows' =>
      cells ← write_cells self row;
      write_rows self rows' (out +:+ Py.join "," cells +:+ String "010" "")
  end.

(** [writeOutput]: the text written to the output file. *)
Definition writeOutput (self : SpreadsheetEval) : res string :=
  write_rows self (grid self) "".

(** [main] with a well-formed command line: the text of the output file,
    or the exception that [main] reports. *)
Definition main (text : string) : res string :=
  self ← parseInput init text;
  self ← evaluate self;
  writeOutput self.

(** The newline character as a text, for writing down input files. *)
Definition nl : string := String "010" "".

(** ** Notions of the specification *)

(** The value of a column label read as a bijective base-26 numeral
    (digits [A] = 1 .. [Z] = 26), most significant letter first. *)
Fixpoint bijective26 (acc : Z) (label : string) : Z :=
  match label with
  | EmptyString => acc
  | String c label' => bijective26 (26 * acc + (Py.ord c - 64)) label'
  end.

(** The zero-based column index a label stands for. *)
Definition columnToIndex (label : string) : Z := bijective26 0 label - 1.

(** One of the 26 letters [A] .. [Z]. *)
Definition is_AZ (c : ascii) : bool := Py.between 65 90 c.




(** A sign, or none. *)
Definition is_sign (s : string) : Prop := s = "" ∨ s = "+" ∨ s = "-".


(** The numeral grammar the regular expression accepts: an optional
    sign, digits or none, then an optional point followed by one digit at
    least. *)
Definition numeral (token : string) : Prop :=
  ∃ sign ip frac : string,
    token = sign +:+ ip +:+ frac
    ∧ is_sign sign
    ∧ Py.all Py.isdecimal ip = true
    ∧ (frac = ""
       ∨ ∃ fp, frac = "." +:+ fp ∧ fp ≠ "" ∧ Py.all Py.isdecimal fp = true).

(** A token as the loader makes them: not empty, no white space in it. *)
Definition loader_token (token : string) : Prop :=
  token ≠ "" ∧ Py.all (λ c, negb (Py.isspace c)) token = true.

(** [token] is a cell reference for the engine: [isCellReference] returns
    a true value. *)
Definition is_reference (token : string) : Prop :=
  ∃ v, isCellReference token = Ret v ∧ truthy v = true.

(** The reference graph: [cell] refers to [target] when [target] is a
    reference token of [cell]'s expression and has an expression itself. *)
Definition references (exprs : gmap string (list string))
    (cell target : string) : Prop :=
  ∃ ops, exprs !! cell = Some ops ∧ target ∈ ops
         ∧ is_reference target ∧ is_Some (exprs !! target).

(** [cell] lies on a reference cycle (of length one or more). *)
Definition on_cycle (exprs : gmap string (list string)) (cell : string) : Prop :=
  tc (references exprs) cell cell.



(** How a successful call leaves the store: the visiting set as it was,
    no entry of the Value Map changed, and every new entry for a cell
    that has an expression and was not being visited. *)
Definition evolves (exprs : gmap string (list string)) (st st' : store) : Prop :=
  st'.1 = st.1
  ∧ st.2 ⊆ st'.2
  ∧ ∀ k, k ∈ dom st'.2 → k ∈ dom st.2 ∨ (k ∈ dom exprs ∧ k ∉ st.1).

(** Every cell that has both an expression and a value depends on no
    reference cycle: the reference graph is well founded below it. *)
Definition settled (exprs : gmap string (list string))
    (vm : gmap string pyval) : Prop :=
  ∀ cell, cell ∈ dom vm → cell ∈ dom exprs → sn (references exprs) cell.

(** A float or a text: the values a cell can hold. *)
Definition plain (v : pyval) : Prop :=
  match v with
  | PyFloat _ | PyStr _ => True
  | _ => False
  end.

(** The Value Map holds the empty marker for every cell without expression. *)
Definition blanks_empty (exprs : gmap string (list string))
    (vm : gmap string pyval) : Prop :=
  ∀ cell v, vm !! cell = Some v → exprs !! cell = None → v = PyStr "".

(** The names of all cells of the grid. *)
Definition grid_cells (g : list (list string)) : list string := concat g.

(** The state a load leaves: every expression belongs to a grid cell, no
    cell with an expression has a value yet, the values are empty
    markers, and every grid cell has an expression or a value. *)
Definition loaded (self : SpreadsheetEval) : Prop :=
  (∀ cell, cell ∈ dom (exprMap self) → cell ∈ grid_cells (grid self))
  ∧ dom (valMap self) ## dom (exprMap self)
  ∧ blanks_empty (exprMap self) (valMap self)
  ∧ (∀ cell, cell ∈ grid_cells (grid self) →
             cell ∈ dom (exprMap self) ∪ dom (valMap self)).

(** [name] is the name of a grid position that comes before column
    [colIndex] of row [rowIndex] in reading order. *)
Definition before (rowIndex colIndex : Z) (name : string) : Prop :=
  ∃ c r, 0 ≤ c ∧ 0 ≤ r ∧ name = getCellName c r
         ∧ (r < rowIndex ∨ (r = rowIndex ∧ c < colIndex)).

(** What holds of the object while the loader is at column [colIndex] of
    row [rowIndex], with [seen] the names given out so far. *)
Definition parse_inv (rowIndex colIndex : Z) (seen : list string)
    (self : SpreadsheetEval) : Prop :=
  (∀ k, k ∈ dom (exprMap self) ∪ dom (valMap self) → before rowIndex colIndex k)
  ∧ dom (valMap self) ## dom (exprMap self)
  ∧ (∀ k v, valMap self !! k = Some v → v = PyStr "")
  ∧ (∀ k, k ∈ dom (exprMap self) → k ∈ seen)
  ∧ (∀ k, k ∈ seen → k ∈ dom (exprMap self) ∪ dom (valMap self)).

(** The token interpretation in the words of the specification: the
    token count is checked once, before the first token; the loop itself
    has no check. *)
Fixpoint spec_tokenLoop (resolve : string → store → res (pyval * store))
    (cell : string) (todo : list string) (queue : list pyval)
    (st : store) : res (list pyval * store) :=
  match todo with
  | [] => Ret (queue, st)
  | op :: todo' =>
      if is_operator op then
        if Z.of_nat (length queue) <? 2 then
          Raise (Exception ("Need at least 1 operand for " +:+ op
                            +:+ " in " +:+ cell))
        else
          r ← calculate operand_a operand_b op;
          spec_tokenLoop resolve cell todo' (queue ++ [r]) st
      else
        isref ← isCellReference op;
        if truthy isref then
          '(val, st') ← resolve op st;
          spec_tokenLoop resolve cell todo' (queue ++ [val]) st'
        else if match_number op then
          match Py.float op with
          | Ret f => spec_tokenLoop resolve cell todo' (queue ++ [PyFloat f]) st
          | _ => Raise (Exception ("Error evaluating number " +:+ op
                                   +:+ " in " +:+ cell))
          end
        else Raise (Exception ("Invalid token '" +:+ op +:+ "' in " +:+ cell))
  end.

Definition too_long (limit : Z) (cell : string) : pyexn :=
  Exception ("Expression too long in " +:+ cell +:+ " - max of "
             +:+ Py.str_of_int limit +:+ " tokens in a cell").

Definition spec_interpret (limit : Z)
    (resolve : string → store → res (pyval * store))
    (cell : string) (ops : list string) (st : store)
    : res (list pyval * store) :=
  if Z.of_nat (length ops) >? limit then Raise (too_long limit cell)
  else spec_tokenLoop resolve cell ops [] st.

(** ** Notions of the further properties *)

(** The cell texts of one line of the input, as the loader cuts them. *)
Definition row_cells (row : string) : list string :=
  Py.split_on "," (Py.strip row).

(** The cell texts of the whole input, line by line. *)
Definition cell_texts (text : string) : list (list string) :=
  map row_cells (Py.readlines text).

(** The number of cells of the input. *)
Definition total_cells (rows : list (list string)) : Z :=
  Z.of_nat (length (concat rows)).

(** The names of the cells of a sheet of the shape of [rows], whose first
    row has index [rowIndex]. *)
Definition names_of (rowIndex : Z) (rows : list (list string))
    : list (list string) :=
  imap (λ r cells,
          imap (λ c _, getCellName (Z.of_nat c) (rowIndex + Z.of_nat r)) cells)
       rows.

(** What the loader keeps of the cell [name] with the text [expression]:
    its tokens in the Expression Map, or the empty marker in the Value
    Map when the text is blank. *)
Definition kept (self : SpreadsheetEval) (name expression : string) : Prop :=
  if bool_decide (Py.strip expression = "") then
    valMap self !! name = Some (PyStr "") ∧ exprMap self !! name = None
  else
    exprMap self !! name = Some (Py.split (Py.strip expression))
    ∧ valMap self !! name = None.

(** The value of a cell whose expression is the one token [op], given
    the Value Map: for a reference the value of the cell it names, or the
    empty marker when that cell has none; for a number the float it
    reads as. *)
Definition token_value (vm : gmap string pyval) (op : string) (v : pyval)
    : Prop :=
  (is_reference op ∧ v = default (PyStr "") (vm !! op))
  ∨ (¬ is_reference op ∧ match_number op = true
     ∧ ∃ f, Py.float op = Ret f ∧ v = PyFloat f).

(** Every cell that has an expression and a value has one token, which is
    no operator, and the value of that token; the cell a reference names
    has a value whenever it has an expression. *)
Definition evaluated (exprs : gmap string (list string))
    (vm : gmap string pyval) : Prop :=
  ∀ cell ops v, exprs !! cell = Some ops → vm !! cell = Some v →
    ∃ op, ops = [op] ∧ is_operator op = false ∧ token_value vm op v
          ∧ (is_reference op → vm !! op = None → exprs !! op = None).

(** What an error of the evaluation says about the expressions: the
    cell it names has too many tokens; an operator stands after fewer
    than two other tokens, or after two or more; [isCellReference] fails
    on a token; the cell it names lies on a reference cycle; a token is
    neither operator nor reference nor number; a cell without operator
    has not exactly one token. *)
Inductive truthful (limit : Z) (exprs : gmap string (list string))
    : pyexn → Prop :=
  | expression_too_long cell ops :
      exprs !! cell = Some ops → limit < Z.of_nat (length ops) →
      truthful limit exprs (too_long limit cell)
  | insufficient_operands cell pre op post :
      exprs !! cell = Some (pre ++ op :: post) →
      Forall (λ t, is_operator t = false) pre → is_operator op = true →
      (length pre < 2)%nat →
      truthful limit exprs
        (Exception ("Need at least 1 operand for " +:+ op +:+ " in " +:+ cell))
  | operator_operands cell pre op post :
      exprs !! cell = Some (pre ++ op :: post) →
      Forall (λ t, is_operator t = false) pre → is_operator op = true →
      (2 ≤ length pre)%nat →
      truthful limit exprs (TypeError op TTuple TBuiltinMethod)
  | reference_row cell ops op row :
      exprs !! cell = Some ops → op ∈ ops → is_operator op = false →
      isCellReference op = Raise (ValueError row) →
      truthful limit exprs (ValueError row)
  | circular_reference cell :
      on_cycle exprs cell →
      truthful limit exprs (Exception ("Circular reference at " +:+ cell))
  | invalid_token cell ops op :
      exprs !! cell = Some ops → op ∈ ops → is_operator op = false →
      ¬ is_reference op → match_number op = false →
      truthful limit exprs
        (Exception ("Invalid token '" +:+ op +:+ "' in " +:+ cell))
  | invalid_expression cell ops :
      exprs !! cell = Some ops → length ops ≠ 1%nat →
      Forall (λ t, is_operator t = false) ops →
      truthful limit exprs (Exception ("Invalid expression in " +:+ cell)).

(** A token of the loader that is a number and no operator. *)
Definition number_token (token : string) : Prop :=
  loader_token token ∧ numeral token ∧ is_operator token = false.

(** A value a cell can have after an evaluation: a float or the empty
    marker. *)
Definition cell_value (v : pyval) : Prop := v = PyStr "" ∨ ∃ f, v = PyFloat f.

(** The characters the text of a float is made of. *)
Definition float_char (c : ascii) : bool :=
  Py.isdecimal c
  || bool_decide (c ∈ ["."; "e"; "+"; "-"; "i"; "n"; "f"; "a"]%char).

(** The fields the writer makes of a row of the grid, and of the whole
    grid: [str] of the value of every cell. *)
Definition written_row (self : SpreadsheetEval) (row : list string)
    : list string :=
  map (λ cell, py_str (default (PyStr "") (valMap self !! cell))) row.

Definition written (self : SpreadsheetEval) : list (list string) :=
  map (written_row self) (grid self).

(** The cells among [cells] that have no value, in order. *)
Definition missing (self : SpreadsheetEval) (cells : list string)
    : list string :=
  filter (λ cell, valMap self !! cell = None) cells.

(** The text of a file of lines of comma-separated fields. *)
Fixpoint lines_text (rows : list (list string)) : string :=
  match rows with
  | [] => ""
  | row :: rows' => Py.join "," row +:+ nl +:+ lines_text rows'
  end.

(** * Properties *)

(** ** Column labels *)

Lemma indexToColForm_loop_neg index columnName :
  index < 0 → indexToColForm_loop index columnName = columnName.
Proof.
  intros H. rewrite indexToColForm_loop_equation_1.
  destruct (decide (0 ≤ index)); [lia|reflexivity].
Qed.

Lemma indexToColForm_loop_nonneg index columnName :
  0 ≤ index →
  indexToColForm_loop index columnName
  = indexToColForm_loop (index `div` 26 - 1)
      (String (Py.chr (Py.ord "A" + index `mod` 26)) columnName).
Proof.
  intros H. rewrite indexToColForm_loop_equation_1.
  destruct (decide (0 ≤ index)); [reflexivity|lia].
Qed.

Lemma string_app_assoc (a b c : string) : (a +:+ b) +:+ c = a +:+ b +:+ c.
Proof. induction a; simpl; [done|]. unfold String.app in *. simpl. by f_equal. Qed.

Lemma indexToColForm_loop_acc index columnName :
  indexToColForm_loop index columnName = indexToColForm index +:+ columnName.
Proof.
  unfold indexToColForm.
  assert (Hwf : ∀ k : nat, ∀ index, Z.to_nat (index + 1) = k → ∀ acc,
     indexToColForm_loop index acc = indexToColForm_loop index "" +:+ acc).
  { induction k as [k IH] using lt_wf_ind. intros i Hk acc.
    destruct (decide (0 ≤ i)).
    - rewrite !(indexToColForm_loop_nonneg i) by done.
      assert (0 ≤ i `div` 26) by (apply Z.div_pos; lia).
      assert (i `div` 26 ≤ i) by (apply Z.div_le_upper_bound; lia).
      rewrite (IH (Z.to_nat (i `div` 26 - 1 + 1))) by lia.
      rewrite (IH (Z.to_nat (i `div` 26 - 1 + 1)) ltac:(lia) _ eq_refl (String _ "")).
      rewrite string_app_assoc. reflexivity.
    - rewrite !indexToColForm_loop_neg by lia. reflexivity. }
  eauto.
Qed.

(** The label of [index] is the label of [index/26 - 1] followed by the
    letter of [index mod 26]. *)
Lemma indexToColForm_step index :
  0 ≤ index →
  indexToColForm index
  = indexToColForm (index `div` 26 - 1)
    +:+ String (Py.chr (Py.ord "A" + index `mod` 26)) "".
Proof.
  intros H. unfold indexToColForm at 1.
  rewrite indexToColForm_loop_nonneg by done.
  apply indexToColForm_loop_acc.
Qed.

Lemma indexToColForm_negative index : index < 0 → indexToColForm index = "".
Proof. apply indexToColForm_loop_neg. Qed.

Lemma ord_chr (n : Z) : 0 ≤ n < 256 → Py.ord (Py.chr n) = n.
Proof.
  intros H. unfold Py.ord, Py.chr, Py.code.
  rewrite N_ascii_embedding by lia. lia.
Qed.

Lemma chr_ord (c : ascii) : Py.chr (Py.ord c) = c.
Proof.
  unfold Py.ord, Py.chr, Py.code. rewrite N2Z.id. apply ascii_N_embedding.
Qed.

Lemma is_AZ_ord (c : ascii) : is_AZ c = true ↔ 65 ≤ Py.ord c ≤ 90.
Proof.
  unfold is_AZ, Py.between, Py.ord.
  rewrite andb_true_iff, !N.leb_le. lia.
Qed.

Lemma bijective26_app acc (s t : string) :
  bijective26 acc (s +:+ t) = bijective26 (bijective26 acc s) t.
Proof. revert acc. induction s as [|c s IH]; intros acc; simpl; [done|]. apply IH. Qed.

Lemma all_app p (s t : string) :
  Py.all p (s +:+ t) = Py.all p s && Py.all p t.
Proof.
  induction s as [|c s IH]; simpl; [done|].
  change (String c s +:+ t) with (String c (s +:+ t)). simpl.
  rewrite IH. by rewrite andb_assoc.
Qed.

(** Induction over the indices by the loop's own step. *)
Lemma index_ind (P : Z → Prop) :
  (∀ index, index < 0 → P index) →
  (∀ index, 0 ≤ index → P (index `div` 26 - 1) → P index) →
  ∀ index, P index.
Proof.
  intros Hneg Hstep index.
  remember (Z.to_nat (index + 1)) as k eqn:Hk. revert index Hk.
  induction k as [k IH] using lt_wf_ind. intros index ->.
  destruct (decide (0 ≤ index)); [|apply Hneg; lia].
  apply Hstep; [done|].
  assert (0 ≤ index `div` 26) by (apply Z.div_pos; lia).
  assert (index `div` 26 ≤ index) by (apply Z.div_le_upper_bound; lia).
  apply (IH (Z.to_nat (index `div` 26 - 1 + 1))); lia.
Qed.

Lemma indexToColForm_letters index : Py.all is_AZ (indexToColForm index) = true.
Proof.
  induction index as [index Hneg|index Hpos IH] using index_ind.
  - by rewrite indexToColForm_negative.
  - rewrite indexToColForm_step, all_app, IH by done. simpl.
    rewrite andb_true_r. apply is_AZ_ord.
    pose proof (Z.mod_pos_bound index 26).
    rewrite ord_chr; change (Py.ord "A") with 65; lia.
Qed.

Lemma indexToColForm_value index :
  -1 ≤ index → bijective26 0 (indexToColForm index) = index + 1.
Proof.
  induction index as [index Hneg|index Hpos IH] using index_ind; intros Hge.
  - rewrite indexToColForm_negative by done. simpl. lia.
  - assert (0 ≤ index `div` 26) by (apply Z.div_pos; lia).
    rewrite indexToColForm_step, bijective26_app, IH by lia. simpl.
    pose proof (Z.mod_pos_bound index 26).
    rewrite ord_chr by (change (Py.ord "A") with 65; lia).
    change (Py.ord "A") with 65.
    pose proof (Z.div_mod index 26). lia.
Qed.

Lemma indexToColForm_nonempty index : 0 ≤ index → indexToColForm index ≠ "".
Proof.
  intros H Heq. pose proof (indexToColForm_value index) as Hv.
  rewrite Heq in Hv. simpl in Hv. lia.
Qed.

Lemma string_snoc_ind (P : string → Prop) :
  P "" → (∀ s c, P s → P (s +:+ String c "")) → ∀ s, P s.
Proof.
  intros Hnil Hsnoc s.
  rewrite <-(string_of_list_ascii_of_string s).
  induction (list_ascii_of_string s) as [|c l IH] using rev_ind; [done|].
  replace (string_of_list_ascii (l ++ [c]))
    with (string_of_list_ascii l +:+ String c "").
  - by apply Hsnoc.
  - clear. induction l as [|a l IH]; simpl; [done|].
    change (String a ?x +:+ ?y) with (String a (x +:+ y)). by rewrite IH.
Qed.

Lemma bijective26_nonneg (s : string) acc :
  0 ≤ acc → Py.all is_AZ s = true → acc ≤ bijective26 acc s.
Proof.
  revert acc. induction s as [|c s IH]; intros acc Hacc; simpl; [lia|].
  rewrite andb_true_iff, is_AZ_ord. intros [Hc Hs].
  etrans; [|apply IH; [lia|done]]. lia.
Qed.

Lemma indexToColForm_columnToIndex (label : string) :
  Py.all is_AZ label = true →
  indexToColForm (columnToIndex label) = label.
Proof.
  unfold columnToIndex.
  induction label as [|s c IH] using string_snoc_ind; intros Hall.
  - reflexivity.
  - rewrite all_app, andb_true_iff in Hall. destruct Hall as [Hs Hc].
    simpl in Hc. rewrite andb_true_r, is_AZ_ord in Hc.
    pose proof (bijective26_nonneg s 0 ltac:(lia) Hs) as Hv.
    rewrite bijective26_app. simpl.
    set (v := bijective26 0 s) in *.
    assert (Hd : (26 * v + (Py.ord c - 64) - 1) `div` 26 = v).
    { symmetry. apply (Z.div_unique _ _ _ (Py.ord c - 65)); lia. }
    assert (Hm : (26 * v + (Py.ord c - 64) - 1) `mod` 26 = Py.ord c - 65).
    { symmetry. apply (Z.mod_unique _ _ v); lia. }
    rewrite indexToColForm_step by lia.
    rewrite Hd, Hm, IH by done. change (Py.ord "A") with 65.
    replace (65 + (Py.ord c - 65)) with (Py.ord c) by lia.
    by rewrite chr_ord.
Qed.

Lemma indexToColForm_inj i j :
  0 ≤ i → 0 ≤ j → indexToColForm i = indexToColForm j → i = j.
Proof.
  intros Hi Hj Heq.
  pose proof (indexToColForm_value i) as Hvi.
  pose proof (indexToColForm_value j) as Hvj.
  rewrite Heq in Hvi. lia.
Qed.

(** C9. [indexToColForm] gives the bijective base-26 label of a column
    index: the listed labels for 0, 25, 26, 27, 51 and 52; for every
    index from 0 on a non-empty text of the letters A..Z whose bijective
    base-26 value is the index; different indices get different labels;
    and every non-empty text of letters is the label of its value. *)
Theorem indexToColForm_bijective_base26 :
  (indexToColForm 0 = "A" ∧ indexToColForm 25 = "Z"
   ∧ indexToColForm 26 = "AA" ∧ indexToColForm 27 = "AB"
   ∧ indexToColForm 51 = "AZ" ∧ indexToColForm 52 = "BA")
  ∧ (∀ index, 0 ≤ index →
       indexToColForm index ≠ ""
       ∧ Py.all is_AZ (indexToColForm index) = true
       ∧ columnToIndex (indexToColForm index) = index)
  ∧ (∀ i j, 0 ≤ i → 0 ≤ j → indexToColForm i = indexToColForm j → i = j)
  ∧ (∀ label, label ≠ "" → Py.all is_AZ label = true →
       0 ≤ columnToIndex label
       ∧ indexToColForm (columnToIndex label) = label).
Proof.
  split; [repeat split; reflexivity|].
  assert (Hround : ∀ index, 0 ≤ index →
            columnToIndex (indexToColForm index) = index).
  { intros index H. unfold columnToIndex.
    rewrite indexToColForm_value; lia. }
  split; [|split].
  - intros index H.
    eauto using indexToColForm_nonempty, indexToColForm_letters.
  - apply indexToColForm_inj.
  - intros label Hne Hall. split; [|by apply indexToColForm_columnToIndex].
    destruct label as [|c s]; [done|]. unfold columnToIndex. simpl in *.
    apply andb_true_iff in Hall as [Hc Hs]. apply is_AZ_ord in Hc.
    pose proof (bijective26_nonneg s (26 * 0 + (Py.ord c - 64)) ltac:(lia) Hs).
    lia.
Qed.

Lemma indexToColForm_bijective_base26_witness :
  indexToColForm 701 ≠ ""
  ∧ Py.all is_AZ (indexToColForm 701) = true
  ∧ columnToIndex (indexToColForm 701) = 701.
Proof.
  apply (proj1 (proj2 indexToColForm_bijective_base26) 701). lia.
Defined.

(** ** The operator branch *)

Lemma calculate_operands (op : string) :
  is_operator op = true →
  calculate operand_a operand_b op = Raise (TypeError op TTuple TBuiltinMethod).
Proof.
  unfold is_operator. rewrite bool_decide_eq_true.
  rewrite !elem_of_cons, elem_of_nil.
  intros [->|[->|[->|[->|[]]]]]; reflexivity.
Qed.

(** An operator that finds two values in the queue never computes: its
    operands are the tuple and the method object, whatever the queue holds. *)
Lemma tokenLoop_operator limit resolve cell ops op todo queue st :
  Z.of_nat (length ops) ≤ limit →
  is_operator op = true →
  2 ≤ Z.of_nat (length queue) →
  tokenLoop limit resolve cell ops (op :: todo) queue st
  = Raise (TypeError op TTuple TBuiltinMethod).
Proof.
  intros Hlen Hop Hq. simpl.
  destruct (Z.gtb_spec (Z.of_nat (length ops)) limit); [lia|].
  rewrite Hop.
  destruct (Z.ltb_spec (Z.of_nat (length queue)) 2); [lia|].
  rewrite calculate_operands by done. reflexivity.
Qed.

(** C1. The basic-arithmetic scenario does not produce "5.0,3.0\n64.0":
    the run stops at the first operator, with the TypeError of adding
    the tuple [(queue.popleft,)] and the method [queue.popleft]. *)
Theorem basic_arithmetic_scenario_fails :
  main ("2 3 +,6 2 /" +:+ nl +:+ "8 8 *")
  = Raise (TypeError "+" TTuple TBuiltinMethod).
Proof. vm_compute. reflexivity. Qed.

(** C2. An operator that finds two or more values in the queue does not
    compute "first pushed OP second pushed": it pops nothing and raises
    the TypeError of its two operands, the tuple and the method object;
    so a cell "3 2 -" does not evaluate to 1.0. *)
Theorem operand_order_scenario_fails :
  (∀ limit resolve cell ops op todo queue st,
     Z.of_nat (length ops) ≤ limit → is_operator op = true →
     2 ≤ Z.of_nat (length queue) →
     tokenLoop limit resolve cell ops (op :: todo) queue st
     = Raise (TypeError op TTuple TBuiltinMethod))
  ∧ main "3 2 -" = Raise (TypeError "-" TTuple TBuiltinMethod).
Proof.
  split; [intros; by apply tokenLoop_operator|vm_compute; reflexivity].
Qed.

(** C4. A division is never reported as a division by zero: the operator
    "/" raises the TypeError of the operator branch whatever the queue
    holds, and so does the input "1 0 /". *)
Theorem division_by_zero_scenario_fails :
  (∀ limit resolve cell ops todo queue st,
     Z.of_nat (length ops) ≤ limit → 2 ≤ Z.of_nat (length queue) →
     tokenLoop limit resolve cell ops ("/" :: todo) queue st
     = Raise (TypeError "/" TTuple TBuiltinMethod))
  ∧ main "1 0 /" = Raise (TypeError "/" TTuple TBuiltinMethod).
Proof.
  split; [intros; by apply tokenLoop_operator|vm_compute; reflexivity].
Qed.

(** ** Cell references *)

Ltac by_cases_on_char c :=
  destruct c as [[] [] [] [] [] [] [] []]; vm_compute; try done; auto.

Lemma decimal_not_upper_alpha c :
  Py.isdecimal c = true → upper_alpha c = false.
Proof. by_cases_on_char c. Qed.

Lemma decimal_isdigit c : Py.isdecimal c = true → Py.isdigit c = true.
Proof. by_cases_on_char c. Qed.


Lemma string_app_nil_r (s : string) : s +:+ "" = s.
Proof.
  induction s as [|c s IH]; [done|].
  change (String c s +:+ "") with (String c (s +:+ "")). by rewrite IH.
Qed.

Lemma string_app_cons c (s t : string) : String c s +:+ t = String c (s +:+ t).
Proof. reflexivity. Qed.

Lemma all_impl (p q : ascii → bool) (s : string) :
  (∀ c, p c = true → q c = true) → Py.all p s = true → Py.all q s = true.
Proof.
  intros Hpq. induction s as [|c s IH]; simpl; [done|].
  rewrite !andb_true_iff. intros [Hc Hs]. auto.
Qed.


(** A text of letters followed by a digit has the letters as its column
    prefix: the prefix is maximal. *)
Lemma colCount_letters_digits (letters digits : string) :
  Py.all upper_alpha letters = true →
  digits ≠ "" → Py.all Py.isdecimal digits = true →
  colCount (letters +:+ digits) = String.length letters
  ∧ Py.slice_from (String.length letters) (letters +:+ digits) = digits.
Proof.
  intros Hl Hne Hd. induction letters as [|c letters IH]; simpl in *.
  - destruct digits as [|d digits]; [done|]. simpl in *.
    apply andb_true_iff in Hd as [Hd _].
    by rewrite (decimal_not_upper_alpha d).
  - apply andb_true_iff in Hl as [Hc Hl].
    rewrite Hc.
    destruct (IH Hl) as [-> ->]. done.
Qed.

Lemma int_decimal (row : string) :
  row ≠ "" → Py.all Py.isdecimal row = true →
  Py.int row = Ret (Py.int_go 0 row).
Proof. intros Hne Hall. unfold Py.int. destruct row; [done|]. by rewrite Hall. Qed.

Lemma str_isdigit_decimal (row : string) :
  row ≠ "" → Py.all Py.isdecimal row = true → Py.str_isdigit row = true.
Proof.
  intros Hne Hall. unfold Py.str_isdigit. destruct row; [done|].
  eapply all_impl; [apply decimal_isdigit|done].
Qed.

Lemma all_slice_from p n (s : string) :
  Py.all p s = true → Py.all p (Py.slice_from n s) = true.
Proof.
  revert s. induction n as [|n IH]; intros [|c s]; simpl; try done.
  rewrite andb_true_iff. intros [_ Hs]. auto.
Qed.













(** Leading zeros are accepted, a suffix of value zero is not. *)
Lemma isCellReference_examples :
  isCellReference "A1" = Ret (BoolVal true)
  ∧ isCellReference "AA01" = Ret (BoolVal true)
  ∧ isCellReference "A0" = Ret (BoolVal false)
  ∧ isCellReference "A00" = Ret (BoolVal false)
  ∧ isCellReference "a1" = Ret (BoolVal false)
  ∧ isCellReference "A1B" = Ret (BoolVal false)
  ∧ isCellReference "A-1" = Ret (BoolVal false)
  ∧ isCellReference "12" = Ret (BoolVal false)
  ∧ isCellReference "" = Ret (BoolVal false).
Proof. repeat split; reflexivity. Qed.


(** ** The token loop *)

Section TokenLoop.

Variable limit : Z.
Variable resolve : string → store → res (pyval * store).
Variable cell : string.
Variable ops : list string.

Local Abbreviation loop := (tokenLoop limit resolve cell ops).

Lemma is_reference_not_operator (op : string) :
  is_reference op → is_operator op = false.
Proof.
  intros (v & Hv & Ht). destruct (is_operator op) eqn:Hop; [|done].
  unfold is_operator in Hop. rewrite bool_decide_eq_true in Hop.
  rewrite !elem_of_cons, elem_of_nil in Hop.
  destruct Hop as [->|[->|[->|[->|[]]]]]; vm_compute in Hv;
    injection Hv as <-; discriminate Ht.
Qed.

(** The first token is too much when the expression is too long, whatever
    the token and the queue are. *)
Lemma tokenLoop_too_long op todo queue st :
  limit < Z.of_nat (length ops) →
  loop (op :: todo) queue st = Raise (too_long limit cell).
Proof.
  intros Hlen. simpl.
  destruct (Z.gtb_spec (Z.of_nat (length ops)) limit); [done|lia].
Qed.

Lemma tokenLoop_reference op todo queue st :
  Z.of_nat (length ops) ≤ limit →
  is_reference op →
  loop (op :: todo) queue st
  = '(val, st') ← resolve op st; loop todo (queue ++ [val]) st'.
Proof.
  intros Hlen Href. pose proof (is_reference_not_operator op Href) as Hop.
  destruct Href as (v & Hv & Ht). simpl.
  destruct (Z.gtb_spec (Z.of_nat (length ops)) limit); [lia|].
  rewrite Hop, Hv. simpl. rewrite Ht. reflexivity.
Qed.

(** A loop that ends normally met no operator: every token was a
    reference that resolved, or a numeral. *)
Lemma tokenLoop_cons_Ret op todo queue st queue' st' :
  loop (op :: todo) queue st = Ret (queue', st') →
  Z.of_nat (length ops) ≤ limit
  ∧ ((is_reference op
      ∧ ∃ val st1, resolve op st = Ret (val, st1)
                   ∧ loop todo (queue ++ [val]) st1 = Ret (queue', st'))
     ∨ (¬ is_reference op
        ∧ ∃ f, Py.float op = Ret f
               ∧ loop todo (queue ++ [PyFloat f]) st = Ret (queue', st'))).
Proof.
  simpl. destruct (Z.gtb_spec (Z.of_nat (length ops)) limit) as [Hgt|Hle]; [done|].
  intros H. split; [lia|]. revert H.
  destruct (is_operator op) eqn:Hop.
  { destruct (Z.of_nat (length queue) <? 2); [done|].
    by rewrite calculate_operands. }
  destruct (isCellReference op) as [v| |] eqn:Hv; simpl; [|done..].
  destruct (truthy v) eqn:Ht.
  - destruct (resolve op st) as [[val st1]| |] eqn:Hres; simpl; [|done..].
    intros H. left. split; [by exists v|eauto].
  - destruct (match_number op); [|done].
    destruct (Py.float op) as [f| |]; [|done..].
    intros H. right. split; [|eauto].
    intros (v' & Hv' & Ht'). congruence.
Qed.

(** What holds between the stores before and after every successful call
    of [resolve] holds between the stores before and after the loop. *)
Lemma tokenLoop_Ret_rel (R : relation store) `{!PreOrder R} :
  (∀ c st v st', resolve c st = Ret (v, st') → R st st') →
  ∀ todo queue st queue' st',
    loop todo queue st = Ret (queue', st') → R st st'.
Proof.
  intros Hres todo. induction todo as [|op todo IH]; intros queue st queue' st'.
  - intros [= _ <-]. reflexivity.
  - intros H. apply tokenLoop_cons_Ret in H as [_ H].
    destruct H as [(_ & val & st1 & H1 & H2)|(_ & f & _ & H2)].
    + etrans; [by eapply Hres|by eapply IH].
    + by eapply IH.
Qed.

(** Every token adds one value to the queue. *)
Lemma tokenLoop_Ret_length todo queue st queue' st' :
  loop todo queue st = Ret (queue', st') →
  length queue' = (length queue + length todo)%nat.
Proof.
  revert queue st. induction todo as [|op todo IH]; intros queue st.
  - intros [= <- _]. simpl. lia.
  - intros H. apply tokenLoop_cons_Ret in H as [_ H].
    destruct H as [(_ & val & st1 & H1 & H2)|(_ & f & _ & H2)];
      apply IH in H2; rewrite length_app in H2; simpl in *; lia.
Qed.

End TokenLoop.

(** ** The recursive resolution *)

Section EvaluateDFS.

Variable limit : Z.
Variable exprs : gmap string (list string).

Local Abbreviation dfs := (evaluateDFS limit exprs).
Local Abbreviation loop := (tokenLoop limit).

Global Instance evolves_preorder : PreOrder (evolves exprs).
Proof.
  split.
  - intros st. unfold evolves. eauto.
  - intros st1 st2 st3 (Hv12 & Hm12 & Hn12) (Hv23 & Hm23 & Hn23).
    split; [congruence|]. split; [by etrans|].
    intros k Hk. destruct (Hn23 k Hk) as [Hk2|[? Hk2]].
    + auto.
    + right. split; [done|]. by rewrite <-Hv12.
Qed.

(** The three ways [evaluateDFS] returns: a memo hit, a cell without
    expression, or a cell whose tokens were interpreted. *)
Lemma evaluateDFS_Ret fuel cell visiting valMap v st' :
  dfs (S fuel) cell (visiting, valMap) = Ret (v, st') →
  (valMap !! cell = Some v ∧ st' = (visiting, valMap))
  ∨ (valMap !! cell = None ∧ (cell ∉ visiting) ∧ exprs !! cell = None
     ∧ v = PyStr "" ∧ st' = (visiting, valMap))
  ∨ (valMap !! cell = None ∧ (cell ∉ visiting)
     ∧ ∃ ops visiting' valMap',
         exprs !! cell = Some ops
         ∧ loop (dfs fuel) cell ops ops [] ({[cell]} ∪ visiting, valMap)
           = Ret ([v], (visiting', valMap'))
         ∧ cell ∈ visiting'
         ∧ st' = (visiting' ∖ {[cell]}, <[cell := v]> valMap')).
Proof.
  simpl. destruct (valMap !! cell) as [w|] eqn:Hmemo.
  { intros [= <- <-]. auto. }
  case_bool_decide as Hvis; [done|].
  destruct (exprs !! cell) as [ops|] eqn:Hops.
  2:{ intros [= <- <-]. right. left. auto. }
  destruct (loop _ _ _ _ _ _) as [[queue [visiting' valMap']]| |] eqn:Hloop;
    simpl; [|done..].
  destruct queue as [|r [|??]]; [done| |done].
  case_bool_decide as Hin; [|done].
  intros [= <- <-]. right. right. do 2 (split; [done|]).
  exists ops, visiting', valMap'. auto.
Qed.

Lemma evaluateDFS_evolves fuel cell st v st' :
  dfs fuel cell st = Ret (v, st') → evolves exprs st st'.
Proof.
  revert cell st v st'. induction fuel as [|fuel IH]; [done|].
  intros cell [visiting valMap] v st' H.
  apply evaluateDFS_Ret in H
    as [[_ ->]|[(_ & _ & _ & _ & ->)|(Hmemo & Hvis & ops & vis' & vm' & Hops & Hloop & Hin & ->)]];
    [reflexivity..|].
  apply (tokenLoop_Ret_rel _ _ _ _ (evolves exprs)) in Hloop; [|exact IH].
  destruct Hloop as (Hv & Hm & Hn). simpl in *. subst vis'.
  assert (vm' !! cell = None) as Hfresh.
  { apply not_elem_of_dom. intros Hk. apply Hn in Hk as [Hk|[_ Hk]].
    - by apply not_elem_of_dom in Hmemo.
    - set_solver. }
  split; [|split]; simpl.
  - set_solver.
  - by apply insert_subseteq_r.
  - intros k. rewrite dom_insert_L, elem_of_union, elem_of_singleton.
    intros [->|Hk].
    + right. split; [|done]. apply elem_of_dom. eauto.
    + apply Hn in Hk as [Hk|[? Hk]]; [auto|]. right. set_solver.
Qed.

(** A value in the Value Map is what [evaluateDFS] returns, at once and
    with the store untouched. *)
Lemma evaluateDFS_memo fuel cell visiting valMap v :
  valMap !! cell = Some v →
  dfs (S fuel) cell (visiting, valMap) = Ret (v, (visiting, valMap)).
Proof. intros H. simpl. by rewrite H. Qed.


Lemma evaluateDFS_blank fuel cell visiting valMap :
  valMap !! cell = None → cell ∉ visiting → exprs !! cell = None →
  dfs (S fuel) cell (visiting, valMap) = Ret (PyStr "", (visiting, valMap)).
Proof.
  intros Hmemo Hvis Hops. simpl. rewrite Hmemo, Hops.
  by rewrite bool_decide_false.
Qed.

(** A cell with an expression that resolves has its value recorded. *)
Lemma evaluateDFS_records fuel cell st v st' :
  dfs fuel cell st = Ret (v, st') → is_Some (exprs !! cell) →
  st'.2 !! cell = Some v.
Proof.
  destruct fuel as [|fuel]; [done|]. destruct st as [visiting valMap].
  intros H [ops Hops].
  apply evaluateDFS_Ret in H
    as [[? ->]|[(_ & _ & ? & _ & ->)|(_ & _ & ? & ? & ? & _ & _ & _ & ->)]];
    simpl; [done|congruence|].
  apply lookup_insert_eq.
Qed.

(** *** Enough fuel *)

Lemma tokenLoop_fuel resolve cell ops visiting :
  (∀ c st v st', resolve c st = Ret (v, st') → st'.1 = st.1) →
  (∀ c vm, resolve c (visiting, vm) ≠ OutOfFuel) →
  ∀ todo queue vm, loop resolve cell ops todo queue (visiting, vm) ≠ OutOfFuel.
Proof.
  intros Hvis Hfuel todo.
  induction todo as [|op todo IH]; intros queue vm; [done|]. simpl.
  destruct (Z.of_nat (length ops) >? limit); [done|].
  destruct (is_operator op) eqn:Hop.
  { destruct (Z.of_nat (length queue) <? 2); [done|].
    by rewrite calculate_operands. }
  destruct (isCellReference op) as [v| |] eqn:Hv; simpl; [|done|].
  2:{ unfold isCellReference in Hv.
      repeat (case_bool_decide; [done|]).
      destruct (negb _); [done|].
      unfold Py.int in Hv. by repeat case_match. }
  destruct (truthy v).
  - destruct (resolve op (visiting, vm)) as [[val [vis1 vm1]]| |] eqn:Hres;
      simpl; [|done|by apply Hfuel in Hres].
    apply Hvis in Hres. simpl in Hres. subst vis1. apply IH.
  - destruct (match_number op); [|done].
    destruct (Py.float op); [apply IH|done..].
Qed.

(** [evaluateDFS] ends when it has more fuel than there are cells with
    an expression that are not being visited. *)
Lemma evaluateDFS_fuel fuel cell visiting valMap :
  (size (dom exprs ∖ visiting) < fuel)%nat →
  dfs fuel cell (visiting, valMap) ≠ OutOfFuel.
Proof.
  revert cell visiting valMap. induction fuel as [|fuel IH]; [lia|].
  intros cell visiting valMap Hsize. simpl.
  destruct (valMap !! cell); [done|].
  case_bool_decide as Hvis; [done|].
  destruct (exprs !! cell) as [ops|] eqn:Hops; [|done].
  destruct (loop _ _ _ _ _ _) as [[queue [visiting' valMap']]| |] eqn:Hloop;
    simpl; [|done|].
  - destruct queue as [|r [|??]]; [done| |done]. by case_bool_decide.
  - exfalso. revert Hloop. apply tokenLoop_fuel.
    + intros c st v st' H. by apply evaluateDFS_evolves in H as [? _].
    + intros c vm. apply IH.
      assert (dom exprs ∖ ({[cell]} ∪ visiting) ⊂ dom exprs ∖ visiting) as Hsub.
      { assert (cell ∈ dom exprs) by (apply elem_of_dom; eauto).
        set_solver. }
      apply subset_size in Hsub. lia.
Qed.

(** *** Values are computed along a well-founded part of the graph *)

Lemma sn_not_on_cycle {A} (R : relation A) (x : A) : sn R x → ¬ tc R x x.
Proof.
  induction 1 as [x _ IH]. intros Hcycle.
  inversion Hcycle as [? ? Hxx|? y ? Hxy Hyx]; subst.
  - apply (IH x Hxx). by apply tc_once.
  - apply (IH y Hxy). by eapply tc_r.
Qed.

Lemma tokenLoop_settled resolve cell ops :
  (∀ c st v st', resolve c st = Ret (v, st') →
     evolves exprs st st' ∧ (settled exprs st.2 → settled exprs st'.2)
     ∧ (c ∈ dom exprs → c ∈ dom st'.2)) →
  ∀ todo queue st queue' st',
    loop resolve cell ops todo queue st = Ret (queue', st') →
    settled exprs st.2 →
    settled exprs st'.2
    ∧ ∀ op, op ∈ todo → is_reference op → op ∈ dom exprs → op ∈ dom st'.2.
Proof.
  intros Hres todo.
  induction todo as [|op todo IH]; intros queue st queue' st' H Hst.
  { injection H as _ <-. split; [done|]. intros op Hin. by apply elem_of_nil in Hin. }
  apply tokenLoop_cons_Ret in H as [_ H].
  destruct H as [(Href & val & st1 & H1 & H2)|(Hnref & f & _ & H2)].
  - destruct (Hres _ _ _ _ H1) as (_ & Hst1 & Hop).
    assert (evolves exprs st1 st') as (_ & Hsub & _).
    { eapply (tokenLoop_Ret_rel _ _ _ _ (evolves exprs)); [|exact H2].
      intros c s v s' Hc. by apply Hres in Hc as [? _]. }
    destruct (IH _ _ _ _ H2 (Hst1 Hst)) as [Hst' Hrest]. split; [done|].
    intros op' [->|Hin]%elem_of_cons; [|by apply Hrest].
    intros _ Hdom. apply Hop in Hdom.
    by apply (subseteq_dom _ _ Hsub).
  - destruct (IH _ _ _ _ H2 Hst) as [Hst' Hrest]. split; [done|].
    intros op' [->|Hin]%elem_of_cons; [done|by apply Hrest].
Qed.

Lemma evaluateDFS_settled fuel cell st v st' :
  dfs fuel cell st = Ret (v, st') →
  (settled exprs st.2 → settled exprs st'.2)
  ∧ (cell ∈ dom exprs → cell ∈ dom st'.2).
Proof.
  revert cell st v st'. induction fuel as [|fuel IH]; [done|].
  intros cell [visiting valMap] v st' H. split.
  2:{ intros [ops Hops]%elem_of_dom. apply elem_of_dom.
      exists v. eapply evaluateDFS_records; eauto. }
  apply evaluateDFS_Ret in H
    as [[_ ->]|[(_ & _ & _ & _ & ->)|(Hmemo & Hvis & ops & vis' & vm' & Hops & Hloop & Hin & ->)]];
    [done..|].
  simpl. intros Hst.
  apply tokenLoop_settled in Hloop as [Hst' Hrefs]; [|clear Hloop|done].
  2:{ intros c s w s' Hc. split; [by eapply evaluateDFS_evolves|].
      by apply IH in Hc. }
  simpl in *. intros c. rewrite dom_insert_L, elem_of_union, elem_of_singleton.
  intros [->|Hc] Hdom; [|by apply Hst'].
  constructor. intros target (ops' & Hops' & Hin' & Href & Hsome).
  rewrite Hops in Hops'. injection Hops' as <-.
  apply elem_of_dom in Hsome. apply Hst'; [|done]. by apply Hrefs.
Qed.

(** *** The loops over the grid *)

Lemma evaluate_row_Ret fuel row valMap valMap' :
  evaluate_row limit exprs fuel row valMap = Ret valMap' →
  valMap ⊆ valMap'
  ∧ (∀ k, k ∈ dom valMap' → k ∈ dom valMap ∨ k ∈ dom exprs)
  ∧ (settled exprs valMap → settled exprs valMap')
  ∧ (∀ cell, cell ∈ row → cell ∈ dom exprs → cell ∈ dom valMap').
Proof.
  revert valMap. induction row as [|cell row IH]; intros valMap; simpl.
  { intros [= <-]. split; [done|]. split; [auto|]. split; [done|].
    intros cell Hin. by apply elem_of_nil in Hin. }
  destruct (exprs !! cell) as [ops|] eqn:Hops.
  - destruct (dfs fuel cell (∅, valMap)) as [[v [vis vm1]]| |] eqn:Hdfs;
      simpl; [|done..].
    intros H. apply IH in H as (Hsub & Hnew & Hst & Hrow).
    pose proof (evaluateDFS_evolves _ _ _ _ _ Hdfs) as (_ & Hsub1 & Hnew1).
    pose proof (evaluateDFS_settled _ _ _ _ _ Hdfs) as (Hst1 & Hcell).
    simpl in *. split; [by etrans|]. split; [|split].
    + intros k Hk. apply Hnew in Hk as [Hk|Hk]; [|auto].
      apply Hnew1 in Hk as [Hk|[Hk _]]; auto.
    + auto.
    + intros c [->|Hin]%elem_of_cons; [|by apply Hrow].
      intros Hc. apply (subseteq_dom _ _ Hsub). auto.
  - intros H. apply IH in H as (Hsub & Hnew & Hst & Hrow).
    split; [done|]. split; [done|]. split; [done|].
    intros c [->|Hin]%elem_of_cons; [|by apply Hrow].
    intros Hc%elem_of_dom. rewrite Hops in Hc. by destruct Hc.
Qed.

Lemma evaluate_rows_Ret fuel g valMap valMap' :
  evaluate_rows limit exprs fuel g valMap = Ret valMap' →
  valMap ⊆ valMap'
  ∧ (∀ k, k ∈ dom valMap' → k ∈ dom valMap ∨ k ∈ dom exprs)
  ∧ (settled exprs valMap → settled exprs valMap')
  ∧ (∀ cell, cell ∈ grid_cells g → cell ∈ dom exprs → cell ∈ dom valMap').
Proof.
  revert valMap. induction g as [|row g IH]; intros valMap; simpl.
  { intros [= <-]. split; [done|]. split; [auto|]. split; [done|].
    intros cell Hin. by apply elem_of_nil in Hin. }
  destruct (evaluate_row _ _ _ _ _) as [vm1| |] eqn:Hrow; simpl; [|done..].
  intros H. apply IH in H as (Hsub & Hnew & Hst & Hcells).
  apply evaluate_row_Ret in Hrow as (Hsub1 & Hnew1 & Hst1 & Hcells1).
  split; [by etrans|]. split; [|split].
  - intros k Hk. apply Hnew in Hk as [Hk|Hk]; auto.
  - auto.
  - intros c [Hin|Hin]%elem_of_app; [|by apply Hcells].
    intros Hc. apply (subseteq_dom _ _ Hsub). auto.
Qed.

Lemma evaluate_row_fuel fuel row valMap :
  (size (dom exprs) < fuel)%nat →
  evaluate_row limit exprs fuel row valMap ≠ OutOfFuel.
Proof.
  intros Hfuel. revert valMap.
  induction row as [|cell row IH]; intros valMap; simpl; [done|].
  destruct (exprs !! cell); [|apply IH].
  destruct (dfs fuel cell (∅, valMap)) as [[v [vis vm1]]| |] eqn:Hdfs;
    simpl; [apply IH|done|].
  exfalso. revert Hdfs. apply evaluateDFS_fuel.
  by rewrite difference_empty_L.
Qed.

Lemma evaluate_rows_fuel fuel g valMap :
  (size (dom exprs) < fuel)%nat →
  evaluate_rows limit exprs fuel g valMap ≠ OutOfFuel.
Proof.
  intros Hfuel. revert valMap.
  induction g as [|row g IH]; intros valMap; simpl; [done|].
  destruct (evaluate_row _ _ _ _ _) as [vm1| |] eqn:Hrow;
    simpl; [apply IH|done|].
  exfalso. revert Hrow. by apply evaluate_row_fuel.
Qed.

End EvaluateDFS.

(** [evaluate] never runs out of fuel: it returns or raises. *)
Lemma evaluate_total (self : SpreadsheetEval) : evaluate self ≠ OutOfFuel.
Proof.
  unfold evaluate.
  destruct (evaluate_rows _ _ _ _ _) as [vm| |] eqn:H; simpl; [done..|].
  exfalso. revert H. apply evaluate_rows_fuel. rewrite size_dom. lia.
Qed.

Lemma on_cycle_has_expression exprs cell :
  on_cycle exprs cell → cell ∈ dom exprs.
Proof.
  intros H. inversion H as [? ? (ops & Hops & _)|? ? ? (ops & Hops & _) _];
    subst; apply elem_of_dom; eauto.
Qed.

(** A loaded sheet with a reference cycle has no evaluation: [evaluate]
    raises. *)
Lemma evaluate_cycle_raises (self : SpreadsheetEval) (cell : string) :
  loaded self → on_cycle (exprMap self) cell → ∃ e, evaluate self = Raise e.
Proof.
  intros (Hgrid & Hdisj & _ & _) Hcycle.
  pose proof (evaluate_total self) as Htotal.
  destruct (evaluate self) as [self'|e|] eqn:Heval; [|eauto|done].
  exfalso. unfold evaluate in Heval.
  destruct (evaluate_rows _ _ _ _ _) as [vm| |] eqn:H; simpl in Heval; [|done..].
  apply evaluate_rows_Ret in H as (_ & _ & Hst & Hcells).
  pose proof (on_cycle_has_expression _ _ Hcycle) as Hdom.
  apply (sn_not_on_cycle (references (exprMap self)) cell); [|done].
  apply Hst; [|by auto|done].
  intros c Hc Hc'. set_solver.
Qed.

(** ** Cell names are unique *)

Lemma pretty_N_char_decimal (x : N) : Py.isdecimal (pretty_N_char x) = true.
Proof. unfold pretty_N_char. by repeat case_match. Qed.

Lemma pretty_N_go_digits (x : N) (s : string) :
  ∃ pre : string, pretty_N_go x s = pre +:+ s
    ∧ Py.all Py.isdecimal pre = true ∧ ((0 < x)%N → pre ≠ "").
Proof.
  revert s. induction (N.lt_wf_0 x) as [x _ IH]; intros s.
  destruct (decide (0 < x)%N) as [Hpos|Hzero].
  - rewrite pretty_N_go_step by done.
    destruct (IH (x `div` 10)%N (N.div_lt x 10 Hpos eq_refl)
                 (String (pretty_N_char (x `mod` 10)) s)) as (pre & -> & Hpre & _).
    exists (pre +:+ String (pretty_N_char (x `mod` 10)) "").
    rewrite string_app_assoc. split; [done|]. split.
    + rewrite all_app, Hpre. simpl. by rewrite pretty_N_char_decimal.
    + intros _. by destruct pre.
  - assert (x = 0%N) as -> by lia. exists "". by rewrite pretty_N_go_0.
Qed.

(** [str] of an integer that is not negative is a non-empty text of
    decimal digits. *)
Lemma str_of_int_digits (n : Z) :
  0 ≤ n →
  Py.str_of_int n ≠ "" ∧ Py.all Py.isdecimal (Py.str_of_int n) = true.
Proof.
  intros Hn. unfold Py.str_of_int, pretty, pretty_Z.
  destruct n as [|p|p]; [done| |lia].
  unfold pretty, pretty_positive, pretty, pretty_N.
  case_decide; [done|].
  destruct (pretty_N_go_digits (N.pos p) "") as (pre & -> & Hpre & Hne).
  rewrite string_app_nil_r. split; [apply Hne; lia|done].
Qed.

Lemma AZ_upper_alpha c : is_AZ c = true → upper_alpha c = true.
Proof. by_cases_on_char c. Qed.

Lemma take_app_length (l d : string) : Py.take (String.length l) (l +:+ d) = l.
Proof.
  induction l as [|c l IH]; simpl.
  - by destruct d.
  - by rewrite IH.
Qed.

(** A text of upper-case letters followed by digits splits in one way. *)
Lemma letters_digits_inj (l1 d1 l2 d2 : string) :
  Py.all upper_alpha l1 = true → Py.all upper_alpha l2 = true →
  d1 ≠ "" → Py.all Py.isdecimal d1 = true →
  d2 ≠ "" → Py.all Py.isdecimal d2 = true →
  l1 +:+ d1 = l2 +:+ d2 → l1 = l2 ∧ d1 = d2.
Proof.
  intros Hl1 Hl2 Hn1 Hd1 Hn2 Hd2 Heq.
  destruct (colCount_letters_digits l1 d1) as [Hc1 Hs1]; [done..|].
  destruct (colCount_letters_digits l2 d2) as [Hc2 Hs2]; [done..|].
  rewrite Heq in Hc1, Hs1.
  assert (String.length l1 = String.length l2) as Hlen by congruence.
  split.
  - rewrite <-(take_app_length l1 d1), <-(take_app_length l2 d2). congruence.
  - rewrite <-Hs1, <-Hs2. congruence.
Qed.

Lemma getCellName_inj c1 r1 c2 r2 :
  0 ≤ c1 → 0 ≤ r1 → 0 ≤ c2 → 0 ≤ r2 →
  getCellName c1 r1 = getCellName c2 r2 → c1 = c2 ∧ r1 = r2.
Proof.
  intros Hc1 Hr1 Hc2 Hr2 Heq. unfold getCellName in Heq.
  destruct (str_of_int_digits (r1 + 1)) as [??]; [lia|].
  destruct (str_of_int_digits (r2 + 1)) as [??]; [lia|].
  apply letters_digits_inj in Heq as [Hcol Hrow]; try done.
  - split; [by apply indexToColForm_inj|].
    apply (inj pretty) in Hrow. lia.
  - eapply all_impl; [apply AZ_upper_alpha|apply indexToColForm_letters].
  - eapply all_impl; [apply AZ_upper_alpha|apply indexToColForm_letters].
Qed.

(** ** The loader *)

Lemma before_next_row rowIndex colIndex name :
  before rowIndex colIndex name → before (rowIndex + 1) 0 name.
Proof.
  intros (c & r & Hc & Hr & -> & Hlt). exists c, r. repeat split; try done. lia.
Qed.

Lemma before_next_column rowIndex colIndex name :
  before rowIndex colIndex name → before rowIndex (colIndex + 1) name.
Proof.
  intros (c & r & Hc & Hr & -> & Hlt). exists c, r. repeat split; try done. lia.
Qed.

Lemma not_before_self rowIndex colIndex :
  0 ≤ rowIndex → 0 ≤ colIndex →
  ¬ before rowIndex colIndex (getCellName colIndex rowIndex).
Proof.
  intros Hr Hc (c & r & Hc' & Hr' & Heq & Hlt).
  apply getCellName_inj in Heq as [-> ->]; lia.
Qed.

Lemma parse_cells_inv rowIndex colIndex cells rowCells self rowCells' self' :
  0 ≤ rowIndex → 0 ≤ colIndex →
  parse_cells rowIndex colIndex cells rowCells self = (rowCells', self') →
  parse_inv rowIndex colIndex (grid_cells (grid self) ++ rowCells) self →
  parse_inv rowIndex (colIndex + Z.of_nat (length cells))
            (grid_cells (grid self') ++ rowCells') self'
  ∧ grid self' = grid self
  ∧ maxCells self' = maxCells self
  ∧ maxTokensPerCell self' = maxTokensPerCell self.
Proof.
  intros Hrow. revert colIndex rowCells self.
  induction cells as [|expression cells IH]; intros colIndex rowCells self Hcol.
  { simpl. intros [= <- <-] Hinv. by rewrite Z.add_0_r. }
  intros Hparse (Hbefore & Hdisj & Hblank & Hseen & Hcover). simpl in Hparse.
  set (cell := getCellName colIndex rowIndex) in *.
  assert (cell ∉ dom (exprMap self) ∪ dom (valMap self)) as Hfresh.
  { intros Hin. by apply Hbefore, not_before_self in Hin. }
  rewrite length_cons.
  replace (colIndex + Z.of_nat (S (length cells)))
    with ((colIndex + 1) + Z.of_nat (length cells)) by lia.
  case_bool_decide as Hempty.
  - apply IH in Hparse; [exact Hparse|lia|]. unfold parse_inv. simpl.
    split; [|split; [|split; [|split]]].
    + intros k. rewrite dom_insert_L. intros Hk.
      destruct (decide (k = cell)) as [->|Hne].
      * exists colIndex, rowIndex. repeat split; try done. lia.
      * apply before_next_column, Hbefore. set_solver.
    + rewrite dom_insert_L. set_solver.
    + intros k v. rewrite lookup_insert. case_decide; [congruence|apply Hblank].
    + intros k Hk. apply Hseen in Hk. set_solver.
    + intros k. rewrite dom_insert_L, app_assoc, elem_of_app, list_elem_of_singleton.
      intros [Hk| ->]; [apply Hcover in Hk|]; set_solver.
  - apply IH in Hparse; [exact Hparse|lia|]. unfold parse_inv. simpl.
    split; [|split; [|split; [|split]]].
    + intros k. rewrite dom_insert_L. intros Hk.
      destruct (decide (k = cell)) as [->|Hne].
      * exists colIndex, rowIndex. repeat split; try done. lia.
      * apply before_next_column, Hbefore. set_solver.
    + rewrite dom_insert_L. set_solver.
    + done.
    + intros k. rewrite dom_insert_L, elem_of_union, elem_of_singleton.
      intros [->|Hk]; [set_solver|]. apply Hseen in Hk. set_solver.
    + intros k. rewrite dom_insert_L, app_assoc, elem_of_app, list_elem_of_singleton.
      intros [Hk| ->]; [apply Hcover in Hk|]; set_solver.
Qed.

Lemma parse_rows_inv rowIndex rows cellCount self self' :
  0 ≤ rowIndex →
  parse_rows rowIndex rows cellCount self = Ret self' →
  parse_inv rowIndex 0 (grid_cells (grid self)) self →
  ∃ n, parse_inv n 0 (grid_cells (grid self')) self'.
Proof.
  revert rowIndex cellCount self.
  induction rows as [|row rows IH]; intros rowIndex cellCount self Hrow; simpl.
  { intros [= <-] Hinv. eauto. }
  destruct (_ >? _); [done|].
  destruct (parse_cells _ _ _ _ _) as [rowCells self1] eqn:Hcells.
  intros Hparse Hinv.
  apply parse_cells_inv in Hcells as (Hinv1 & Hgrid & _); [|done|done|].
  2:{ by rewrite app_nil_r. }
  apply IH in Hparse; [done|lia|].
  destruct Hinv1 as (Hbefore & Hdisj & Hblank & Hseen & Hcover).
  assert (grid_cells (grid self1 ++ [rowCells])
          = grid_cells (grid self1) ++ rowCells) as Hcells.
  { unfold grid_cells. rewrite concat_app. simpl. by rewrite app_nil_r. }
  split; [|split; [|split; [|split]]]; simpl; try done.
  - intros k Hk. by eapply before_next_row, Hbefore.
  - intros k Hk. rewrite Hcells. by apply Hseen.
  - intros k. rewrite Hcells. apply Hcover.
Qed.

(** After a load every expression belongs to a cell of the grid, no cell
    with an expression has a value, every value is the empty marker, and
    every cell of the grid has an expression or a value. *)
Lemma parseInput_loaded (text : string) (self : SpreadsheetEval) :
  parseInput init text = Ret self → loaded self.
Proof.
  intros H. apply parse_rows_inv in H as [n (_ & Hdisj & Hblank & Hseen & Hcover)].
  - split; [done|]. split; [done|]. split; [|done].
    intros cell v Hv _. by eapply Hblank.
  - done.
  - split; [|split; [|split; [|split]]]; simpl.
    + intros k. rewrite !dom_empty_L. set_solver.
    + rewrite !dom_empty_L. set_solver.
    + intros k v. by rewrite lookup_empty.
    + intros k. rewrite dom_empty_L. set_solver.
    + intros k Hk. by apply elem_of_nil in Hk.
Qed.

(** ** Circular references *)


(** ** Memoization *)

Lemma evaluateDFS_keeps limit exprs fuel c st w st' cell v :
  evaluateDFS limit exprs fuel c st = Ret (w, st') →
  st.2 !! cell = Some v → st'.2 !! cell = Some v.
Proof.
  intros H Hv. apply evaluateDFS_evolves in H as (_ & Hsub & _).
  by eapply lookup_weaken.
Qed.

(** C5. Once the Value Map has an entry for a cell, a resolve of the
    cell returns the stored value at once and leaves the store as it is,
    whatever the expressions are; no later resolve of any cell changes
    the entry, so the cell resolves to the same value afterwards; a
    reference token to the cell pushes the stored value; and a cell with
    an expression that resolves has its value stored. *)
Theorem memoization :
  (∀ limit exprs cell v valMap,
     valMap !! cell = Some v →
     (∀ fuel visiting,
        evaluateDFS limit exprs (S fuel) cell (visiting, valMap)
        = Ret (v, (visiting, valMap)))
     ∧ (∀ fuel c visiting w st',
          evaluateDFS limit exprs fuel c (visiting, valMap) = Ret (w, st') →
          st'.2 !! cell = Some v
          ∧ ∀ fuel' visiting',
              evaluateDFS limit exprs (S fuel') cell (visiting', st'.2)
              = Ret (v, (visiting', st'.2)))
     ∧ (∀ fuel c ops todo queue visiting,
          Z.of_nat (length ops) ≤ limit → is_reference cell →
          tokenLoop limit (evaluateDFS limit exprs (S fuel)) c ops
                    (cell :: todo) queue (visiting, valMap)
          = tokenLoop limit (evaluateDFS limit exprs (S fuel)) c ops
                      todo (queue ++ [v]) (visiting, valMap)))
  ∧ (∀ limit exprs fuel cell st v st',
       evaluateDFS limit exprs fuel cell st = Ret (v, st') →
       is_Some (exprs !! cell) → st'.2 !! cell = Some v).
Proof.
  split; [|intros; by eapply evaluateDFS_records].
  intros limit exprs cell v valMap Hv. split; [|split].
  - intros. by apply evaluateDFS_memo.
  - intros fuel c visiting w st' H.
    assert (st'.2 !! cell = Some v) as Hv' by by eapply evaluateDFS_keeps.
    split; [done|]. intros. by apply evaluateDFS_memo.
  - intros fuel c ops todo queue visiting Hlen Href.
    rewrite tokenLoop_reference by done.
    by rewrite (evaluateDFS_memo _ _ _ _ _ _ v).
Qed.

Lemma memoization_witness :
  evaluateDFS 100 ∅ 1 "A1" (∅, {["A1" := PyFloat (S754_zero false)]})
  = Ret (PyFloat (S754_zero false),
         (∅, {["A1" := PyFloat (S754_zero false)]})).
Proof.
  apply (proj1 memoization 100 ∅ "A1" (PyFloat (S754_zero false))
           {["A1" := PyFloat (S754_zero false)]}).
  reflexivity.
Defined.

(** ** Empty cells *)

Lemma evaluateDFS_blanks_empty limit exprs fuel cell st v st' :
  evaluateDFS limit exprs fuel cell st = Ret (v, st') →
  blanks_empty exprs st.2 → blanks_empty exprs st'.2.
Proof.
  intros H Hblank. apply evaluateDFS_evolves in H as (_ & Hsub & Hnew).
  intros k w Hk Hexpr.
  destruct (Hnew k) as [Hold|[Hdom _]].
  - apply elem_of_dom. eauto.
  - apply elem_of_dom in Hold as [w' Hw'].
    rewrite (lookup_weaken _ _ _ _ Hw' Hsub) in Hk. injection Hk as <-. eauto.
  - apply elem_of_dom in Hdom as [??]. congruence.
Qed.

Lemma evaluateDFS_empty_cell limit exprs fuel cell visiting valMap :
  exprs !! cell = None → blanks_empty exprs valMap → visiting ⊆ dom exprs →
  evaluateDFS limit exprs (S fuel) cell (visiting, valMap)
  = Ret (PyStr "", (visiting, valMap)).
Proof.
  intros Hexpr Hblank Hvis.
  destruct (valMap !! cell) as [v|] eqn:Hv.
  - rewrite (evaluateDFS_memo _ _ _ _ _ _ v) by done.
    by rewrite (Hblank cell v).
  - apply evaluateDFS_blank; [done| |done].
    intros Hin. apply Hvis, elem_of_dom in Hin as [??]. congruence.
Qed.

(** C6, as the code has it. A cell without an entry in the Expression
    Map resolves to the empty marker and the store stays as it was
    (nothing is recorded); a reference token to such a cell pushes the
    empty marker and the loop goes on; and the input ",\nA1" is written
    as two lines, "," and the empty line of the second row: the text
    ",\n\n". *)
Theorem empty_cell_resolves_empty :
  (∀ limit exprs fuel cell visiting valMap,
     exprs !! cell = None → blanks_empty exprs valMap → visiting ⊆ dom exprs →
     evaluateDFS limit exprs (S fuel) cell (visiting, valMap)
     = Ret (PyStr "", (visiting, valMap))
     ∧ (∀ c ops todo queue,
          Z.of_nat (length ops) ≤ limit → is_reference cell →
          tokenLoop limit (evaluateDFS limit exprs (S fuel)) c ops
                    (cell :: todo) queue (visiting, valMap)
          = tokenLoop limit (evaluateDFS limit exprs (S fuel)) c ops
                      todo (queue ++ [PyStr ""]) (visiting, valMap)))
  ∧ main ("," +:+ nl +:+ "A1") = Ret ("," +:+ nl +:+ nl).
Proof.
  split; [|vm_compute; reflexivity].
  intros limit exprs fuel cell visiting valMap Hexpr Hblank Hvis.
  split; [by apply evaluateDFS_empty_cell|].
  intros c ops todo queue Hlen Href.
  rewrite tokenLoop_reference by done.
  by rewrite evaluateDFS_empty_cell.
Qed.

Lemma empty_cell_resolves_empty_witness :
  evaluateDFS 100 {["A2" := ["A1"]]} 1 "A1" ({["A2"]}, {["A1" := PyStr ""]})
  = Ret (PyStr "", ({["A2"]}, {["A1" := PyStr ""]})).
Proof.
  apply (proj1 empty_cell_resolves_empty).
  - reflexivity.
  - intros cell v [_ <-]%lookup_singleton_Some _. reflexivity.
  - rewrite dom_singleton_L. reflexivity.
Defined.

(** C6 as claimed fails: the output of the input ",\nA1" is not ",\n".
    The second row has one cell, which is written as an empty line of
    its own. *)
Lemma empty_reference_writes_a_second_line :
  main ("," +:+ nl +:+ "A1") = Ret ("," +:+ nl +:+ nl)
  ∧ main ("," +:+ nl +:+ "A1") ≠ Ret ("," +:+ nl).
Proof. split; [vm_compute; reflexivity|]. vm_compute. discriminate. Qed.

(** ** The token limit *)

Lemma tokenLoop_within_limit limit resolve cell ops :
  Z.of_nat (length ops) ≤ limit →
  ∀ todo queue st,
    tokenLoop limit resolve cell ops todo queue st
    = spec_tokenLoop resolve cell todo queue st.
Proof.
  intros Hlen todo. induction todo as [|op todo IH]; intros queue st; [done|].
  simpl. destruct (Z.gtb_spec (Z.of_nat (length ops)) limit) as [Hgt|_]; [lia|].
  destruct (is_operator op).
  { destruct (_ <? _); [done|]. destruct (calculate _ _ _); simpl; auto. }
  destruct (isCellReference op) as [isref| |]; simpl; [|done..].
  destruct (truthy isref).
  - destruct (resolve op st) as [[val st1]| |]; simpl; auto.
  - destruct (match_number op); [|done]. destruct (Py.float op); auto.
Qed.

(** The loop of the code, with its check at every token, is the
    interpretation of the specification, which checks once at the start. *)
Lemma tokenLoop_checks_once limit resolve cell ops st :
  0 ≤ limit →
  tokenLoop limit resolve cell ops ops [] st
  = spec_interpret limit resolve cell ops st.
Proof.
  intros Hlimit. unfold spec_interpret.
  destruct (Z.gtb_spec (Z.of_nat (length ops)) limit) as [Hgt|Hle].
  - destruct ops as [|op ops]; [simpl in Hgt; lia|].
    by apply tokenLoop_too_long.
  - by apply tokenLoop_within_limit.
Qed.

(** C7. A cell with more tokens than the limit fails with the
    too-many-tokens error, which names the cell and the limit, whatever
    its tokens are; the loop behaves as one check before the first token
    followed by the interpretation; and a cell of 500 tokens "1" fails
    with "Expression too long in A1 - max of 100 tokens in a cell". *)
Theorem too_many_tokens :
  (∀ limit exprs fuel cell ops visiting valMap,
     0 ≤ limit → limit < Z.of_nat (length ops) →
     exprs !! cell = Some ops → valMap !! cell = None → cell ∉ visiting →
     evaluateDFS limit exprs (S fuel) cell (visiting, valMap)
     = Raise (Exception ("Expression too long in " +:+ cell +:+ " - max of "
                         +:+ Py.str_of_int limit +:+ " tokens in a cell")))
  ∧ (∀ limit resolve cell ops st,
       0 ≤ limit →
       tokenLoop limit resolve cell ops ops [] st
       = spec_interpret limit resolve cell ops st)
  ∧ main (Py.join " " (replicate 500 "1"))
    = Raise (Exception "Expression too long in A1 - max of 100 tokens in a cell").
Proof.
  split; [|split].
  - intros limit exprs fuel cell ops visiting valMap Hlimit Hlen Hops Hmemo Hvis.
    simpl. rewrite Hmemo, Hops. rewrite bool_decide_false by done.
    destruct ops as [|op ops]; [simpl in Hlen; lia|].
    by rewrite tokenLoop_too_long.
  - intros. by apply tokenLoop_checks_once.
  - vm_compute. reflexivity.
Qed.

Lemma too_many_tokens_witness :
  evaluateDFS 2 {["A1" := ["1"; "&"; "+"]]} 1 "A1" (∅, ∅)
  = Raise (Exception "Expression too long in A1 - max of 2 tokens in a cell").
Proof.
  apply (proj1 too_many_tokens 2 {["A1" := ["1"; "&"; "+"]]} 0%nat "A1"
           ["1"; "&"; "+"] ∅ ∅); [lia|simpl; lia|reflexivity|reflexivity|].
  apply not_elem_of_empty.
Defined.

(** ** Numerals *)

Lemma all_rev_app p (s t : string) :
  Py.all p (String.rev_app s t) = Py.all p s && Py.all p t.
Proof.
  revert t. induction s as [|c s IH]; intros t; simpl; [done|].
  rewrite IH. simpl. by destruct (p c), (Py.all p s), (Py.all p t).
Qed.

Lemma rev_app_rev_app (s t u : string) :
  String.rev_app (String.rev_app s t) u = String.rev_app t (s +:+ u).
Proof.
  revert t. induction s as [|c s IH]; intros t; simpl; [done|].
  by rewrite IH.
Qed.

Lemma rev_involutive (s : string) : String.rev (String.rev s) = s.
Proof.
  unfold String.rev. rewrite rev_app_rev_app. simpl. apply string_app_nil_r.
Qed.

Lemma lstrip_no_space (s : string) :
  Py.all (λ c, negb (Py.isspace c)) s = true → Py.lstrip s = s.
Proof.
  destruct s as [|c s]; simpl; [done|].
  by destruct (Py.isspace c).
Qed.

(** A text without white space is its own [strip]. *)
Lemma strip_no_space (s : string) :
  Py.all (λ c, negb (Py.isspace c)) s = true → Py.strip s = s.
Proof.
  intros Hs. unfold Py.strip, Py.rstrip.
  rewrite (lstrip_no_space s) by done.
  rewrite lstrip_no_space; [apply rev_involutive|].
  unfold String.rev. rewrite all_rev_app, Hs. done.
Qed.

Lemma span_spec p (s pre rest : string) :
  Py.span p s = (pre, rest) →
  s = pre +:+ rest ∧ Py.all p pre = true
  ∧ (rest = "" ∨ ∃ c r, rest = String c r ∧ p c = false).
Proof.
  revert pre rest. induction s as [|c s IH]; intros pre rest; simpl.
  { intros [= <- <-]. auto. }
  destruct (p c) eqn:Hc.
  - destruct (Py.span p s) as [pre' rest'].
    intros [= <- <-]. destruct (IH _ _ eq_refl) as (-> & Hpre & Hrest).
    simpl. by rewrite Hc, Hpre.
  - intros [= <- <-]. split; [done|]. split; [done|]. right. eauto.
Qed.

Lemma span_app p (pre rest : string) :
  Py.all p pre = true →
  (rest = "" ∨ ∃ c r, rest = String c r ∧ p c = false) →
  Py.span p (pre +:+ rest) = (pre, rest).
Proof.
  intros Hpre Hrest. induction pre as [|c pre IH]; simpl in *.
  - destruct Hrest as [->|(c & r & -> & Hc)]; simpl; [done|]. by rewrite Hc.
  - apply andb_true_iff in Hpre as [Hc Hpre]. by rewrite Hc, IH.
Qed.

Lemma split_sign_spec (t : string) :
  ∃ sign, is_sign sign ∧ t = sign +:+ (Py.split_sign t).2.
Proof.
  destruct t as [|c t]; [exists ""; split; [by left|done]|].
  destruct (decide (c = "+"%char)) as [->|Hplus].
  { exists "+". split; [right; by left|done]. }
  destruct (decide (c = "-"%char)) as [->|Hminus].
  { exists "-". split; [right; by right|done]. }
  exists "". split; [by left|].
  by_cases_on_char c.
Qed.

Lemma split_sign_unsigned c (t : string) :
  c ≠ "+"%char → c ≠ "-"%char →
  Py.split_sign (String c t) = (false, String c t).
Proof. intros Hplus Hminus. by_cases_on_char c. Qed.

(** The text after the sign of a numeral, whatever the sign is. *)
Lemma split_sign_numeral (sign ip frac : string) :
  is_sign sign → Py.all Py.isdecimal ip = true →
  (frac = "" ∨ ∃ fp, frac = "." +:+ fp) →
  sign = "" ∧ ip = "" ∧ frac = "" ∨
  (Py.split_sign (sign +:+ ip +:+ frac)).2 = ip +:+ frac.
Proof.
  intros [->|[->| ->]] Hip Hfrac; [|by right|by right].
  destruct ip as [|c ip].
  - destruct Hfrac as [->|[fp ->]]; [by left|by right].
  - right. simpl in Hip. apply andb_true_iff in Hip as [Hc _].
    change ("" +:+ String c ip +:+ frac) with (String c (ip +:+ frac)).
    rewrite split_sign_unsigned; [done|..]; intros ->; discriminate Hc.
Qed.

Lemma at_end_loader (s t : string) :
  Py.all (λ c, negb (Py.isspace c)) (s +:+ t) = true →
  at_end t = true → t = "".
Proof.
  rewrite all_app, andb_true_iff. intros [_ Ht].
  unfold at_end. rewrite orb_true_iff, !bool_decide_eq_true.
  intros [->| ->]; [done|discriminate Ht].
Qed.

(** On the tokens of the loader the regular expression accepts exactly
    the numerals. *)
Lemma match_number_numeral (op : string) :
  loader_token op → match_number op = true ↔ numeral op.
Proof.
  intros [Hne Hspace]. unfold match_number. split.
  - destruct (split_sign_spec op) as (sign & Hsign & Hop).
    destruct (Py.span Py.isdecimal (Py.split_sign op).2) as [ip rest] eqn:Hspan.
    apply span_spec in Hspan as (Hbody & Hip & _).
    rewrite Hbody in Hop. intros Hmatch.
    exists sign, ip, rest. do 3 (split; [done|]).
    destruct rest as [|c r].
    { by left. }
    destruct (decide (c = "."%char)) as [->|Hc].
    + destruct (Py.span Py.isdecimal r) as [fp rest'] eqn:Hspan'.
      apply span_spec in Hspan' as (Hr & Hfp & _).
      apply andb_true_iff in Hmatch as [Hfpne Hend].
      rewrite negb_true_iff, bool_decide_eq_false in Hfpne.
      right. exists fp. split; [|done].
      rewrite Hr. rewrite Hop, Hr in Hspace.
      replace (sign +:+ ip +:+ String "." (fp +:+ rest'))
        with ((sign +:+ ip +:+ String "." fp) +:+ rest') in Hspace.
      * apply at_end_loader in Hspace as ->; [|done].
        by rewrite string_app_nil_r.
      * rewrite !string_app_assoc. by rewrite string_app_cons.
    + assert (at_end (String c r) = true) as Hend.
      { revert Hmatch. clear -Hc. by_cases_on_char c. }
      rewrite Hop, <-string_app_assoc in Hspace.
      by apply at_end_loader in Hspace.
  - intros (sign & ip & frac & -> & Hsign & Hip & Hfrac).
    destruct (split_sign_numeral sign ip frac) as [(-> & -> & ->)| ->];
      [done|done|naive_solver|done|].
    rewrite span_app; [|done|].
    2:{ destruct Hfrac as [->|(fp & -> & _)]; [by left|right; eauto]. }
    destruct Hfrac as [->|(fp & -> & Hfpne & Hfp)]; [done|].
    rewrite string_app_cons. simpl.
    pose proof (span_app Py.isdecimal fp "" Hfp (or_introl eq_refl)) as Hspan.
    rewrite string_app_nil_r in Hspan.
    change ("" +:+ fp) with fp. rewrite Hspan.
    by rewrite bool_decide_false.
Qed.

(** [float] reads every numeral that is more than a sign. *)
Lemma float_numeral (op : string) :
  loader_token op → is_operator op = false → numeral op →
  ∃ f, Py.float op = Ret f.
Proof.
  intros [Hne Hspace] Hop (sign & ip & frac & -> & Hsign & Hip & Hfrac).
  unfold Py.float. rewrite strip_no_space by done.
  destruct (Py.split_sign _) as [neg body] eqn:Hsplit.
  destruct (split_sign_numeral sign ip frac) as [(-> & -> & ->)|Hbody];
    [done|done|naive_solver|done|].
  rewrite Hsplit in Hbody. simpl in Hbody. subst body.
  rewrite span_app; [|done|].
  2:{ destruct Hfrac as [->|(fp & -> & _)]; [by left|right; eauto]. }
  destruct Hfrac as [->|(fp & -> & Hfpne & Hfp)].
  - case_bool_decide as Hempty; [|eauto].
    destruct Hempty as [-> _]. exfalso.
    destruct Hsign as [->|[->| ->]]; [done|discriminate Hop..].
  - rewrite string_app_cons. change ("" +:+ fp) with fp. rewrite Hfp.
    case_bool_decide as Hempty; [|eauto]. by destruct Hempty.
Qed.

(** A numeral is no cell reference. *)
Lemma numeral_not_reference (op : string) :
  numeral op → isCellReference op = Ret (BoolVal false).
Proof.
  intros (sign & ip & frac & -> & Hsign & Hip & Hfrac).
  unfold isCellReference. case_bool_decide as Hne; [done|].
  rewrite bool_decide_true; [done|].
  destruct Hsign as [->|[->| ->]]; [|done..].
  change ("" +:+ ip +:+ frac) with (ip +:+ frac) in *.
  destruct ip as [|d ip].
  - destruct Hfrac as [->|(fp & -> & _)]; done.
  - simpl in Hip. apply andb_true_iff in Hip as [Hd _].
    simpl. by rewrite (decimal_not_upper_alpha d).
Qed.







(** ** Whole runs *)

Lemma parse_rows_total rowIndex rows cellCount self :
  parse_rows rowIndex rows cellCount self ≠ OutOfFuel.
Proof.
  revert rowIndex cellCount self.
  induction rows as [|row rows IH]; intros rowIndex cellCount self; simpl;
    [done|].
  destruct (_ >? _); [done|]. destruct (parse_cells _ _ _ _ _). apply IH.
Qed.

Lemma write_cells_total self row : write_cells self row ≠ OutOfFuel.
Proof.
  induction row as [|cell row IH]; simpl; [done|].
  destruct (valMap self !! cell); [|done].
  by destruct (write_cells self row).
Qed.

Lemma write_rows_total self rows out : write_rows self rows out ≠ OutOfFuel.
Proof.
  revert out. induction rows as [|row rows IH]; intros out; simpl; [done|].
  pose proof (write_cells_total self row).
  destruct (write_cells self row); simpl; [apply IH|done..].
Qed.

(** A run returns the text of the output file or raises: the fuel of
    [evaluate] never runs out. *)
Lemma main_total (text : string) : main text ≠ OutOfFuel.
Proof.
  unfold main. pose proof (parse_rows_total 0 (Py.readlines text) 0 init).
  unfold parseInput.
  destruct (parse_rows _ _ _ _) as [self| |]; simpl; [|done..].
  pose proof (evaluate_total self).
  destruct (evaluate self) as [self'| |]; simpl; [|done..].
  apply write_rows_total.
Qed.

(** What [calculate] does once it is handed two floats: the difference
    in operand order, and the division-by-zero error. *)
Lemma calculate_floats :
  (∃ three two one,
     Py.float "3" = Ret three ∧ Py.float "2" = Ret two ∧ Py.float "1.0" = Ret one
     ∧ calculate (PyFloat three) (PyFloat two) "-" = Ret (PyFloat one))
  ∧ (∃ one zero,
       Py.float "1" = Ret one ∧ Py.float "0" = Ret zero
       ∧ calculate (PyFloat one) (PyFloat zero) "/"
         = Raise (Exception "Division by zero")).
Proof. split; repeat eexists; vm_compute; reflexivity. Qed.

(** The sheets of the test suite that have no operator are evaluated and
    written as the tests expect. *)
Lemma operator_free_scenarios :
  main (",1.0" +:+ nl +:+ "2,") = Ret (",1.0" +:+ nl +:+ "2.0," +:+ nl)
  ∧ main ("," +:+ nl +:+ "A1") = Ret ("," +:+ nl +:+ nl)
  ∧ main ("7" +:+ nl +:+ "A1,A1") = Ret ("7.0" +:+ nl +:+ "7.0,7.0" +:+ nl)
  ∧ main "2 3 & +" = Raise (Exception "Invalid token '&' in A1")
  ∧ main "-" = Raise (Exception "Need at least 1 operand for - in A1").
Proof. repeat split; vm_compute; reflexivity. Qed.

(** ** Circular-reference reports are sound *)

Section CircularReports.

Variable limit : Z.
Variable exprs : gmap string (list string).

Local Abbreviation circular x := (Exception ("Circular reference at " +:+ x)).

(** The loop raises the circular-reference error only if a call of
    [resolve] on one of its reference tokens does. *)
Lemma tokenLoop_circular resolve cell ops visiting x :
  (∀ c st v st', resolve c st = Ret (v, st') → st'.1 = st.1) →
  ∀ todo queue vm,
    tokenLoop limit resolve cell ops todo queue (visiting, vm) = Raise (circular x) →
    ∃ op vm', op ∈ todo ∧ is_reference op
              ∧ resolve op (visiting, vm') = Raise (circular x).
Proof.
  intros Hvis todo. induction todo as [|op todo IH]; intros queue vm; [done|].
  simpl. destruct (Z.of_nat (length ops) >? limit); [done|].
  destruct (is_operator op) eqn:Hop.
  { destruct (Z.of_nat (length queue) <? 2); [done|].
    by rewrite calculate_operands. }
  destruct (isCellReference op) as [v| |] eqn:Hv; simpl; [| |done].
  2:{ intros [= ->]. unfold isCellReference in Hv.
      repeat (case_bool_decide; [done|]).
      destruct (negb _); [done|].
      unfold Py.int in Hv. by repeat case_match. }
  destruct (truthy v) eqn:Ht.
  - destruct (resolve op (visiting, vm)) as [[val [vis1 vm1]]| |] eqn:Hres;
      simpl; [| |done].
    + apply Hvis in Hres. simpl in Hres. subst vis1.
      intros H. apply IH in H as (op' & vm' & Hin & Href & H).
      exists op', vm'. split; [by right|done].
    + intros [= ->]. exists op, vm. split; [by left|]. split; [by exists v|done].
  - destruct (match_number op); [|done].
    destruct (Py.float op); [|done..].
    intros H. apply IH in H as (op' & vm' & Hin & Href & H).
    exists op', vm'. split; [by right|done].
Qed.

(** When the cells being visited all lead to [cell] along references, a
    circular-reference error names a cell that lies on a cycle. *)
Lemma evaluateDFS_circular fuel cell visiting valMap x :
  (∀ k, k ∈ visiting →
        is_Some (exprs !! k)
        ∧ (is_Some (exprs !! cell) → tc (references exprs) k cell)) →
  evaluateDFS limit exprs fuel cell (visiting, valMap) = Raise (circular x) →
  on_cycle exprs x.
Proof.
  revert cell visiting valMap. induction fuel as [|fuel IH]; [done|].
  intros cell visiting valMap Hpath. simpl.
  destruct (valMap !! cell); [done|].
  case_bool_decide as Hin.
  { intros [= Heq]. apply (inj (String.app _)) in Heq as <-.
    destruct (Hpath cell Hin) as [Hexpr Htc]. by apply Htc. }
  destruct (exprs !! cell) as [ops|] eqn:Hops; [|done].
  destruct (tokenLoop _ _ _ _ _ _ _) as [[queue [vis' vm']]| |] eqn:Hloop;
    simpl; [| |done].
  { destruct queue as [|r [|??]]; [done| |done]. by case_bool_decide. }
  intros [= ->].
  apply tokenLoop_circular in Hloop as (op & vm' & Hop & Href & Hres).
  2:{ intros c st v st' H. by apply evaluateDFS_evolves in H as [? _]. }
  apply IH in Hres; [done|].
  intros k. rewrite elem_of_union, elem_of_singleton.
  assert (is_Some (exprs !! op) → references exprs cell op) as Hedge.
  { intros Hsome. by exists ops. }
  intros [->|Hk].
  - split; [by eexists|]. intros Hsome. by apply tc_once, Hedge.
  - destruct (Hpath k Hk) as [Hexpr Htc]. split; [done|].
    intros Hsome. eapply tc_r; [apply Htc; by eexists|by apply Hedge].
Qed.

Lemma evaluate_row_circular fuel row valMap x :
  evaluate_row limit exprs fuel row valMap = Raise (circular x) →
  on_cycle exprs x.
Proof.
  revert valMap. induction row as [|cell row IH]; intros valMap; simpl; [done|].
  destruct (exprs !! cell); [|apply IH].
  destruct (evaluateDFS _ _ _ _ _) as [[v [vis vm1]]| |] eqn:Hdfs;
    simpl; [apply IH| |done].
  intros [= ->]. apply evaluateDFS_circular in Hdfs; [done|].
  intros k Hk. by apply not_elem_of_empty in Hk.
Qed.

Lemma evaluate_rows_circular fuel g valMap x :
  evaluate_rows limit exprs fuel g valMap = Raise (circular x) →
  on_cycle exprs x.
Proof.
  revert valMap. induction g as [|row g IH]; intros valMap; simpl; [done|].
  destruct (evaluate_row _ _ _ _ _) as [vm1| |] eqn:Hrow; simpl; [apply IH| |done].
  intros [= ->]. by apply evaluate_row_circular in Hrow.
Qed.

End CircularReports.

Lemma write_cells_raises self row e :
  write_cells self row = Raise e → ∃ key, e = KeyError key.
Proof.
  induction row as [|cell row IH]; simpl; [done|].
  destruct (valMap self !! cell); [|intros [= <-]; eauto].
  destruct (write_cells self row); simpl; [done| |done].
  intros [= <-]. by apply IH.
Qed.

(** The writer can only fail on a grid cell that has no value. *)
Lemma write_rows_raises self rows out e :
  write_rows self rows out = Raise e → ∃ key, e = KeyError key.
Proof.
  revert out. induction rows as [|row rows IH]; intros out; simpl; [done|].
  destruct (write_cells self row) eqn:Hrow; simpl; [apply IH| |done].
  intros [= <-]. by eapply write_cells_raises.
Qed.

(** A run that reports a circular reference names a cell that lies on a
    cycle of the reference graph. *)
Lemma main_circular (text : string) (self : SpreadsheetEval) (x : string) :
  parseInput init text = Ret self →
  main text = Raise (Exception ("Circular reference at " +:+ x)) →
  on_cycle (exprMap self) x.
Proof.
  intros Hparse. unfold main. rewrite Hparse. simpl. unfold evaluate.
  destruct (evaluate_rows _ _ _ _ _) as [vm| |] eqn:Heval; simpl; [| |done].
  - intros H. by apply write_rows_raises in H as [key ?].
  - intros [= ->]. by apply evaluate_rows_circular in Heval.
Qed.

(** ** What a run can compute *)

(** A cell whose tokens were interpreted to a value has exactly one
    token, a reference or a numeral: no expression with an operator is
    ever evaluated. *)
Lemma evaluated_cell_single_token limit exprs fuel cell visiting valMap v st' ops :
  valMap !! cell = None → exprs !! cell = Some ops →
  evaluateDFS limit exprs fuel cell (visiting, valMap) = Ret (v, st') →
  ∃ op, ops = [op] ∧ is_operator op = false.
Proof.
  intros Hmemo Hops H. destruct fuel as [|fuel]; [done|].
  apply evaluateDFS_Ret in H
    as [[? _]|[(_ & _ & ? & _)|(_ & _ & ops' & vis' & vm' & Hops' & Hloop & _)]];
    [congruence..|].
  rewrite Hops in Hops'. injection Hops' as <-.
  pose proof (tokenLoop_Ret_length _ _ _ _ _ _ _ _ _ Hloop) as Hlen.
  destruct ops as [|op [|??]]; simpl in Hlen; [lia| |lia].
  exists op. split; [done|].
  apply tokenLoop_cons_Ret in Hloop as [_ [(Href & _)|(Hnref & f & Hf & _)]].
  - by apply is_reference_not_operator.
  - destruct (is_operator op) eqn:Hop; [|done].
    unfold is_operator in Hop. rewrite bool_decide_eq_true in Hop.
    rewrite !elem_of_cons, elem_of_nil in Hop.
    destruct Hop as [->|[->|[->|[->|[]]]]]; discriminate Hf.
Qed.

Lemma write_cells_Ret self row :
  (∀ cell, cell ∈ row → is_Some (valMap self !! cell)) →
  ∃ cells, write_cells self row = Ret cells.
Proof.
  induction row as [|cell row IH]; intros Hrow; simpl; [eauto|].
  destruct (Hrow cell) as [v ->]; [by left|].
  destruct IH as [cells ->]; [|simpl; eauto].
  intros c Hc. apply Hrow. by right.
Qed.

Lemma write_rows_Ret self rows out :
  (∀ cell, cell ∈ grid_cells rows → is_Some (valMap self !! cell)) →
  ∃ out', write_rows self rows out = Ret out'.
Proof.
  revert out. induction rows as [|row rows IH]; intros out Hrows; simpl; [eauto|].
  destruct (write_cells_Ret self row) as [cells ->].
  { intros c Hc. apply Hrows. unfold grid_cells. simpl. apply elem_of_app. by left. }
  simpl. apply IH. intros c Hc. apply Hrows.
  unfold grid_cells. simpl. apply elem_of_app. by right.
Qed.

(** When the evaluation of a loaded sheet returns, every cell of the grid
    has a value and the output is written: the writer finds no cell
    without a value. *)
Lemma main_writes (text : string) (self self' : SpreadsheetEval) :
  parseInput init text = Ret self → evaluate self = Ret self' →
  (∀ cell, cell ∈ grid_cells (grid self) → is_Some (valMap self' !! cell))
  ∧ ∃ out, main text = Ret out.
Proof.
  intros Hparse Heval.
  pose proof (parseInput_loaded _ _ Hparse) as (_ & _ & _ & Hcover).
  assert (∀ cell, cell ∈ grid_cells (grid self) →
                  is_Some (valMap self' !! cell)) as Hall.
  { unfold evaluate in Heval.
    destruct (evaluate_rows _ _ _ _ _) as [vm| |] eqn:Hrows; simpl in Heval;
      [|done..].
    injection Heval as <-. simpl.
    apply evaluate_rows_Ret in Hrows as (Hsub & _ & _ & Hcells).
    intros cell Hin. apply elem_of_dom.
    pose proof (Hcover cell Hin) as Hc.
    apply elem_of_union in Hc as [Hexpr|Hval].
    - by apply Hcells.
    - by apply (subseteq_dom _ _ Hsub). }
  split; [done|].
  unfold main. rewrite Hparse. simpl. rewrite Heval. simpl.
  apply write_rows_Ret.
  replace (grid self') with (grid self); [done|].
  unfold evaluate in Heval.
  destruct (evaluate_rows _ _ _ _ _); simpl in Heval; [|done..].
  by injection Heval as <-.
Qed.

(** ** The values of cells *)

Section PlainValues.

Variable limit : Z.
Variable exprs : gmap string (list string).

Local Abbreviation all_plain vm := (map_Forall (λ (_ : string) v, plain v) vm).

Lemma tokenLoop_plain resolve cell ops :
  (∀ c st v st', resolve c st = Ret (v, st') →
     all_plain st.2 → plain v ∧ all_plain st'.2) →
  ∀ todo queue st queue' st',
    tokenLoop limit resolve cell ops todo queue st = Ret (queue', st') →
    Forall plain queue → all_plain st.2 →
    Forall plain queue' ∧ all_plain st'.2.
Proof.
  intros Hres todo.
  induction todo as [|op todo IH]; intros queue st queue' st' H Hq Hst.
  { by injection H as <- <-. }
  apply tokenLoop_cons_Ret in H as [_ H].
  destruct H as [(_ & val & st1 & H1 & H2)|(_ & f & _ & H2)].
  - destruct (Hres _ _ _ _ H1 Hst) as [Hval Hst1].
    apply (IH _ _ _ _ H2); [|done].
    apply Forall_app. split; [done|]. by apply Forall_singleton.
  - apply (IH _ _ _ _ H2); [|done].
    apply Forall_app. split; [done|]. by apply Forall_singleton.
Qed.

(** [evaluateDFS] returns floats and texts, and stores nothing else. *)
Lemma evaluateDFS_plain fuel cell st v st' :
  evaluateDFS limit exprs fuel cell st = Ret (v, st') →
  all_plain st.2 → plain v ∧ all_plain st'.2.
Proof.
  revert cell st v st'. induction fuel as [|fuel IH]; [done|].
  intros cell [visiting valMap] v st' H Hst. simpl in Hst.
  apply evaluateDFS_Ret in H
    as [[Hv ->]|[(_ & _ & _ & -> & ->)|(_ & _ & ops & vis' & vm' & _ & Hloop & _ & ->)]].
  - split; [|done]. by apply (Hst cell).
  - done.
  - apply tokenLoop_plain in Hloop as [Hq Hvm];
      [|exact IH|by apply Forall_nil|exact Hst].
    rewrite Forall_singleton in Hq. split; [exact Hq|].
    simpl. by apply map_Forall_insert_2.
Qed.

Lemma evaluate_row_plain fuel row valMap valMap' :
  evaluate_row limit exprs fuel row valMap = Ret valMap' →
  all_plain valMap → all_plain valMap'.
Proof.
  revert valMap. induction row as [|cell row IH]; intros valMap; simpl.
  { by intros [= <-]. }
  destruct (exprs !! cell); [|apply IH].
  destruct (evaluateDFS _ _ _ _ _) as [[v [vis vm1]]| |] eqn:Hdfs; simpl; [|done..].
  intros H Hvm. apply (IH _ H). by apply evaluateDFS_plain in Hdfs as [_ ?].
Qed.

Lemma evaluate_rows_plain fuel g valMap valMap' :
  evaluate_rows limit exprs fuel g valMap = Ret valMap' →
  all_plain valMap → all_plain valMap'.
Proof.
  revert valMap. induction g as [|row g IH]; intros valMap; simpl.
  { by intros [= <-]. }
  destruct (evaluate_row _ _ _ _ _) as [vm1| |] eqn:Hrow; simpl; [|done..].
  intros H Hvm. apply (IH _ H). by eapply evaluate_row_plain.
Qed.

End PlainValues.

(** After the evaluation of a loaded sheet every value is a float or a
    text: the writer prints nothing else. *)
Lemma evaluate_plain (text : string) (self self' : SpreadsheetEval) :
  parseInput init text = Ret self → evaluate self = Ret self' →
  ∀ cell v, valMap self' !! cell = Some v → plain v.
Proof.
  intros Hparse Heval.
  pose proof (parseInput_loaded _ _ Hparse) as (_ & Hdisj & Hblank & _).
  unfold evaluate in Heval.
  destruct (evaluate_rows _ _ _ _ _) as [vm| |] eqn:Hrows; simpl in Heval;
    [|done..].
  injection Heval as <-. simpl.
  apply evaluate_rows_plain in Hrows; [exact Hrows|].
  intros cell v Hv. rewrite (Hblank cell v Hv); [done|].
  apply not_elem_of_dom. intros Hin.
  apply (Hdisj cell); [|done]. apply elem_of_dom. eauto.
Qed.

(** When the evaluation of a loaded sheet returns, every cell of the grid
    without expression still holds the empty marker, and is written as
    the empty text. *)
Lemma blank_cells_stay_empty (text : string) (self self' : SpreadsheetEval)
    (cell : string) :
  parseInput init text = Ret self → evaluate self = Ret self' →
  cell ∈ grid_cells (grid self) → exprMap self !! cell = None →
  valMap self' !! cell = Some (PyStr "") ∧ py_str (PyStr "") = "".
Proof.
  intros Hparse Heval Hin Hexpr. split; [|done].
  pose proof (parseInput_loaded _ _ Hparse) as (_ & _ & Hblank & Hcover).
  unfold evaluate in Heval.
  destruct (evaluate_rows _ _ _ _ _) as [vm| |] eqn:Hrows; simpl in Heval;
    [|done..].
  injection Heval as <-. simpl.
  apply evaluate_rows_Ret in Hrows as (Hsub & _).
  pose proof (Hcover cell Hin) as Hc.
  apply elem_of_union in Hc as [Hc|Hc].
  - apply elem_of_dom in Hc as [ops Hops]. congruence.
  - apply elem_of_dom in Hc as [v Hv].
    rewrite (Hblank cell v Hv Hexpr) in Hv. by eapply lookup_weaken.
Qed.

(** * Further properties of the code *)

(** ** Cell names *)

Lemma int_go_app acc (s t : string) :
  Py.int_go acc (s +:+ t) = Py.int_go (Py.int_go acc s) t.
Proof. revert acc. induction s as [|c s IH]; intros acc; simpl; [done|]. apply IH. Qed.

Lemma pretty_N_char_value (x : N) :
  (x < 10)%N → Py.digit_value (pretty_N_char x) = Z.of_N x.
Proof.
  intros Hx.
  assert (x = 0 ∨ x = 1 ∨ x = 2 ∨ x = 3 ∨ x = 4 ∨ x = 5 ∨ x = 6 ∨ x = 7
          ∨ x = 8 ∨ x = 9)%N as Hcases by lia.
  repeat (destruct Hcases as [->|Hcases]; [reflexivity|]). by subst.
Qed.

(** The digits that [pretty_N_go] puts before its accumulator read back
    as the number. *)
Lemma pretty_N_go_value (x : N) (s : string) :
  ∃ pre : string, pretty_N_go x s = pre +:+ s ∧ Py.int_go 0 pre = Z.of_N x.
Proof.
  revert s. induction (N.lt_wf_0 x) as [x _ IH]; intros s.
  destruct (decide (0 < x)%N) as [Hpos|Hzero].
  - rewrite pretty_N_go_step by done.
    destruct (IH (x `div` 10)%N (N.div_lt x 10 Hpos eq_refl)
                 (String (pretty_N_char (x `mod` 10)) s)) as (pre & -> & Hpre).
    exists (pre +:+ String (pretty_N_char (x `mod` 10)) "").
    rewrite string_app_assoc. split; [done|].
    rewrite int_go_app, Hpre. simpl.
    rewrite pretty_N_char_value by (apply N.mod_lt; lia).
    pose proof (N.div_mod x 10). lia.
  - assert (x = 0%N) as -> by lia. exists "". by rewrite pretty_N_go_0.
Qed.

(** [int(str(n))] is [n], for [n] from 0 on. *)
Lemma int_str_of_int (n : Z) : 0 ≤ n → Py.int (Py.str_of_int n) = Ret n.
Proof.
  intros Hn. destruct (str_of_int_digits n Hn) as [Hne Hdec].
  rewrite int_decimal by done. f_equal.
  unfold Py.str_of_int, pretty, pretty_Z.
  destruct n as [|p|p]; [done| |lia].
  unfold pretty, pretty_positive, pretty, pretty_N.
  case_decide; [done|].
  destruct (pretty_N_go_value (N.pos p) "") as (pre & -> & Hpre).
  by rewrite string_app_nil_r.
Qed.

(** X1. Two grid positions never share a name: [getCellName] is injective
    on the columns and rows from 0 on. *)
Theorem cell_names_unique (c1 r1 c2 r2 : Z) :
  0 ≤ c1 → 0 ≤ r1 → 0 ≤ c2 → 0 ≤ r2 →
  getCellName c1 r1 = getCellName c2 r2 → c1 = c2 ∧ r1 = r2.
Proof. apply getCellName_inj. Qed.

Lemma cell_names_unique_witness : 27 = 27 ∧ 4 = 4.
Proof. apply (cell_names_unique 27 4 27 4); (lia || reflexivity). Defined.

(** X2. Every name that [getCellName] gives to a grid position is a cell
    reference for [isCellReference], and the pieces [isCellReference]
    cuts it into give the position back: the letters counted by the
    column loop are the label of the column, and [int] of the rest is the
    row plus one. *)
Theorem cell_name_is_reference (c r : Z) :
  0 ≤ c → 0 ≤ r →
  isCellReference (getCellName c r) = Ret (BoolVal true)
  ∧ columnToIndex (Py.take (colCount (getCellName c r)) (getCellName c r)) = c
  ∧ Py.int (Py.slice_from (colCount (getCellName c r)) (getCellName c r))
    = Ret (r + 1).
Proof.
  intros Hc Hr. unfold getCellName.
  destruct (str_of_int_digits (r + 1)) as [Hne Hdec]; [lia|].
  pose proof (indexToColForm_letters c) as Hletters.
  pose proof (indexToColForm_nonempty c Hc) as Hcol.
  destruct (colCount_letters_digits (indexToColForm c) (Py.str_of_int (r + 1)))
    as [Hcount Hrow]; [|done|done|].
  { eapply all_impl; [apply AZ_upper_alpha|done]. }
  rewrite Hcount, Hrow, take_app_length, int_str_of_int by lia.
  split; [|split; [|done]].
  - unfold isCellReference. rewrite Hcount, Hrow.
    rewrite bool_decide_false by (by destruct (indexToColForm c)).
    rewrite bool_decide_false by (by destruct (indexToColForm c)).
    rewrite bool_decide_false by done.
    rewrite str_isdigit_decimal, int_str_of_int by (done || lia). simpl.
    do 2 f_equal. apply Z.ltb_lt. lia.
  - unfold columnToIndex. rewrite indexToColForm_value; lia.
Qed.

Lemma cell_name_is_reference_witness :
  isCellReference (getCellName 27 4) = Ret (BoolVal true)
  ∧ columnToIndex (Py.take (colCount (getCellName 27 4)) (getCellName 27 4)) = 27
  ∧ Py.int (Py.slice_from (colCount (getCellName 27 4)) (getCellName 27 4))
    = Ret (4 + 1).
Proof. apply (cell_name_is_reference 27 4); lia. Defined.

(** ** The loader, position by position *)

Lemma parse_cells_fields rowIndex colIndex cells rowCells self :
  let self' := (parse_cells rowIndex colIndex cells rowCells self).2 in
  grid self' = grid self ∧ maxCells self' = maxCells self
  ∧ maxTokensPerCell self' = maxTokensPerCell self.
Proof.
  revert colIndex rowCells self.
  induction cells as [|e cells IH]; intros colIndex rowCells self; simpl; [done|].
  case_bool_decide;
    match goal with
    | |- context [parse_cells _ _ _ ?rc ?s] => exact (IH _ rc s)
    end.
Qed.

Lemma parse_cells_names rowIndex colIndex cells rowCells self :
  (parse_cells rowIndex colIndex cells rowCells self).1
  = rowCells ++ imap (λ j _, getCellName (colIndex + Z.of_nat j) rowIndex) cells.
Proof.
  revert colIndex rowCells self.
  induction cells as [|e cells IH]; intros colIndex rowCells self; simpl.
  { by rewrite app_nil_r. }
  case_bool_decide; rewrite IH, <-app_assoc; simpl; rewrite Z.add_0_r;
    do 2 f_equal; apply imap_ext; intros j x _; simpl; f_equal; lia.
Qed.

(** The loader leaves the entries of all other names alone. *)
Lemma parse_cells_frame rowIndex colIndex cells rowCells self k :
  (∀ j, (j < length cells)%nat → k ≠ getCellName (colIndex + Z.of_nat j) rowIndex) →
  let self' := (parse_cells rowIndex colIndex cells rowCells self).2 in
  exprMap self' !! k = exprMap self !! k ∧ valMap self' !! k = valMap self !! k.
Proof.
  revert colIndex rowCells self.
  induction cells as [|e cells IH]; intros colIndex rowCells self Hk; simpl; [done|].
  assert (k ≠ getCellName colIndex rowIndex) as Hhead.
  { specialize (Hk 0%nat). rewrite Z.add_0_r in Hk. apply Hk. simpl. lia. }
  assert (∀ j, (j < length cells)%nat →
               k ≠ getCellName (colIndex + 1 + Z.of_nat j) rowIndex) as Htail.
  { intros j Hj. specialize (Hk (S j)).
    replace (colIndex + 1 + Z.of_nat j) with (colIndex + Z.of_nat (S j)) by lia.
    apply Hk. simpl. lia. }
  case_bool_decide.
  - destruct (IH (colIndex + 1) (rowCells ++ [getCellName colIndex rowIndex])
                (set_valMap self (<[getCellName colIndex rowIndex:=PyStr ""]> (valMap self)))
                Htail) as [-> ->].
    simpl. by rewrite lookup_insert_ne.
  - destruct (IH (colIndex + 1) (rowCells ++ [getCellName colIndex rowIndex])
                (set_exprMap self (<[getCellName colIndex rowIndex:=
                   Py.split (Py.strip e)]> (exprMap self)))
                Htail) as [-> ->].
    simpl. by rewrite lookup_insert_ne.
Qed.

(** Every cell of the line is kept under its name, when the names of the
    line are new. *)
Lemma parse_cells_kept rowIndex colIndex cells rowCells self :
  0 ≤ rowIndex → 0 ≤ colIndex →
  (∀ j, (j < length cells)%nat →
        exprMap self !! getCellName (colIndex + Z.of_nat j) rowIndex = None
        ∧ valMap self !! getCellName (colIndex + Z.of_nat j) rowIndex = None) →
  ∀ j e, cells !! j = Some e →
    kept (parse_cells rowIndex colIndex cells rowCells self).2
         (getCellName (colIndex + Z.of_nat j) rowIndex) e.
Proof.
  intros Hrow. revert colIndex rowCells self.
  induction cells as [|e0 cells IH]; intros colIndex rowCells self Hcol Hnew j e;
    [done|].
  set (name := getCellName colIndex rowIndex).
  assert (∀ i, (i < length cells)%nat →
               name ≠ getCellName (colIndex + 1 + Z.of_nat i) rowIndex) as Hlater.
  { intros i _ Heq. apply getCellName_inj in Heq as [? _]; lia. }
  destruct (Hnew 0%nat) as [Hexpr0 Hval0]; [simpl; lia|].
  rewrite Z.add_0_r in Hexpr0, Hval0. fold name in Hexpr0, Hval0.
  destruct j as [|j]; simpl.
  - intros [= ->]. rewrite Z.add_0_r. fold name. unfold kept.
    case_bool_decide as Hblank.
    + destruct (parse_cells_frame rowIndex (colIndex + 1) cells
                  (rowCells ++ [name])
                  (set_valMap self (<[name:=PyStr ""]> (valMap self))) name Hlater)
        as [-> ->].
      simpl. by rewrite lookup_insert_eq.
    + destruct (parse_cells_frame rowIndex (colIndex + 1) cells
                  (rowCells ++ [name])
                  (set_exprMap self (<[name:=Py.split (Py.strip e)]> (exprMap self)))
                  name Hlater)
        as [-> ->].
      simpl. by rewrite lookup_insert_eq.
  - intros He.
    replace (colIndex + Z.of_nat (S j)) with (colIndex + 1 + Z.of_nat j) by lia.
    assert (∀ self1,
              (∀ k, k ≠ name → exprMap self1 !! k = exprMap self !! k
                               ∧ valMap self1 !! k = valMap self !! k) →
              kept (parse_cells rowIndex (colIndex + 1) cells
                      (rowCells ++ [name]) self1).2
                   (getCellName (colIndex + 1 + Z.of_nat j) rowIndex) e) as Hstep.
    { intros self1 Hsame. apply IH; [lia| |done].
      intros i Hi. destruct (Hsame (getCellName (colIndex + 1 + Z.of_nat i) rowIndex))
        as [-> ->].
      { intros Heq. symmetry in Heq. by apply Hlater in Heq. }
      replace (colIndex + 1 + Z.of_nat i) with (colIndex + Z.of_nat (S i)) by lia.
      apply Hnew. simpl. lia. }
    case_bool_decide.
    + apply Hstep. intros k Hk; simpl. by rewrite lookup_insert_ne.
    + apply Hstep. intros k Hk; simpl. by rewrite lookup_insert_ne.
Qed.

Lemma kept_frame self self' name e :
  exprMap self' !! name = exprMap self !! name →
  valMap self' !! name = valMap self !! name →
  kept self name e → kept self' name e.
Proof. unfold kept. by intros -> ->. Qed.

(** The keys the loader adds on a line are names of that line. *)
Lemma parse_cells_keys rowIndex colIndex cells rowCells self k :
  k ∈ dom (exprMap (parse_cells rowIndex colIndex cells rowCells self).2)
      ∪ dom (valMap (parse_cells rowIndex colIndex cells rowCells self).2) →
  k ∈ dom (exprMap self) ∪ dom (valMap self)
  ∨ ∃ j, (j < length cells)%nat ∧ k = getCellName (colIndex + Z.of_nat j) rowIndex.
Proof.
  revert colIndex rowCells self.
  induction cells as [|e cells IH]; intros colIndex rowCells self; simpl; [auto|].
  assert (∀ j, (j < length cells)%nat →
               (S j < S (length cells))%nat
               ∧ getCellName (colIndex + 1 + Z.of_nat j) rowIndex
                 = getCellName (colIndex + Z.of_nat (S j)) rowIndex) as Hshift.
  { intros j Hj. split; [lia|]. f_equal. lia. }
  assert (getCellName colIndex rowIndex
          = getCellName (colIndex + Z.of_nat 0) rowIndex) as Hhead.
  { f_equal. simpl. lia. }
  case_bool_decide; intros Hk; apply IH in Hk as [Hk|(j & Hj & ->)].
  - simpl in Hk. rewrite dom_insert_L in Hk.
    destruct (decide (k = getCellName colIndex rowIndex)) as [->|Hne].
    + right. exists 0%nat. split; [lia|done].
    + left. set_solver.
  - right. exists (S j). by destruct (Hshift j Hj).
  - simpl in Hk. rewrite dom_insert_L in Hk.
    destruct (decide (k = getCellName colIndex rowIndex)) as [->|Hne].
    + right. exists 0%nat. split; [lia|done].
    + left. set_solver.
  - right. exists (S j). by destruct (Hshift j Hj).
Qed.

Lemma not_before_later rowIndex c r :
  0 ≤ rowIndex → 0 ≤ c → rowIndex ≤ r → ¬ before rowIndex 0 (getCellName c r).
Proof.
  intros Hrow Hc Hr (c' & r' & Hc' & Hr' & Heq & Hlt).
  apply getCellName_inj in Heq as [-> ->]; lia.
Qed.

(** ** The loader, line by line *)

Lemma names_of_cons rowIndex cells rows :
  names_of rowIndex (cells :: rows)
  = imap (λ c _, getCellName (Z.of_nat c) rowIndex) cells
    :: names_of (rowIndex + 1) rows.
Proof.
  unfold names_of. simpl. f_equal.
  - apply imap_ext. intros c x _. simpl. f_equal. lia.
  - apply imap_ext. intros r x _. simpl.
    apply imap_ext. intros c y _. simpl. f_equal. lia.
Qed.

Lemma parse_rows_fields rowIndex rows cellCount self self' :
  parse_rows rowIndex rows cellCount self = Ret self' →
  maxCells self' = maxCells self ∧ maxTokensPerCell self' = maxTokensPerCell self.
Proof.
  revert rowIndex cellCount self.
  induction rows as [|row rows IH]; intros rowIndex cellCount self; simpl.
  { by intros [= <-]. }
  destruct (_ >? _); [done|].
  pose proof (parse_cells_fields rowIndex 0 (Py.split_on "," (Py.strip row)) [] self)
    as (_ & Hmax & Htok).
  destruct (parse_cells _ _ _ _ _) as [rowCells self1].
  intros H. apply IH in H as [-> ->]. done.
Qed.

(** The grid the loader builds: one row of names for every line. *)
Lemma parse_rows_grid rowIndex rows cellCount self self' :
  parse_rows rowIndex rows cellCount self = Ret self' →
  grid self' = grid self ++ names_of rowIndex (map row_cells rows).
Proof.
  revert rowIndex cellCount self.
  induction rows as [|row rows IH]; intros rowIndex cellCount self; simpl.
  { intros [= <-]. by rewrite app_nil_r. }
  destruct (_ >? _); [done|].
  pose proof (parse_cells_fields rowIndex 0 (Py.split_on "," (Py.strip row)) [] self)
    as (Hgrid & _).
  pose proof (parse_cells_names rowIndex 0 (Py.split_on "," (Py.strip row)) [] self)
    as Hnames.
  destruct (parse_cells _ _ _ _ _) as [rowCells self1]. simpl in *.
  intros H. apply IH in H as ->. simpl.
  rewrite Hgrid, <-app_assoc. f_equal.
  fold (row_cells row). rewrite names_of_cons. simpl. f_equal.
  rewrite Hnames. apply imap_ext. intros c x _. simpl. f_equal.
Qed.

Lemma total_cells_cons cells rows :
  total_cells (cells :: rows) = Z.of_nat (length cells) + total_cells rows.
Proof. unfold total_cells. simpl. rewrite length_app. lia. Qed.

Lemma total_cells_nonneg rows : 0 ≤ total_cells rows.
Proof. unfold total_cells. lia. Qed.

Lemma split_by_nonempty sep (s : string) : Py.split_by sep s ≠ [].
Proof.
  destruct s as [|c s]; simpl; [done|].
  destruct (sep c); [done|]. by destruct (Py.split_by sep s).
Qed.

Lemma row_cells_nonempty row : (0 < length (row_cells row))%nat.
Proof.
  unfold row_cells, Py.split_on.
  pose proof (split_by_nonempty (λ c, bool_decide (c = ","%char)) (Py.strip row)).
  destruct (Py.split_by _ _); [done|simpl; lia].
Qed.

(** The loader raises on the first line that takes the running count of
    cells past the limit: it returns exactly when the count of all cells
    stays within the limit. *)
Lemma parse_rows_count rowIndex rows cellCount self :
  (cellCount + total_cells (map row_cells rows) ≤ maxCells self →
   ∃ self', parse_rows rowIndex rows cellCount self = Ret self')
  ∧ (rows ≠ [] → maxCells self < cellCount + total_cells (map row_cells rows) →
     parse_rows rowIndex rows cellCount self
     = Raise (Exception
         ("Input file contains more than maximum number of allowed cells ("
          +:+ Py.str_of_int (maxCells self) +:+ ")"))).
Proof.
  revert rowIndex cellCount self.
  induction rows as [|row rows IH]; intros rowIndex cellCount self.
  { split; [simpl; eauto|done]. }
  change (map row_cells (row :: rows)) with (row_cells row :: map row_cells rows).
  rewrite total_cells_cons. simpl. fold (row_cells row).
  pose proof (total_cells_nonneg (map row_cells rows)) as Hrest.
  pose proof (parse_cells_fields rowIndex 0 (row_cells row) [] self)
    as (_ & Hmax & _).
  destruct (Z.gtb_spec (cellCount + Z.of_nat (length (row_cells row)))
              (maxCells self)) as [Hgt|Hle].
  { split; [lia|done]. }
  destruct (parse_cells _ _ _ _ _) as [rowCells self1]. simpl in Hmax.
  destruct (IH (rowIndex + 1) (cellCount + Z.of_nat (length (row_cells row)))
               (set_grid self1 (grid self1 ++ [rowCells]))) as [Hret Hraise].
  simpl in Hret, Hraise. rewrite Hmax in Hret, Hraise.
  split.
  - intros Hfit. apply Hret. lia.
  - intros _ Hover. apply Hraise; [|lia].
    intros ->. unfold total_cells in Hover. simpl in Hover. lia.
Qed.

Lemma parse_rows_cons rowIndex row rows cellCount self :
  parse_rows rowIndex (row :: rows) cellCount self
  = if cellCount + Z.of_nat (length (row_cells row)) >? maxCells self then
      Raise (Exception
        ("Input file contains more than maximum number of allowed cells ("
         +:+ Py.str_of_int (maxCells self) +:+ ")"))
    else
      let p := parse_cells rowIndex 0 (row_cells row) [] self in
      parse_rows (rowIndex + 1) rows
        (cellCount + Z.of_nat (length (row_cells row)))
        (set_grid p.2 (grid p.2 ++ [p.1])).
Proof. simpl. fold (row_cells row). by destruct (parse_cells _ _ _ _ _). Qed.

(** What the loader keeps: the text of every position under the name of
    that position, and nothing under a name of an earlier line changed. *)
Lemma parse_rows_kept rowIndex rows cellCount self self' :
  0 ≤ rowIndex →
  (∀ k, k ∈ dom (exprMap self) ∪ dom (valMap self) → before rowIndex 0 k) →
  parse_rows rowIndex rows cellCount self = Ret self' →
  (∀ k, before rowIndex 0 k →
        exprMap self' !! k = exprMap self !! k ∧ valMap self' !! k = valMap self !! k)
  ∧ (∀ k, k ∈ dom (exprMap self') ∪ dom (valMap self') →
          k ∈ dom (exprMap self) ∪ dom (valMap self)
          ∨ k ∈ concat (names_of rowIndex (map row_cells rows)))
  ∧ ∀ r c cells e,
      map row_cells rows !! r = Some cells → cells !! c = Some e →
      kept self' (getCellName (Z.of_nat c) (rowIndex + Z.of_nat r)) e.
Proof.
  revert rowIndex cellCount self.
  induction rows as [|row rows IH]; intros rowIndex cellCount self Hrow Hold.
  { simpl. intros [= <-]. split; [done|]. split; [auto|]. by intros r c cells e. }
  rewrite parse_rows_cons. destruct (_ >? _); [done|].
  change (map row_cells (row :: rows)) with (row_cells row :: map row_cells rows).
  rewrite names_of_cons.
  pose proof (λ k, parse_cells_frame rowIndex 0 (row_cells row) [] self k) as Hframe.
  pose proof (λ k, parse_cells_keys rowIndex 0 (row_cells row) [] self k) as Hkeys.
  assert (0 ≤ 0) as Hzero by lia.
  pose proof (parse_cells_kept rowIndex 0 (row_cells row) [] self Hrow Hzero) as Hkept.
  cbv zeta in *.
  set (p := parse_cells rowIndex 0 (row_cells row) [] self) in *.
  intros Hparse.
  assert (∀ j, ¬ before rowIndex 0 (getCellName (0 + Z.of_nat j) rowIndex))
    as Hline.
  { intros j. apply not_before_later; lia. }
  assert (∀ k, k ∈ dom (exprMap p.2) ∪ dom (valMap p.2) →
               before (rowIndex + 1) 0 k) as Hold1.
  { intros k Hk. apply Hkeys in Hk as [Hk|(j & Hj & ->)].
    - by apply (before_next_row _ 0), Hold.
    - exists (0 + Z.of_nat j), rowIndex. repeat split; try lia. }
  apply IH in Hparse as (Hframe' & Hkeys' & Hkept'); [|lia|exact Hold1].
  split; [|split].
  - intros k Hk.
    destruct (Hframe' k) as [-> ->]; [by eapply before_next_row|].
    apply Hframe. intros j _ ->. by apply (Hline j).
  - intros k Hk. rewrite concat_cons, elem_of_app.
    apply Hkeys' in Hk as [Hk|Hk]; [|auto].
    apply Hkeys in Hk as [Hk|(j & Hj & ->)]; [auto|].
    right. left. apply list_elem_of_lookup.
    apply lookup_lt_is_Some in Hj as [x Hx].
    exists j. by rewrite list_lookup_imap, Hx.
  - intros r c cells e Hr Hc. destruct r as [|r].
    + injection Hr as <-. rewrite Z.add_0_r.
      destruct (Hframe' (getCellName (Z.of_nat c) rowIndex)) as [He Hv].
      { exists (Z.of_nat c), rowIndex. repeat split; lia. }
      eapply kept_frame; [exact He|exact Hv|].
      apply Hkept; [|exact Hc].
      intros j _. split; apply not_elem_of_dom; intros Hin;
        apply (Hline j), Hold; set_solver.
    + replace (rowIndex + Z.of_nat (S r)) with (rowIndex + 1 + Z.of_nat r) by lia.
      by eapply Hkept'.
Qed.

(** ** The tokens of a cell *)

Lemma split_by_no_sep sep (s : string) :
  Forall (λ w, Py.all (λ c, negb (sep c)) w = true) (Py.split_by sep s).
Proof.
  induction s as [|c s IH]; simpl.
  { by apply Forall_singleton. }
  destruct (sep c) eqn:Hc.
  { by apply Forall_cons. }
  destruct (Py.split_by sep s) as [|w ws].
  - apply Forall_singleton. simpl. by rewrite Hc.
  - apply Forall_cons in IH as [Hw Hws]. apply Forall_cons. split; [|done].
    simpl. by rewrite Hc, Hw.
Qed.

(** [split()] gives tokens only: no word is empty or has white space. *)
Lemma split_tokens (s : string) : Forall loader_token (Py.split s).
Proof.
  unfold Py.split. apply Forall_forall. intros w [Hne Hin]%list_elem_of_filter.
  split; [done|].
  pose proof (split_by_no_sep Py.isspace s) as Hall.
  rewrite Forall_forall in Hall. by apply Hall.
Qed.

Lemma split_nil (s : string) : Py.split s = [] → Py.all Py.isspace s = true.
Proof.
  unfold Py.split. induction s as [|c s IH]; simpl; [done|].
  destruct (Py.isspace c) eqn:Hc.
  - rewrite filter_cons_False by (intros H; by apply H). exact IH.
  - destruct (Py.split_by Py.isspace s) as [|w ws];
      by rewrite filter_cons_True.
Qed.

Lemma lstrip_all_space (s : string) :
  Py.all Py.isspace (Py.lstrip s) = true → Py.lstrip s = "".
Proof.
  induction s as [|c s IH]; simpl; [done|].
  destruct (Py.isspace c) eqn:Hc; [done|]. simpl. by rewrite Hc.
Qed.

(** A text that [strip] leaves not empty has a character that is no
    white space. *)
Lemma strip_all_space (s : string) :
  Py.all Py.isspace (Py.strip s) = true → Py.strip s = "".
Proof.
  unfold Py.strip, Py.rstrip, String.rev. rewrite all_rev_app, andb_true_r.
  intros H. by rewrite (lstrip_all_space _ H).
Qed.

Lemma split_strip_nonempty (e : string) :
  Py.strip e ≠ "" → Py.split (Py.strip e) ≠ [].
Proof. intros Hne Hnil. by apply Hne, strip_all_space, split_nil. Qed.

(** ** The names of the grid *)

Lemma elem_of_names_of rowIndex rows k :
  k ∈ concat (names_of rowIndex rows) ↔
  ∃ r c (cells : list string) (e : string),
    rows !! r = Some cells ∧ cells !! c = Some e
    ∧ k = getCellName (Z.of_nat c) (rowIndex + Z.of_nat r).
Proof.
  revert rowIndex. induction rows as [|cells rows IH]; intros rowIndex.
  { simpl. split; [by intros ?%elem_of_nil|]. by intros (r & c & cs & e & ? & _). }
  rewrite names_of_cons, concat_cons, elem_of_app, IH, elem_of_lookup_imap.
  split.
  - intros [(c & e & -> & He)|(r & c & cs & e & Hr & Hc & ->)].
    + exists 0%nat, c, cells, e. rewrite Z.add_0_r. done.
    + exists (S r), c, cs, e. split; [done|]. split; [done|]. f_equal. lia.
  - intros (r & c & cs & e & Hr & Hc & ->). destruct r as [|r]; simpl in Hr.
    + injection Hr as ->. left. exists c, e. by rewrite Z.add_0_r.
    + right. exists r, c, cs, e. split; [done|]. split; [done|]. f_equal. lia.
Qed.

Lemma names_of_NoDup rowIndex rows :
  0 ≤ rowIndex → NoDup (concat (names_of rowIndex rows)).
Proof.
  revert rowIndex. induction rows as [|cells rows IH]; intros rowIndex Hrow.
  { constructor. }
  rewrite names_of_cons, concat_cons, NoDup_app. split; [|split].
  - apply NoDup_alt. intros i j x. rewrite !list_lookup_imap.
    destruct (cells !! i), (cells !! j); simpl; try done.
    intros [= <-] [= Heq]. apply getCellName_inj in Heq as [? _]; lia.
  - intros x (c & e & -> & _)%elem_of_lookup_imap
             (r & c' & cs & e' & _ & _ & Heq)%elem_of_names_of.
    apply getCellName_inj in Heq as [_ ?]; lia.
  - apply IH. lia.
Qed.

(** ** What a load gives *)

(** X3. The cell limit of the loader. With a limit that is not negative,
    [parseInput] returns exactly when the input has no more cells than
    [maxCells], counting every field of every line, blank ones too;
    with more cells it raises the error that names the limit, whatever
    the cells hold. *)
Theorem parseInput_cell_limit (self : SpreadsheetEval) (text : string) :
  0 ≤ maxCells self →
  (total_cells (cell_texts text) ≤ maxCells self →
   ∃ self', parseInput self text = Ret self')
  ∧ (maxCells self < total_cells (cell_texts text) →
     parseInput self text
     = Raise (Exception
         ("Input file contains more than maximum number of allowed cells ("
          +:+ Py.str_of_int (maxCells self) +:+ ")"))).
Proof.
  intros Hmax. unfold parseInput, cell_texts.
  destruct (parse_rows_count 0 (Py.readlines text) 0 self) as [Hret Hraise].
  split; [exact Hret|].
  intros Hover. apply Hraise; [|exact Hover].
  intros Hnil. rewrite Hnil in Hover. unfold total_cells in Hover.
  simpl in Hover. lia.
Qed.

Lemma parseInput_cell_limit_witness :
  (total_cells (cell_texts ("1,2" +:+ nl +:+ "3")) ≤ maxCells init →
   ∃ self', parseInput init ("1,2" +:+ nl +:+ "3") = Ret self')
  ∧ (maxCells init < total_cells (cell_texts ("1,2" +:+ nl +:+ "3")) →
     parseInput init ("1,2" +:+ nl +:+ "3")
     = Raise (Exception
         ("Input file contains more than maximum number of allowed cells ("
          +:+ Py.str_of_int (maxCells init) +:+ ")"))).
Proof. apply (parseInput_cell_limit init ("1,2" +:+ nl +:+ "3")). simpl. lia. Defined.

(** X4. The grid after a load. [parseInput] appends one row of names to
    the grid for every line of the input, in order; the row of line [r]
    holds the names [getCellName c r] of the columns [c] from 0 up to the
    number of fields of the line, so rows may differ in length. The two
    limits of the object are left as they were. *)
Theorem parseInput_grid (self self' : SpreadsheetEval) (text : string) :
  parseInput self text = Ret self' →
  grid self' = grid self ++ names_of 0 (cell_texts text)
  ∧ maxCells self' = maxCells self
  ∧ maxTokensPerCell self' = maxTokensPerCell self.
Proof.
  intros Hparse. split.
  - by apply parse_rows_grid in Hparse.
  - by apply parse_rows_fields in Hparse.
Qed.

Lemma parseInput_grid_witness :
  ∃ self', parseInput init ("1,2" +:+ nl +:+ "3") = Ret self'
           ∧ grid self' = grid init ++ names_of 0 (cell_texts ("1,2" +:+ nl +:+ "3"))
           ∧ maxCells self' = maxCells init
           ∧ maxTokensPerCell self' = maxTokensPerCell init.
Proof.
  eexists. split; [vm_compute; reflexivity|].
  apply (parseInput_grid init _ ("1,2" +:+ nl +:+ "3")). vm_compute. reflexivity.
Defined.

(** X5. The contents after a load. For every field of the input, at
    column [c] of line [r], a load into a new object keeps under the name
    [getCellName c r] what the field holds: the empty marker in the Value
    Map and no expression when the stripped field is empty, else the
    white-space separated tokens of the field in the Expression Map and
    no value. No later cell overwrites it. *)
Theorem parseInput_contents (text : string) (self : SpreadsheetEval)
    (r c : nat) (cells : list string) (e : string) :
  parseInput init text = Ret self →
  cell_texts text !! r = Some cells → cells !! c = Some e →
  kept self (getCellName (Z.of_nat c) (Z.of_nat r)) e.
Proof.
  intros Hparse Hr Hc.
  apply parse_rows_kept in Hparse as (_ & _ & Hkept); [|done|].
  - by apply (Hkept r c cells e).
  - intros k. simpl. rewrite !dom_empty_L. set_solver.
Qed.

Lemma parseInput_contents_witness :
  ∃ self, parseInput init ("1 2 +, " +:+ nl +:+ "A1") = Ret self
          ∧ kept self (getCellName (Z.of_nat 0) (Z.of_nat 0)) "1 2 +".
Proof.
  eexists. split; [vm_compute; reflexivity|].
  apply (parseInput_contents ("1 2 +, " +:+ nl +:+ "A1") _ 0 0 ["1 2 +"; ""] "1 2 +");
    vm_compute; reflexivity.
Defined.

(** X6. The names after a load. No two cells of the grid share a name;
    the keys of the Expression Map and of the Value Map together are the
    names of the grid, and no name is a key of both; every value is the
    empty marker. *)
Theorem parseInput_partition (text : string) (self : SpreadsheetEval) :
  parseInput init text = Ret self →
  NoDup (grid_cells (grid self))
  ∧ (∀ k, k ∈ grid_cells (grid self) ↔ k ∈ dom (exprMap self) ∪ dom (valMap self))
  ∧ dom (valMap self) ## dom (exprMap self)
  ∧ ∀ k v, valMap self !! k = Some v → v = PyStr "".
Proof.
  intros Hparse.
  pose proof (parse_rows_grid _ _ _ _ _ Hparse) as Hgrid. simpl in Hgrid.
  pose proof (parseInput_loaded _ _ Hparse) as (_ & Hdisj & _ & Hcover).
  apply parse_rows_kept in Hparse as (_ & Hkeys & Hkept); [|done|].
  2:{ intros k. simpl. rewrite !dom_empty_L. set_solver. }
  unfold grid_cells. rewrite Hgrid.
  split; [by apply names_of_NoDup|]. split; [|split; [done|]].
  - intros k. split.
    + intros Hk. apply Hcover. unfold grid_cells. by rewrite Hgrid.
    + intros Hk. apply Hkeys in Hk as [Hk|Hk]; [|done].
      simpl in Hk. rewrite !dom_empty_L in Hk. set_solver.
  - intros k v Hv.
    assert (k ∈ concat (names_of 0 (map row_cells (Py.readlines text)))) as Hk.
    { destruct (Hkeys k) as [Hin|Hin]; [|simpl in Hin; set_solver|done].
      apply elem_of_union_r, elem_of_dom. eauto. }
    apply elem_of_names_of in Hk as (r & c & cells & e & Hr & Hc & ->).
    specialize (Hkept r c cells e Hr Hc). unfold kept in Hkept.
    case_bool_decide; destruct Hkept as [H1 H2]; congruence.
Qed.

Lemma parseInput_partition_witness :
  ∃ self, parseInput init ("1 2 +, " +:+ nl +:+ "A1") = Ret self
          ∧ NoDup (grid_cells (grid self))
          ∧ (∀ k, k ∈ grid_cells (grid self)
                  ↔ k ∈ dom (exprMap self) ∪ dom (valMap self))
          ∧ dom (valMap self) ## dom (exprMap self)
          ∧ ∀ k v, valMap self !! k = Some v → v = PyStr "".
Proof.
  eexists. split; [vm_compute; reflexivity|].
  apply (parseInput_partition ("1 2 +, " +:+ nl +:+ "A1")). vm_compute. reflexivity.
Defined.

(** Where an expression comes from: a field of the input that is not
    blank, cut into its words. *)
Lemma parseInput_expression (text : string) (self : SpreadsheetEval)
    (cell : string) (ops : list string) :
  parseInput init text = Ret self → exprMap self !! cell = Some ops →
  (∃ r c cells e,
     cell_texts text !! r = Some cells ∧ cells !! c = Some e
     ∧ cell = getCellName (Z.of_nat c) (Z.of_nat r)
     ∧ Py.strip e ≠ "" ∧ ops = Py.split (Py.strip e))
  ∧ ops ≠ [] ∧ Forall loader_token ops.
Proof.
  intros Hparse Hops.
  apply parse_rows_kept in Hparse as (_ & Hkeys & Hkept); [|done|].
  2:{ intros k. simpl. rewrite !dom_empty_L. set_solver. }
  assert (cell ∈ concat (names_of 0 (map row_cells (Py.readlines text)))) as Hk.
  { destruct (Hkeys cell) as [Hin|Hin]; [|simpl in Hin; set_solver|done].
    apply elem_of_union_l, elem_of_dom. eauto. }
  apply elem_of_names_of in Hk as (r & c & cells & e & Hr & Hc & ->).
  specialize (Hkept r c cells e Hr Hc). unfold kept in Hkept.
  case_bool_decide as Hblank; destruct Hkept as [H1 H2]; [congruence|].
  simpl in H1. rewrite Hops in H1. injection H1 as ->.
  split; [|split].
  - by exists r, c, cells, e.
  - by apply split_strip_nonempty.
  - apply split_tokens.
Qed.

(** X7. The expressions after a load. Every entry of the Expression Map
    comes from a field of the input that is not blank, under the name of
    its position, and it is the list of the white-space separated words
    of the field: the list is not empty, and no token is empty or has
    white space in it. *)
Theorem parseInput_tokens (text : string) (self : SpreadsheetEval)
    (cell : string) (ops : list string) :
  parseInput init text = Ret self → exprMap self !! cell = Some ops →
  (∃ r c cells e,
     cell_texts text !! r = Some cells ∧ cells !! c = Some e
     ∧ cell = getCellName (Z.of_nat c) (Z.of_nat r)
     ∧ Py.strip e ≠ "" ∧ ops = Py.split (Py.strip e))
  ∧ ops ≠ [] ∧ Forall loader_token ops.
Proof. apply parseInput_expression. Qed.

Lemma parseInput_tokens_witness :
  (∃ r c cells e,
     cell_texts ("1 2 +, " +:+ nl +:+ "A1") !! r = Some cells
     ∧ cells !! c = Some e
     ∧ "A1" = getCellName (Z.of_nat c) (Z.of_nat r)
     ∧ Py.strip e ≠ "" ∧ ["1"; "2"; "+"] = Py.split (Py.strip e))
  ∧ ["1"; "2"; "+"] ≠ [] ∧ Forall loader_token ["1"; "2"; "+"].
Proof.
  eapply (parseInput_tokens ("1 2 +, " +:+ nl +:+ "A1") _ "A1" ["1"; "2"; "+"]).
  - vm_compute. reflexivity.
  - vm_compute. reflexivity.
Defined.

(** ** The values of an evaluation *)

Section Values.

Variable limit : Z.
Variable exprs : gmap string (list string).

(** A loop over one token that ends normally resolved a reference or read
    a number. *)
Lemma tokenLoop_one_Ret resolve cell ops op st v st' :
  tokenLoop limit resolve cell ops [op] [] st = Ret ([v], st') →
  is_operator op = false
  ∧ ((is_reference op ∧ resolve op st = Ret (v, st'))
     ∨ (¬ is_reference op ∧ match_number op = true ∧ st' = st
        ∧ ∃ f, Py.float op = Ret f ∧ v = PyFloat f)).
Proof.
  simpl. destruct (_ >? _); [done|].
  destruct (is_operator op) eqn:Hop; [done|]. split; [done|]. revert H.
  destruct (isCellReference op) as [b| |] eqn:Hb; simpl; [|done..].
  destruct (truthy b) eqn:Ht.
  - destruct (resolve op st) as [[val st1]| |] eqn:Hres; simpl; [|done..].
    intros [= <- <-]. left. split; [by exists b|done].
  - destruct (match_number op) eqn:Hm; [|done].
    destruct (Py.float op) as [f| |] eqn:Hf; [|done..].
    intros [= <- <-]. right. split; [|eauto].
    intros (b' & Hb' & Ht'). congruence.
Qed.

(** The entries of an evaluated Value Map stay right when the map grows
    by values of cells that have an expression. *)
Lemma token_value_grows vm vm' op v :
  vm ⊆ vm' → (∀ k, k ∈ dom vm' → k ∈ dom vm ∨ k ∈ dom exprs) →
  (is_reference op → vm !! op = None → exprs !! op = None) →
  token_value vm op v →
  token_value vm' op v
  ∧ (is_reference op → vm' !! op = None → exprs !! op = None).
Proof.
  intros Hsub Hnew Hblank Hv.
  assert (is_reference op → vm' !! op = vm !! op) as Hsame.
  { intros Href. destruct (vm !! op) as [w|] eqn:Hw.
    - by eapply lookup_weaken.
    - apply not_elem_of_dom. intros Hin. apply Hnew in Hin as [Hin|Hin].
      + by apply not_elem_of_dom in Hw.
      + apply elem_of_dom in Hin as [??]. rewrite Hblank in H; done. }
  split.
  - destruct Hv as [[Href ->]|Hv]; [left|by right].
    split; [done|]. by rewrite Hsame.
  - intros Href. rewrite Hsame by done. by apply Hblank.
Qed.

Lemma evaluated_grows vm vm' :
  vm ⊆ vm' → (∀ k, k ∈ dom vm' → k ∈ dom vm ∨ k ∈ dom exprs) →
  evaluated exprs vm →
  ∀ cell ops v, exprs !! cell = Some ops → vm !! cell = Some v →
    ∃ op, ops = [op] ∧ is_operator op = false ∧ token_value vm' op v
          ∧ (is_reference op → vm' !! op = None → exprs !! op = None).
Proof.
  intros Hsub Hnew Hvm cell ops v Hops Hv.
  destruct (Hvm cell ops v Hops Hv) as (op & -> & Hop & Hval & Hblank).
  exists op. split; [done|]. split; [done|]. by eapply token_value_grows.
Qed.

(** [evaluateDFS] keeps the Value Map evaluated. *)
Lemma evaluateDFS_evaluated fuel cell st v st' :
  evaluateDFS limit exprs fuel cell st = Ret (v, st') →
  evaluated exprs st.2 → evaluated exprs st'.2.
Proof.
  revert cell st v st'. induction fuel as [|fuel IH]; [done|].
  intros cell [visiting vm] v st' H Hvm.
  apply evaluateDFS_Ret in H
    as [[_ ->]|[(_ & _ & _ & _ & ->)|(Hmemo & Hvis & ops & vis' & vm' & Hops & Hloop & Hin & ->)]];
    [done..|].
  simpl in Hvm. simpl.
  pose proof (tokenLoop_Ret_length _ _ _ _ _ _ _ _ _ Hloop) as Hlen.
  destruct ops as [|op [|??]]; simpl in Hlen; [lia| |lia].
  pose proof Hloop as Hev.
  apply (tokenLoop_Ret_rel _ _ _ _ (evolves exprs)) in Hev;
    [|intros ?????; by eapply evaluateDFS_evolves].
  destruct Hev as (Hv' & Hsub & Hnew). simpl in Hv', Hsub, Hnew. subst vis'.
  assert (vm' !! cell = None) as Hfresh.
  { apply not_elem_of_dom. intros Hk. apply Hnew in Hk as [Hk|[_ Hk]].
    - by apply not_elem_of_dom in Hmemo.
    - set_solver. }
  apply tokenLoop_one_Ret in Hloop as [Hop Hloop].
  assert (evaluated exprs vm'
          ∧ token_value vm' op v
          ∧ (is_reference op → vm' !! op = None → exprs !! op = None))
    as (Hvm' & Hval & Hblank).
  { destruct Hloop as [[Href Hres]|(Hnref & Hm & [= <-] & f & Hf & ->)].
    - split; [by apply (IH _ _ _ _ Hres)|].
      destruct fuel as [|fuel']; [done|].
      apply evaluateDFS_Ret in Hres
        as [[Hw [= <-]]|[(Hw & _ & He & -> & [= <-])|(Hw & Hnv & ops' & vis1 & vm1 & Hops' & _ & _ & [= _ ->])]].
      + split; [left; by rewrite Hw|]. intros _. by rewrite Hw.
      + split; [left; by rewrite Hw|done].
      + unfold token_value. rewrite lookup_insert_eq. split; [by left|done].
    - split; [done|]. split; [right; eauto|done]. }
  assert (∀ t, is_reference t → (vm' !! t = None → exprs !! t = None) →
               t ≠ cell) as Hne.
  { intros t _ Ht ->. rewrite Ht in Hops; done. }
  intros c ops0 w Hops0. destruct (decide (c = cell)) as [->|Hc].
  - rewrite lookup_insert_eq. intros [= <-].
    rewrite Hops in Hops0. injection Hops0 as <-.
    exists op. split; [done|]. split; [done|].
    destruct Hval as [[Href ->]|Hval].
    + pose proof (Hne op Href (Hblank Href)). split.
      * left. split; [done|]. by rewrite lookup_insert_ne.
      * intros _. rewrite lookup_insert_ne by done. by apply Hblank.
    + split; [by right|]. intros Href. by destruct Hval as [Hnref _].
  - rewrite lookup_insert_ne by done. intros Hw.
    destruct (Hvm' c ops0 w Hops0 Hw) as (op' & -> & Hop' & Hval' & Hblank').
    exists op'. split; [done|]. split; [done|].
    destruct Hval' as [[Href ->]|Hval'].
    + pose proof (Hne op' Href (Hblank' Href)). split.
      * left. split; [done|]. by rewrite lookup_insert_ne.
      * intros _. rewrite lookup_insert_ne by done. by apply Hblank'.
    + split; [by right|]. intros Href. by destruct Hval' as [Hnref _].
Qed.

Lemma evaluate_row_evaluated fuel row vm vm' :
  evaluate_row limit exprs fuel row vm = Ret vm' →
  evaluated exprs vm → evaluated exprs vm'.
Proof.
  revert vm. induction row as [|cell row IH]; intros vm; simpl.
  { by intros [= <-]. }
  destruct (exprs !! cell); [|apply IH].
  destruct (evaluateDFS _ _ _ _ _) as [[v [vis vm1]]| |] eqn:Hdfs; simpl; [|done..].
  intros H Hvm. apply (IH _ H). by apply evaluateDFS_evaluated in Hdfs.
Qed.

Lemma evaluate_rows_evaluated fuel g vm vm' :
  evaluate_rows limit exprs fuel g vm = Ret vm' →
  evaluated exprs vm → evaluated exprs vm'.
Proof.
  revert vm. induction g as [|row g IH]; intros vm; simpl.
  { by intros [= <-]. }
  destruct (evaluate_row _ _ _ _ _) as [vm1| |] eqn:Hrow; simpl; [|done..].
  intros H Hvm. apply (IH _ H). by eapply evaluate_row_evaluated.
Qed.

End Values.

(** ** The errors of an evaluation *)

Lemma isCellReference_Raise (op : string) (e : pyexn) :
  isCellReference op = Raise e → ∃ row, e = ValueError row.
Proof.
  unfold isCellReference. repeat (case_bool_decide; [done|]).
  destruct (negb _); [done|].
  unfold Py.int. repeat case_match; simpl; try done; intros [= <-]; eauto.
Qed.

Lemma isCellReference_fuel (op : string) : isCellReference op ≠ OutOfFuel.
Proof.
  unfold isCellReference. repeat (case_bool_decide; [done|]).
  destruct (negb _); [done|].
  unfold Py.int. by repeat case_match.
Qed.

Lemma float_operator (op : string) (f : spec_float) :
  is_operator op = true → Py.float op ≠ Ret f.
Proof.
  unfold is_operator. rewrite bool_decide_eq_true.
  rewrite !elem_of_cons, elem_of_nil.
  intros [->|[->|[->|[->|[]]]]]; discriminate.
Qed.

(** A loop that ends normally met no operator. *)
Lemma tokenLoop_Ret_no_operator limit resolve cell ops todo queue st queue' st' :
  tokenLoop limit resolve cell ops todo queue st = Ret (queue', st') →
  Forall (λ t, is_operator t = false) todo.
Proof.
  revert queue st. induction todo as [|op todo IH]; intros queue st H.
  { constructor. }
  apply tokenLoop_cons_Ret in H as [_ H].
  destruct H as [(Href & val & st1 & _ & H)|(_ & f & Hf & H)];
    (constructor; [|by eapply IH]).
  - by apply is_reference_not_operator.
  - destruct (is_operator op) eqn:Hop; [|done]. by apply float_operator in Hf.
Qed.

Section Errors.

Variable limit : Z.
Variable exprs : gmap string (list string).
Hypothesis Htokens : ∀ cell ops, exprs !! cell = Some ops → Forall loader_token ops.

Local Abbreviation reported e :=
  (truthful limit exprs e ∨ ∃ x, e = Exception ("Circular reference at " +:+ x)).

(** An error of the loop is an error of a call of [resolve], or it says
    what is wrong with the tokens of the cell. *)
Lemma tokenLoop_Raise resolve cell ops :
  exprs !! cell = Some ops →
  (∀ c st e, resolve c st = Raise e → reported e) →
  ∀ todo pre queue st e,
    ops = pre ++ todo → length queue = length pre →
    Forall (λ t, is_operator t = false) pre →
    tokenLoop limit resolve cell ops todo queue st = Raise e → reported e.
Proof.
  intros Hops Hres todo.
  induction todo as [|op todo IH]; intros pre queue st e Hsplit Hlen Hpre; [done|].
  assert (op ∈ ops) as Hin by (subst ops; set_solver).
  assert (is_operator op = false → ∀ val st1 e,
            tokenLoop limit resolve cell ops todo (queue ++ [val]) st1 = Raise e →
            reported e) as Hnext.
  { intros Hop val st1 e'. apply (IH (pre ++ [op])).
    - by rewrite <-app_assoc.
    - rewrite !length_app. simpl. lia.
    - apply Forall_app. split; [done|]. by apply Forall_singleton. }
  simpl. destruct (Z.gtb_spec (Z.of_nat (length ops)) limit) as [Hgt|Hle].
  { intros [= <-]. left. by apply (expression_too_long _ _ cell ops). }
  destruct (is_operator op) eqn:Hop.
  { rewrite Hsplit in Hops.
    destruct (Z.ltb_spec (Z.of_nat (length queue)) 2) as [Hlt|Hge].
    - intros [= <-]. left.
      apply (insufficient_operands _ _ cell pre op todo); [done..|lia].
    - rewrite calculate_operands by done. simpl. intros [= <-]. left.
      apply (operator_operands _ _ cell pre op todo); [done..|lia]. }
  destruct (isCellReference op) as [b|e0|] eqn:Hb; simpl; [| |done].
  2:{ intros [= <-]. destruct (isCellReference_Raise _ _ Hb) as [row ->].
      left. by apply (reference_row _ _ cell ops op row). }
  destruct (truthy b) eqn:Ht.
  - destruct (resolve op st) as [[val st1]|e1|] eqn:Hr; simpl; [| |done].
    + by apply Hnext.
    + intros [= <-]. by eapply Hres.
  - destruct (match_number op) eqn:Hm.
    + assert (loader_token op) as Htoken.
      { pose proof (Htokens cell ops Hops) as Hall.
        rewrite Forall_forall in Hall. by apply Hall. }
      destruct (float_numeral op) as [f ->]; [done|done| |by apply Hnext].
      by apply match_number_numeral.
    + intros [= <-]. left.
      apply (invalid_token _ _ cell ops op); [done..| |done].
      intros (b' & Hb' & Ht'). congruence.
Qed.

(** An error of [evaluateDFS] is the circular-reference error, or it says
    what is wrong with the tokens of a cell. *)
Lemma evaluateDFS_Raise fuel cell st e :
  evaluateDFS limit exprs fuel cell st = Raise e → reported e.
Proof.
  revert cell st e. induction fuel as [|fuel IH]; [done|].
  intros cell [visiting vm] e. simpl.
  destruct (vm !! cell); [done|].
  case_bool_decide as Hvis.
  { intros [= <-]. right. eauto. }
  destruct (exprs !! cell) as [ops|] eqn:Hops; [|done].
  destruct (tokenLoop _ _ _ _ _ _ _) as [[queue [vis' vm']]|e0|] eqn:Hloop;
    simpl; [| |done].
  - pose proof (tokenLoop_Ret_length _ _ _ _ _ _ _ _ _ Hloop) as Hlen.
    pose proof (tokenLoop_Ret_no_operator _ _ _ _ _ _ _ _ _ Hloop) as Hnop.
    apply (tokenLoop_Ret_rel _ _ _ _ (evolves exprs)) in Hloop as (Hv & _);
      [|intros ?????; by eapply evaluateDFS_evolves].
    simpl in Hv, Hlen.
    destruct queue as [|r [|??]].
    + intros [= <-]. left. apply (invalid_expression _ _ cell ops); [done| |done].
      simpl in Hlen. lia.
    + case_bool_decide as Hin; [done|]. exfalso. apply Hin. set_solver.
    + intros [= <-]. left. apply (invalid_expression _ _ cell ops); [done| |done].
      simpl in Hlen. lia.
  - intros [= <-].
    by apply (tokenLoop_Raise _ cell ops Hops IH ops [] [] _ e0 eq_refl eq_refl
                (Forall_nil_2 _) Hloop).
Qed.

Lemma evaluate_row_Raise fuel row vm e :
  evaluate_row limit exprs fuel row vm = Raise e → truthful limit exprs e.
Proof.
  revert vm. induction row as [|cell row IH]; intros vm; simpl; [done|].
  destruct (exprs !! cell); [|apply IH].
  destruct (evaluateDFS _ _ _ _ _) as [[v [vis vm1]]| |] eqn:Hdfs;
    simpl; [apply IH| |done].
  intros [= <-].
  destruct (evaluateDFS_Raise _ _ _ _ Hdfs) as [He|[x ->]]; [done|].
  apply circular_reference. eapply evaluateDFS_circular; [|exact Hdfs].
  intros k Hk. by apply not_elem_of_empty in Hk.
Qed.

Lemma evaluate_rows_Raise fuel g vm e :
  evaluate_rows limit exprs fuel g vm = Raise e → truthful limit exprs e.
Proof.
  revert vm. induction g as [|row g IH]; intros vm; simpl; [done|].
  destruct (evaluate_row _ _ _ _ _) as [vm1| |] eqn:Hrow; simpl; [apply IH| |done].
  intros [= <-]. by apply evaluate_row_Raise in Hrow.
Qed.

End Errors.

(** ** Runs *)

Lemma loaded_evaluated (text : string) (self : SpreadsheetEval) :
  parseInput init text = Ret self → evaluated (exprMap self) (valMap self).
Proof.
  intros Hparse cell ops v Hops Hv.
  pose proof (parseInput_loaded _ _ Hparse) as (_ & Hdisj & _).
  exfalso. apply (Hdisj cell); apply elem_of_dom; eauto.
Qed.

Lemma evaluate_fields (self self' : SpreadsheetEval) :
  evaluate self = Ret self' →
  exprMap self' = exprMap self ∧ grid self' = grid self
  ∧ maxTokensPerCell self' = maxTokensPerCell self
  ∧ maxCells self' = maxCells self
  ∧ evaluate_rows (maxTokensPerCell self) (exprMap self)
      (S (size (exprMap self))) (grid self) (valMap self) = Ret (valMap self').
Proof.
  unfold evaluate.
  destruct (evaluate_rows _ _ _ _ _) as [vm| |]; simpl; [|done..].
  by intros [= <-].
Qed.

(** The values of a sheet that was evaluated. *)
Lemma evaluate_token_values (text : string) (self self' : SpreadsheetEval)
    (cell : string) (ops : list string) :
  parseInput init text = Ret self → evaluate self = Ret self' →
  exprMap self !! cell = Some ops →
  ∃ op v, ops = [op] ∧ is_operator op = false
          ∧ valMap self' !! cell = Some v ∧ token_value (valMap self') op v.
Proof.
  intros Hparse Heval Hops.
  pose proof (parseInput_loaded _ _ Hparse) as (Hgrid & _).
  apply evaluate_fields in Heval as (_ & _ & _ & _ & Hrows).
  pose proof (evaluate_rows_evaluated _ _ _ _ _ _ Hrows
                (loaded_evaluated _ _ Hparse)) as Hvm.
  apply evaluate_rows_Ret in Hrows as (_ & _ & _ & Hcells).
  assert (cell ∈ dom (exprMap self)) as Hdom by (apply elem_of_dom; eauto).
  pose proof (Hcells cell (Hgrid cell Hdom) Hdom) as Hin.
  apply elem_of_dom in Hin as [v Hv].
  destruct (Hvm cell ops v Hops Hv) as (op & -> & Hop & Hval & _).
  by exists op, v.
Qed.

Lemma parseInput_Raise (self : SpreadsheetEval) (text : string) (e : pyexn) :
  parseInput self text = Raise e →
  maxCells self < total_cells (cell_texts text)
  ∧ e = Exception
          ("Input file contains more than maximum number of allowed cells ("
           +:+ Py.str_of_int (maxCells self) +:+ ")").
Proof.
  unfold parseInput, cell_texts. intros Hparse.
  destruct (parse_rows_count 0 (Py.readlines text) 0 self) as [Hret Hraise].
  destruct (decide (total_cells (map row_cells (Py.readlines text))
                    ≤ maxCells self)) as [Hle|Hgt].
  { destruct (Hret Hle) as [self' Hself']. congruence. }
  split; [lia|].
  rewrite Hraise in Hparse; [by injection Hparse as <-| |lia].
  intros Hnil. by rewrite Hnil in Hparse.
Qed.

(** An error of the evaluation of a loaded sheet says what is wrong with
    the sheet. *)
Lemma evaluate_Raise (text : string) (self : SpreadsheetEval) (e : pyexn) :
  parseInput init text = Ret self → evaluate self = Raise e →
  truthful (maxTokensPerCell init) (exprMap self) e.
Proof.
  intros Hparse. unfold evaluate.
  destruct (evaluate_rows _ _ _ _ _) as [vm|e'|] eqn:Hrows; simpl; [done| |done].
  intros [= <-].
  assert (maxTokensPerCell self = maxTokensPerCell init) as Hlimit
    by (by apply parse_rows_fields in Hparse as [_ ?]).
  rewrite Hlimit in Hrows.
  eapply evaluate_rows_Raise; [|exact Hrows].
  intros cell ops Hops.
  by destruct (parseInput_expression _ _ _ _ Hparse Hops) as (_ & _ & ?).
Qed.

(** How a run fails: in the loader, on the cell limit, or in the
    evaluation; never in the writer. *)
Lemma main_Raise (text : string) (e : pyexn) :
  main text = Raise e →
  (maxCells init < total_cells (cell_texts text)
   ∧ e = Exception
           ("Input file contains more than maximum number of allowed cells ("
            +:+ Py.str_of_int (maxCells init) +:+ ")"))
  ∨ ∃ self, parseInput init text = Ret self ∧ evaluate self = Raise e
            ∧ truthful (maxTokensPerCell init) (exprMap self) e.
Proof.
  unfold main.
  destruct (parseInput init text) as [self|e'|] eqn:Hparse; simpl; [| |done].
  2:{ intros [= <-]. left. exact (parseInput_Raise init text e' Hparse). }
  destruct (evaluate self) as [self'|e'|] eqn:Heval; simpl; [| |done].
  - intros Hwrite. exfalso.
    destruct (main_writes _ _ _ Hparse Heval) as [_ [out Hout]].
    unfold main in Hout. rewrite Hparse in Hout. simpl in Hout.
    rewrite Heval in Hout. simpl in Hout. congruence.
  - intros [= <-]. right. exists self. split; [done|]. split; [done|].
    exact (evaluate_Raise text self e' Hparse Heval).
Qed.

(** X12. Which sheets a run evaluates. For an input that loads, the run
    returns and writes its output exactly when every expression of the
    sheet is one token, a reference or a number that is no operator, and
    no cell lies on a reference cycle. In particular no sheet with an
    operator in it is ever written. (The limits of an interpreter, on
    the depth of recursion and on the digits [int] reads, are not part
    of the model.) *)
Theorem run_returns_iff (text : string) (self : SpreadsheetEval) :
  parseInput init text = Ret self →
  (∃ out, main text = Ret out)
  ↔ (∀ cell ops, exprMap self !! cell = Some ops →
       ∃ op, ops = [op] ∧ is_operator op = false
             ∧ (is_reference op ∨ numeral op))
    ∧ ∀ cell, ¬ on_cycle (exprMap self) cell.
Proof.
  intros Hparse.
  assert (∀ cell ops op, exprMap self !! cell = Some ops → op ∈ ops →
                         loader_token op) as Htoken.
  { intros cell ops op Hops Hin.
    destruct (parseInput_expression _ _ _ _ Hparse Hops) as (_ & _ & Hall).
    rewrite Forall_forall in Hall. by apply Hall. }
  split.
  - intros [out Hout]. unfold main in Hout. rewrite Hparse in Hout.
    simpl in Hout.
    destruct (evaluate self) as [self'| |] eqn:Heval; simpl in Hout; [|done..].
    split.
    + intros cell ops Hops.
      destruct (evaluate_token_values _ _ _ _ _ Hparse Heval Hops)
        as (op & v & -> & Hop & _ & Hval).
      exists op. split; [done|]. split; [done|].
      destruct Hval as [[Href _]|(_ & Hm & _)]; [by left|right].
      apply match_number_numeral; [|done]. apply (Htoken cell [op]); [done|].
      set_solver.
    + intros cell Hcycle.
      destruct (evaluate_cycle_raises self cell) as [e He];
        [by eapply parseInput_loaded|done|congruence].
  - intros [Hone Hacyclic].
    pose proof (evaluate_total self) as Htotal.
    destruct (evaluate self) as [self'|e|] eqn:Heval; [| |done].
    { by destruct (main_writes _ _ _ Hparse Heval) as [_ ?]. }
    exfalso. apply (evaluate_Raise _ _ _ Hparse) in Heval.
    assert (∀ cell ops op, exprMap self !! cell = Some ops → op ∈ ops →
              ops = [op] ∧ is_operator op = false
              ∧ (is_reference op ∨ numeral op)) as Hop.
    { intros cell ops op Hops Hin.
      destruct (Hone cell ops Hops) as (op' & -> & Hop' & Hkind).
      apply list_elem_of_singleton in Hin as ->. done. }
    inversion Heval as [cell ops Hops Hlen|cell pre op post Hops _ Hoper _
                        |cell pre op post Hops _ Hoper _
                        |cell ops op row Hops Hin _ Hrow
                        |cell Hcycle
                        |cell ops op Hops Hin _ Hnref Hm
                        |cell ops Hops Hlen _]; subst.
    + destruct (Hone cell ops Hops) as (op & -> & _). simpl in Hlen.
      by vm_compute in Hlen.
    + destruct (Hop cell _ op Hops) as (_ & Hnop & _); [set_solver|congruence].
    + destruct (Hop cell _ op Hops) as (_ & Hnop & _); [set_solver|congruence].
    + destruct (Hop cell _ op Hops Hin) as (_ & _ & [(v & Hv & _)|Hnum]).
      * congruence.
      * apply numeral_not_reference in Hnum. congruence.
    + by apply (Hacyclic cell).
    + destruct (Hop cell _ op Hops Hin) as (_ & _ & [Href|Hnum]); [done|].
      apply match_number_numeral in Hnum; [congruence|by eapply Htoken].
    + by destruct (Hone cell ops Hops) as (op & -> & _).
Qed.

(** Evaluating a sheet that was evaluated changes nothing. *)
Lemma evaluate_row_again limit exprs fuel row vm :
  (∀ cell, cell ∈ row → cell ∈ dom exprs → cell ∈ dom vm) →
  evaluate_row limit exprs (S fuel) row vm = Ret vm.
Proof.
  induction row as [|cell row IH]; intros Hrow; [done|].
  assert (evaluate_row limit exprs (S fuel) row vm = Ret vm) as IH'.
  { apply IH. intros c Hc. apply Hrow. by right. }
  cbn [evaluate_row].
  destruct (exprs !! cell) as [ops|] eqn:Hops; [|done].
  assert (cell ∈ dom vm) as Hin.
  { apply Hrow; [by left|]. apply elem_of_dom. eauto. }
  apply elem_of_dom in Hin as [v Hv].
  rewrite (evaluateDFS_memo _ _ _ _ _ _ v) by done. exact IH'.
Qed.

Lemma evaluate_rows_again limit exprs fuel g vm :
  (∀ cell, cell ∈ grid_cells g → cell ∈ dom exprs → cell ∈ dom vm) →
  evaluate_rows limit exprs (S fuel) g vm = Ret vm.
Proof.
  induction g as [|row g IH]; intros Hg; [done|].
  cbn [evaluate_rows]. rewrite evaluate_row_again.
  - simpl. apply IH. intros c Hc. apply Hg.
    unfold grid_cells. simpl. apply elem_of_app. by right.
  - intros c Hc. apply Hg. unfold grid_cells. simpl. apply elem_of_app. by left.
Qed.

(** X8. What a successful [evaluateDFS] does to the store. The visiting
    set comes back as it was; no entry of the Value Map is changed or
    removed; every new entry belongs to a cell that has an expression and
    was not being visited; the value returned for a cell with an
    expression is stored under the cell; and for a cell without
    expression nothing is stored, the value being the empty marker unless
    the map held one. *)
Theorem evaluateDFS_frame (limit : Z) (exprs : gmap string (list string))
    (fuel : nat) (cell : string) (visiting visiting' : gset string)
    (valMap valMap' : gmap string pyval) (v : pyval) :
  evaluateDFS limit exprs fuel cell (visiting, valMap)
  = Ret (v, (visiting', valMap')) →
  visiting' = visiting
  ∧ valMap ⊆ valMap'
  ∧ (∀ k, k ∈ dom valMap' → k ∈ dom valMap ∨ (k ∈ dom exprs ∧ k ∉ visiting))
  ∧ (is_Some (exprs !! cell) → valMap' !! cell = Some v)
  ∧ (exprs !! cell = None →
     valMap' = valMap ∧ (valMap !! cell = None → v = PyStr "")).
Proof.
  intros H.
  pose proof (evaluateDFS_evolves _ _ _ _ _ _ _ H) as (Hvis & Hsub & Hnew).
  pose proof (evaluateDFS_records _ _ _ _ _ _ _ H) as Hrec.
  do 3 (split; [done|]). split; [done|].
  intros Hnone. destruct fuel as [|fuel]; [done|].
  apply evaluateDFS_Ret in H
    as [[Hv [= _ <-]]|[(_ & _ & _ & -> & [= _ <-])|(_ & _ & ops & ? & ? & Hops & _)]].
  - split; [done|]. intros ?. congruence.
  - done.
  - congruence.
Qed.

Lemma evaluateDFS_frame_witness :
  ∃ v visiting' valMap',
    evaluateDFS 100 {["A1" := ["B1"]; "B1" := ["2.5"]]} 3 "A1" (∅, ∅)
    = Ret (v, (visiting', valMap'))
    ∧ visiting' = ∅
    ∧ ∅ ⊆ valMap'
    ∧ (∀ k, k ∈ dom valMap' →
            k ∈ dom (∅ : gmap string pyval)
            ∨ (k ∈ dom ({["A1" := ["B1"]; "B1" := ["2.5"]]}
                         : gmap string (list string))
               ∧ k ∉ (∅ : gset string)))
    ∧ (is_Some (({["A1" := ["B1"]; "B1" := ["2.5"]]}
                  : gmap string (list string)) !! "A1") →
       valMap' !! "A1" = Some v)
    ∧ ((({["A1" := ["B1"]; "B1" := ["2.5"]]}
          : gmap string (list string)) !! "A1" = None) →
       valMap' = ∅ ∧ ((∅ : gmap string pyval) !! "A1" = None → v = PyStr "")).
Proof.
  do 3 eexists. split; [vm_compute; reflexivity|].
  apply (evaluateDFS_frame 100 {["A1" := ["B1"]; "B1" := ["2.5"]]} 3 "A1" ∅ _ ∅).
  vm_compute. reflexivity.
Defined.

(** X9. The values of an evaluation. When the evaluation of a loaded
    sheet returns, every cell with an expression has exactly one token,
    which is no operator, and a value: for a reference token the value
    of the cell it names after the evaluation, or the empty marker when
    that cell has no value (it is no cell of the sheet); for any other
    token, which the regular expression for numbers matches, the float
    that [float] reads from it. *)
Theorem evaluate_values (text : string) (self self' : SpreadsheetEval)
    (cell : string) (ops : list string) :
  parseInput init text = Ret self → evaluate self = Ret self' →
  exprMap self !! cell = Some ops →
  ∃ op v, ops = [op] ∧ is_operator op = false
          ∧ valMap self' !! cell = Some v ∧ token_value (valMap self') op v.
Proof. apply evaluate_token_values. Qed.

Lemma evaluate_values_witness :
  ∃ self self',
    parseInput init ("B1,-.5" +:+ nl +:+ "C7") = Ret self
    ∧ evaluate self = Ret self'
    ∧ ∃ op v, ["B1"] = [op] ∧ is_operator op = false
              ∧ valMap self' !! "A1" = Some v
              ∧ token_value (valMap self') op v.
Proof.
  do 2 eexists. split; [vm_compute; reflexivity|].
  split; [vm_compute; reflexivity|].
  eapply (evaluate_values ("B1,-.5" +:+ nl +:+ "C7") _ _ "A1" ["B1"]).
  - vm_compute. reflexivity.
  - vm_compute. reflexivity.
  - vm_compute. reflexivity.
Defined.

(** X10. Error reports are truthful. A run that fails stopped in the
    loader, because the input has more cells than the limit, or in the
    evaluation of the loaded sheet, and then the error says what holds
    of the expressions: a cell with more tokens than the limit; an
    operator after fewer than two tokens (the operand error that names
    it) or after two or more (the TypeError of its operands); a token on
    which [isCellReference] fails with a ValueError; a cell on a
    reference cycle; a token that is no operator, no reference and no
    number; or a cell without operator that has not exactly one
    token. (The limits of an interpreter, on the depth of recursion and
    on the digits [int] reads, are not part of the model.) *)
Theorem run_errors_truthful (text : string) (e : pyexn) :
  main text = Raise e →
  (maxCells init < total_cells (cell_texts text)
   ∧ e = Exception
           ("Input file contains more than maximum number of allowed cells ("
            +:+ Py.str_of_int (maxCells init) +:+ ")"))
  ∨ ∃ self, parseInput init text = Ret self ∧ evaluate self = Raise e
            ∧ truthful (maxTokensPerCell init) (exprMap self) e.
Proof. apply main_Raise. Qed.

Lemma run_errors_truthful_witness :
  (maxCells init < total_cells (cell_texts ("7 8" +:+ nl +:+ "A3 x"))
   ∧ Exception "Invalid expression in A1"
     = Exception
         ("Input file contains more than maximum number of allowed cells ("
          +:+ Py.str_of_int (maxCells init) +:+ ")"))
  ∨ ∃ self, parseInput init ("7 8" +:+ nl +:+ "A3 x") = Ret self
            ∧ evaluate self = Raise (Exception "Invalid expression in A1")
            ∧ truthful (maxTokensPerCell init) (exprMap self)
                (Exception "Invalid expression in A1").
Proof.
  apply (run_errors_truthful ("7 8" +:+ nl +:+ "A3 x")
           (Exception "Invalid expression in A1")).
  vm_compute. reflexivity.
Defined.

(** X11. Errors a run never reports. Whatever the input is, a run does
    not fail with a KeyError (neither [visiting.remove] nor the writer's
    lookup of a value misses its key), with a ZeroDivisionError or the
    "Division by zero" error of [calculate], with an UnboundLocalError,
    or with the "Error evaluating number" error: every token that the
    regular expression for numbers matches and that reaches [float] is
    read by it. *)
Theorem run_never_reports (text : string) (e : pyexn) :
  main text = Raise e →
  (∀ key, e ≠ KeyError key)
  ∧ e ≠ ZeroDivisionError
  ∧ (∀ name, e ≠ UnboundLocalError name)
  ∧ e ≠ Exception "Division by zero"
  ∧ ∀ op cell,
      e ≠ Exception ("Error evaluating number " +:+ op +:+ " in " +:+ cell).
Proof.
  intros [[_ ->]|(self & _ & _ & He)]%main_Raise.
  { repeat split; try done; intros; discriminate. }
  inversion He; subst; unfold too_long;
    (repeat split; try done; intros; discriminate).
Qed.

Lemma run_never_reports_witness :
  (∀ key, TypeError "+" TTuple TBuiltinMethod ≠ KeyError key)
  ∧ TypeError "+" TTuple TBuiltinMethod ≠ ZeroDivisionError
  ∧ (∀ name, TypeError "+" TTuple TBuiltinMethod ≠ UnboundLocalError name)
  ∧ TypeError "+" TTuple TBuiltinMethod ≠ Exception "Division by zero"
  ∧ ∀ op cell,
      TypeError "+" TTuple TBuiltinMethod
      ≠ Exception ("Error evaluating number " +:+ op +:+ " in " +:+ cell).
Proof.
  apply (run_never_reports "1 0 +" (TypeError "+" TTuple TBuiltinMethod)).
  vm_compute. reflexivity.
Defined.

Lemma run_returns_iff_witness :
  ∃ self, parseInput init ("B1,-.5" +:+ nl +:+ "C7") = Ret self
    ∧ ((∃ out, main ("B1,-.5" +:+ nl +:+ "C7") = Ret out)
       ↔ (∀ cell ops, exprMap self !! cell = Some ops →
            ∃ op, ops = [op] ∧ is_operator op = false
                  ∧ (is_reference op ∨ numeral op))
         ∧ ∀ cell, ¬ on_cycle (exprMap self) cell).
Proof.
  eexists. split; [vm_compute; reflexivity|].
  apply (run_returns_iff ("B1,-.5" +:+ nl +:+ "C7")). vm_compute. reflexivity.
Defined.

(** What [evaluate] does to the object. *)
Lemma evaluate_Ret (self self' : SpreadsheetEval) :
  evaluate self = Ret self' →
  exprMap self' = exprMap self ∧ grid self' = grid self
  ∧ maxTokensPerCell self' = maxTokensPerCell self
  ∧ maxCells self' = maxCells self
  ∧ valMap self ⊆ valMap self'
  ∧ (∀ k, k ∈ dom (valMap self') →
          k ∈ dom (valMap self) ∨ k ∈ dom (exprMap self))
  ∧ (∀ cell, cell ∈ grid_cells (grid self) → cell ∈ dom (exprMap self) →
             cell ∈ dom (valMap self')).
Proof.
  intros (He & Hg & Ht & Hc & Hrows)%evaluate_fields.
  apply evaluate_rows_Ret in Hrows as (Hsub & Hnew & _ & Hcells).
  done.
Qed.

(** X13. What [evaluate] changes. When [evaluate] returns, on any object,
    the grid, the Expression Map and the two limits are as they were; no
    entry of the Value Map was changed or removed; every new entry
    belongs to a cell with an expression; and every cell of the grid
    that has an expression now has a value. *)
Theorem evaluate_frame (self self' : SpreadsheetEval) :
  evaluate self = Ret self' →
  exprMap self' = exprMap self ∧ grid self' = grid self
  ∧ maxTokensPerCell self' = maxTokensPerCell self
  ∧ maxCells self' = maxCells self
  ∧ valMap self ⊆ valMap self'
  ∧ (∀ k, k ∈ dom (valMap self') →
          k ∈ dom (valMap self) ∨ k ∈ dom (exprMap self))
  ∧ (∀ cell, cell ∈ grid_cells (grid self) → cell ∈ dom (exprMap self) →
             cell ∈ dom (valMap self')).
Proof. apply evaluate_Ret. Qed.

Lemma evaluate_frame_witness :
  ∃ self self',
    parseInput init ("B1,-.5" +:+ nl +:+ "C7") = Ret self
    ∧ evaluate self = Ret self'
    ∧ exprMap self' = exprMap self ∧ grid self' = grid self
    ∧ maxTokensPerCell self' = maxTokensPerCell self
    ∧ maxCells self' = maxCells self
    ∧ valMap self ⊆ valMap self'
    ∧ (∀ k, k ∈ dom (valMap self') →
            k ∈ dom (valMap self) ∨ k ∈ dom (exprMap self))
    ∧ (∀ cell, cell ∈ grid_cells (grid self) → cell ∈ dom (exprMap self) →
               cell ∈ dom (valMap self')).
Proof.
  do 2 eexists. split; [vm_compute; reflexivity|].
  split; [vm_compute; reflexivity|].
  apply evaluate_frame. vm_compute. reflexivity.
Defined.

(** X14. Evaluating twice. When [evaluate] returns, on any object, a
    second [evaluate] of the result returns the same object: every cell
    of the grid with an expression has its value, so every resolve is
    answered from the Value Map. *)
Theorem evaluate_idempotent (self self' : SpreadsheetEval) :
  evaluate self = Ret self' → evaluate self' = Ret self'.
Proof.
  intros Heval.
  pose proof (evaluate_Ret _ _ Heval) as (He & Hg & _ & _ & _ & _ & Hcells).
  unfold evaluate. rewrite He, Hg, evaluate_rows_again by done. simpl.
  f_equal. unfold evaluate in Heval.
  destruct (evaluate_rows _ _ _ _ _); simpl in Heval; [|done..].
  by injection Heval as <-.
Qed.

Lemma evaluate_idempotent_witness :
  ∃ self self',
    parseInput init ("B1,-.5" +:+ nl +:+ "C7") = Ret self
    ∧ evaluate self = Ret self'
    ∧ evaluate self' = Ret self'.
Proof.
  do 2 eexists. split; [vm_compute; reflexivity|].
  match goal with
  | |- evaluate ?s = _ ∧ _ =>
      split; [vm_compute; reflexivity|apply (evaluate_idempotent s)]
  end.
  vm_compute. reflexivity.
Defined.

(** ** The writer *)

Lemma write_cells_spec self row :
  write_cells self row
  = match missing self row with
    | cell :: _ => Raise (KeyError cell)
    | [] => Ret (written_row self row)
    end.
Proof.
  unfold missing. induction row as [|cell row IH]; simpl; [done|].
  destruct (valMap self !! cell) as [v|] eqn:Hv.
  - rewrite filter_cons_False by (by rewrite Hv). rewrite IH.
    by destruct (filter _ row).
  - by rewrite filter_cons_True.
Qed.

Lemma write_rows_spec self rows out :
  write_rows self rows out
  = match missing self (grid_cells rows) with
    | cell :: _ => Raise (KeyError cell)
    | [] => Ret (out +:+ lines_text (map (written_row self) rows))
    end.
Proof.
  revert out. unfold missing, grid_cells.
  induction rows as [|row rows IH]; intros out; simpl.
  { by rewrite string_app_nil_r. }
  rewrite write_cells_spec, filter_app. unfold missing.
  destruct (filter _ row) as [|cell cells]; simpl; [|done].
  rewrite IH. destruct (filter _ (concat rows)); [|done].
  by rewrite !string_app_assoc.
Qed.

(** X15. What [writeOutput] writes. When every cell of the grid has a
    value, the text is one line for every row of the grid, in order:
    [str] of the values of the cells of the row, joined with commas, and
    a newline. Otherwise it raises the KeyError of the first cell of the
    grid, in reading order, that has no value. *)
Theorem writeOutput_spec (self : SpreadsheetEval) :
  writeOutput self
  = match missing self (grid_cells (grid self)) with
    | cell :: _ => Raise (KeyError cell)
    | [] => Ret (lines_text (written self))
    end.
Proof. unfold writeOutput. by rewrite write_rows_spec. Qed.

(** ** The values of cells, again *)

Section CellValues.

Variable limit : Z.
Variable exprs : gmap string (list string).

Local Abbreviation all_values vm :=
  (map_Forall (λ (_ : string) v, cell_value v) vm).

Lemma tokenLoop_values resolve cell ops :
  (∀ c st v st', resolve c st = Ret (v, st') →
     all_values st.2 → cell_value v ∧ all_values st'.2) →
  ∀ todo queue st queue' st',
    tokenLoop limit resolve cell ops todo queue st = Ret (queue', st') →
    Forall cell_value queue → all_values st.2 →
    Forall cell_value queue' ∧ all_values st'.2.
Proof.
  intros Hres todo.
  induction todo as [|op todo IH]; intros queue st queue' st' H Hq Hst.
  { by injection H as <- <-. }
  apply tokenLoop_cons_Ret in H as [_ H].
  destruct H as [(_ & val & st1 & H1 & H2)|(_ & f & _ & H2)].
  - destruct (Hres _ _ _ _ H1 Hst) as [Hval Hst1].
    apply (IH _ _ _ _ H2); [|done].
    apply Forall_app. split; [done|]. by apply Forall_singleton.
  - apply (IH _ _ _ _ H2); [|done].
    apply Forall_app. split; [done|]. apply Forall_singleton. right. eauto.
Qed.

(** [evaluateDFS] returns floats and empty markers, and stores nothing
    else. *)
Lemma evaluateDFS_values fuel cell st v st' :
  evaluateDFS limit exprs fuel cell st = Ret (v, st') →
  all_values st.2 → cell_value v ∧ all_values st'.2.
Proof.
  revert cell st v st'. induction fuel as [|fuel IH]; [done|].
  intros cell [visiting valMap] v st' H Hst. simpl in Hst.
  apply evaluateDFS_Ret in H
    as [[Hv ->]|[(_ & _ & _ & -> & ->)|(_ & _ & ops & vis' & vm' & _ & Hloop & _ & ->)]].
  - split; [|done]. by apply (Hst cell).
  - split; [by left|done].
  - apply tokenLoop_values in Hloop as [Hq Hvm];
      [|exact IH|by apply Forall_nil|exact Hst].
    rewrite Forall_singleton in Hq. split; [exact Hq|].
    simpl. by apply map_Forall_insert_2.
Qed.

Lemma evaluate_row_values fuel row valMap valMap' :
  evaluate_row limit exprs fuel row valMap = Ret valMap' →
  all_values valMap → all_values valMap'.
Proof.
  revert valMap. induction row as [|cell row IH]; intros valMap; simpl.
  { by intros [= <-]. }
  destruct (exprs !! cell); [|apply IH].
  destruct (evaluateDFS _ _ _ _ _) as [[v [vis vm1]]| |] eqn:Hdfs; simpl; [|done..].
  intros H Hvm. apply (IH _ H). by apply evaluateDFS_values in Hdfs as [_ ?].
Qed.

Lemma evaluate_rows_values fuel g valMap valMap' :
  evaluate_rows limit exprs fuel g valMap = Ret valMap' →
  all_values valMap → all_values valMap'.
Proof.
  revert valMap. induction g as [|row g IH]; intros valMap; simpl.
  { by intros [= <-]. }
  destruct (evaluate_row _ _ _ _ _) as [vm1| |] eqn:Hrow; simpl; [|done..].
  intros H Hvm. apply (IH _ H). by eapply evaluate_row_values.
Qed.

End CellValues.

(** After the evaluation of a loaded sheet every value is a float or the
    empty marker. *)
Lemma evaluate_cell_values (text : string) (self self' : SpreadsheetEval) :
  parseInput init text = Ret self → evaluate self = Ret self' →
  ∀ cell v, valMap self' !! cell = Some v → cell_value v.
Proof.
  intros Hparse Heval.
  pose proof (parseInput_loaded _ _ Hparse) as (_ & Hdisj & Hblank & _).
  unfold evaluate in Heval.
  destruct (evaluate_rows _ _ _ _ _) as [vm| |] eqn:Hrows; simpl in Heval;
    [|done..].
  injection Heval as <-. simpl.
  apply evaluate_rows_values in Hrows; [exact Hrows|].
  intros cell v Hv. left. apply (Hblank cell v Hv).
  apply not_elem_of_dom. intros Hin.
  apply (Hdisj cell); [|done]. apply elem_of_dom. eauto.
Qed.

(** ** The text of a float *)

Lemma all_rev p (s : string) : Py.all p (String.rev s) = Py.all p s.
Proof. unfold String.rev. by rewrite all_rev_app, andb_true_r. Qed.

Lemma all_strip_zeros_rev p (s : string) :
  Py.all p s = true → Py.all p (Py.strip_zeros_rev s) = true.
Proof.
  induction s as [|c s IH]; [done|]. intros Hs.
  pose proof Hs as Hs'. simpl in Hs'. apply andb_true_iff in Hs' as [_ Htl].
  simpl. repeat case_match; auto.
Qed.

Lemma all_zeros p n : p "0"%char = true → Py.all p (Py.zeros n) = true.
Proof. intros H0. induction n as [|n IH]; simpl; [done|]. by rewrite H0, IH. Qed.

Lemma all_take p n (s : string) :
  Py.all p s = true → Py.all p (Py.take n s) = true.
Proof.
  revert s. induction n as [|n IH]; intros [|c s]; simpl; try done.
  rewrite !andb_true_iff. intros [??]. auto.
Qed.

Lemma pretty_N_float_chars (n : N) : Py.all float_char (pretty n) = true.
Proof.
  unfold pretty, pretty_N. case_decide; [done|].
  destruct (pretty_N_go_digits n "") as (pre & -> & Hpre & _).
  rewrite string_app_nil_r. eapply all_impl; [|exact Hpre].
  intros c Hc. unfold float_char. by rewrite Hc.
Qed.

Lemma pretty_Z_float_chars (z : Z) : Py.all float_char (pretty z) = true.
Proof.
  unfold pretty, pretty_Z. destruct z as [|p|p]; [done|..].
  - apply pretty_N_float_chars.
  - rewrite all_app. simpl. apply pretty_N_float_chars.
Qed.

Lemma exponent_text_float_chars (k : Z) :
  Py.all float_char (Py.exponent_text k) = true.
Proof.
  unfold Py.exponent_text.
  pose proof (pretty_Z_float_chars (Z.abs k)) as Ha.
  rewrite all_app. apply andb_true_iff. split; [by destruct (k <? 0)|].
  destruct (Z.abs k <? 10); [|done]. by rewrite all_app, Ha.
Qed.

Lemma format_short_float_chars (digits : string) (decpt : Z) :
  Py.all float_char digits = true →
  Py.all float_char (Py.format_short digits decpt) = true.
Proof.
  intros Hd. unfold Py.format_short.
  destruct (_ || _).
  { rewrite !all_app, exponent_text_float_chars, andb_true_r.
    destruct digits as [|c [|c' ds]]; [done..|].
    simpl in *. apply andb_true_iff in Hd as [-> Hd]. by rewrite Hd. }
  destruct (decpt <=? 0).
  { by rewrite !all_app, all_zeros, Hd. }
  destruct (_ <=? decpt).
  { by rewrite !all_app, all_zeros, Hd. }
  rewrite !all_app, all_take, all_slice_from by done. done.
Qed.

(** The text of a float has digits, a point, a sign, an [e], or the
    letters of [inf] and [nan], and nothing else. *)
Lemma float_repr_chars (x : spec_float) :
  Py.all float_char (Py.float_repr x) = true.
Proof.
  destruct x as [[]|[]| |neg m e]; try reflexivity.
  unfold Py.float_repr.
  destruct (Py.shortest_decimal m e) as [digits decpt] eqn:Hs.
  assert (Py.all float_char digits = true) as Hd.
  { unfold Py.shortest_decimal in Hs.
    destruct (if 0 <=? e then _ else _) as [num den].
    destruct (Py.shortest_digits _ _ _ _ _ _) as [D n].
    injection Hs as <- _.
    rewrite all_rev. apply all_strip_zeros_rev. rewrite all_rev.
    apply pretty_Z_float_chars. }
  rewrite all_app, format_short_float_chars by done. by destruct neg.
Qed.

Lemma float_char_field (c : ascii) :
  float_char c = true →
  Py.isspace c = false ∧ c ≠ ","%char ∧ c ≠ "010"%char.
Proof. by_cases_on_char c. Qed.

(** ** Reading back what was written *)

(** The characters of a written line: those of a float, and the comma. *)
Local Abbreviation line_char :=
  (λ c : ascii, float_char c || bool_decide (c = ","%char)).

Lemma line_char_no_space (c : ascii) :
  line_char c = true → Py.isspace c = false ∧ c ≠ "010"%char.
Proof. by_cases_on_char c. Qed.

Lemma all_join p (row : list string) :
  p ","%char = true → Forall (λ w, Py.all p w = true) row →
  Py.all p (Py.join "," row) = true.
Proof.
  intros Hsep. induction row as [|w [|w' ws] IH]; intros Hrow; [done|..].
  - rewrite Forall_singleton in Hrow. exact Hrow.
  - apply Forall_cons in Hrow as [Hw Hrest].
    change (Py.join "," (w :: w' :: ws))
      with (w +:+ "," +:+ Py.join "," (w' :: ws)).
    rewrite !all_app, Hw, (IH Hrest). simpl. by rewrite Hsep.
Qed.

Lemma rev_app_app (s t u : string) :
  String.rev_app (s +:+ t) u = String.rev_app t (String.rev_app s u).
Proof. revert u. induction s as [|c s IH]; intros u; simpl; [done|]. apply IH. Qed.

Lemma readlines_line (line rest : string) :
  Py.all (λ c, negb (bool_decide (c = "010"%char))) line = true →
  Py.readlines (line +:+ nl +:+ rest) = (line +:+ nl) :: Py.readlines rest.
Proof.
  induction line as [|c line IH]; intros Hline.
  { reflexivity. }
  simpl in Hline. apply andb_true_iff in Hline as [Hc Hline].
  rewrite string_app_cons. cbn [Py.readlines].
  rewrite (IH Hline). apply negb_true_iff in Hc. rewrite Hc.
  by rewrite string_app_cons.
Qed.

(** [strip] of a line without white space takes its newline away. *)
Lemma strip_line (line : string) :
  Py.all (λ c, negb (Py.isspace c)) line = true → Py.strip (line +:+ nl) = line.
Proof.
  intros Hline. unfold Py.strip.
  assert (Py.rstrip (line +:+ nl) = line) as Hr.
  { unfold Py.rstrip, String.rev. rewrite rev_app_app. simpl.
    rewrite lstrip_no_space.
    - apply rev_involutive.
    - by rewrite (all_rev _ line). }
  destruct line as [|c line]; [reflexivity|].
  pose proof Hline as Hc. simpl in Hc. apply andb_true_iff in Hc as [Hc _].
  apply negb_true_iff in Hc.
  assert (Py.lstrip (String c line +:+ nl) = String c line +:+ nl) as ->.
  { rewrite string_app_cons. simpl. by rewrite Hc. }
  exact Hr.
Qed.

Lemma split_by_word sep (w : string) :
  Py.all (λ c, negb (sep c)) w = true → Py.split_by sep w = [w].
Proof.
  induction w as [|c w IH]; [done|]. simpl.
  intros [Hc Hw]%andb_true_iff. apply negb_true_iff in Hc.
  by rewrite Hc, (IH Hw).
Qed.

Lemma split_by_app sep (w : string) (c : ascii) (rest : string) :
  Py.all (λ c, negb (sep c)) w = true → sep c = true →
  Py.split_by sep (w +:+ String c rest) = w :: Py.split_by sep rest.
Proof.
  intros Hw Hc. induction w as [|a w IH].
  { simpl. by rewrite Hc. }
  simpl in Hw. apply andb_true_iff in Hw as [Ha Hw]. apply negb_true_iff in Ha.
  rewrite string_app_cons. cbn [Py.split_by]. by rewrite Ha, (IH Hw).
Qed.

(** Cutting a joined row at its commas gives the fields back, when there
    is a field and no field has a comma. *)
Lemma split_on_join (row : list string) :
  row ≠ [] →
  Forall (λ w, Py.all (λ c, negb (bool_decide (c = ","%char))) w = true) row →
  Py.split_on "," (Py.join "," row) = row.
Proof.
  unfold Py.split_on.
  induction row as [|w [|w' ws] IH]; intros Hne Hrow; [done|..].
  - rewrite Forall_singleton in Hrow. by apply split_by_word.
  - apply Forall_cons in Hrow as [Hw Hrest].
    change (Py.join "," (w :: w' :: ws))
      with (w +:+ String "," (Py.join "," (w' :: ws))).
    rewrite split_by_app by done. f_equal. by apply IH.
Qed.

(** A row the writer can be read back: it has a field, and its fields
    are texts of floats or empty. *)
Local Abbreviation readable :=
  (λ row : list string,
     row ≠ [] ∧ Forall (λ w, Py.all float_char w = true) row).

Lemma row_cells_written (row : list string) :
  readable row → row_cells (Py.join "," row +:+ nl) = row.
Proof.
  intros [Hne Hrow]. unfold row_cells. rewrite strip_line.
  - apply split_on_join; [done|].
    eapply Forall_impl; [exact Hrow|]. intros w Hw. simpl.
    eapply all_impl; [|exact Hw].
    intros c Hc. apply float_char_field in Hc as (_ & Hc & _).
    by rewrite bool_decide_false.
  - eapply all_impl; [|apply (all_join line_char)].
    + intros c Hc. apply line_char_no_space in Hc as [-> _]. done.
    + reflexivity.
    + eapply Forall_impl; [exact Hrow|]. intros w Hw. simpl.
      eapply all_impl; [|exact Hw]. intros c Hc. simpl. by rewrite Hc.
Qed.

(** The loader reads written lines as they were written. *)
Lemma cell_texts_lines_text (rows : list (list string)) :
  Forall readable rows → cell_texts (lines_text rows) = rows.
Proof.
  unfold cell_texts. induction rows as [|row rows IH]; intros Hrows; [done|].
  apply Forall_cons in Hrows as [Hrow Hrows]. simpl.
  rewrite readlines_line. 
  - simpl. by rewrite row_cells_written, IH.
  - destruct Hrow as [_ Hrow].
    eapply all_impl; [|apply (all_join line_char)].
    + intros c Hc. apply line_char_no_space in Hc as [_ Hc].
      by rewrite bool_decide_false.
    + reflexivity.
    + eapply Forall_impl; [exact Hrow|]. intros w Hw. simpl.
      eapply all_impl; [|exact Hw]. intros c Hc. simpl. by rewrite Hc.
Qed.

(** The names of a grid depend on its shape only. *)
Lemma imap_same_length {A B C} (g : nat → C) (l : list A) (k : list B) :
  length l = length k → imap (λ c _, g c) l = imap (λ c _, g c) k.
Proof.
  revert g k. induction l as [|x l IH]; intros g [|y k]; simpl; try done.
  intros [= Hlen]. f_equal. by apply (IH (g ∘ S)).
Qed.

Lemma names_of_same_shape rowIndex (rows rows' : list (list string)) :
  Forall2 (λ r r', length r = length r') rows rows' →
  names_of rowIndex rows = names_of rowIndex rows'.
Proof.
  intros H. revert rowIndex. induction H as [|r r' rows rows' Hr _ IH];
    intros rowIndex; [done|].
  rewrite !names_of_cons, IH. f_equal. by apply imap_same_length.
Qed.

Lemma total_cells_same_shape (rows rows' : list (list string)) :
  Forall2 (λ r r', length r = length r') rows rows' →
  total_cells rows = total_cells rows'.
Proof.
  induction 1 as [|r r' rows rows' Hr _ IH]; [done|].
  rewrite !total_cells_cons. lia.
Qed.

Lemma names_of_shape rowIndex (rows : list (list string)) :
  Forall2 (λ r r', length r = length r') (names_of rowIndex rows) rows.
Proof.
  revert rowIndex. induction rows as [|row rows IH]; intros rowIndex.
  { constructor. }
  rewrite names_of_cons. constructor; [|apply IH]. by rewrite length_imap.
Qed.

Lemma written_shape (self : SpreadsheetEval) :
  Forall2 (λ r r', length r = length r') (written self) (grid self).
Proof.
  unfold written. induction (grid self) as [|row rows IH]; simpl.
  { constructor. }
  constructor; [|exact IH]. unfold written_row. by rewrite length_map.
Qed.

Lemma same_shape_trans (a b c : list (list string)) :
  Forall2 (λ r r', length r = length r') a b →
  Forall2 (λ r r', length r = length r') b c →
  Forall2 (λ r r', length r = length r') a c.
Proof.
  intros Hab. revert c. induction Hab as [|x y a b Hxy _ IH]; intros c Hbc.
  { by inversion Hbc. }
  inversion Hbc as [|? z ? c' Hyz Hbc']; subst. constructor; [congruence|].
  by apply IH.
Qed.

(** The rows the writer makes of an evaluated sheet can be read back. *)
Lemma written_readable (text : string) (self self' : SpreadsheetEval) :
  parseInput init text = Ret self → evaluate self = Ret self' →
  Forall (λ row : list string,
            row ≠ [] ∧ Forall (λ w, Py.all float_char w = true) row)
         (written self').
Proof.
  intros Hparse Heval.
  pose proof (evaluate_cell_values _ _ _ Hparse Heval) as Hvalues.
  apply evaluate_fields in Heval as (_ & Hgrid & _).
  apply parse_rows_grid in Hparse. simpl in Hparse.
  unfold written. rewrite Hgrid, Hparse.
  apply Forall_forall. intros row (names & -> & Hin)%list_elem_of_fmap.
  split.
  - apply list_elem_of_lookup in Hin as [r Hr].
    unfold names_of in Hr. rewrite list_lookup_imap in Hr.
    destruct (map row_cells (Py.readlines text) !! r) as [cells|] eqn:Hcells;
      [|done].
    injection Hr as <-.
    apply list_lookup_fmap_Some in Hcells as (line & -> & _).
    pose proof (row_cells_nonempty line) as Hlen.
    unfold written_row. destruct (row_cells line); [simpl in Hlen; lia|done].
  - unfold written_row. apply Forall_forall.
    intros w (cell & -> & _)%list_elem_of_fmap.
    destruct (valMap self' !! cell) as [v|] eqn:Hv; [|done].
    destruct (Hvalues cell v Hv) as [->|[f ->]]; [done|].
    apply float_repr_chars.
Qed.

(** X17. The output can be read back. The output of a run that returns
    is one line for every row of the grid, the texts of the values of
    its cells joined with commas; cutting it into lines and fields the
    way the loader does gives exactly these texts; and the loader accepts
    the output and builds from it the grid of the input: the output has
    the lines of the input, each with as many fields. *)
Theorem output_round_trip (text out : string) :
  main text = Ret out →
  ∃ self self' again,
    parseInput init text = Ret self ∧ evaluate self = Ret self'
    ∧ out = lines_text (written self')
    ∧ cell_texts out = written self'
    ∧ parseInput init out = Ret again ∧ grid again = grid self.
Proof.
  unfold main.
  destruct (parseInput init text) as [self| |] eqn:Hparse; simpl; [|done..].
  destruct (evaluate self) as [self'| |] eqn:Heval; simpl; [|done..].
  unfold writeOutput. rewrite write_rows_spec.
  destruct (missing _ _); [|done]. intros [= <-].
  change ("" +:+ lines_text (map (written_row self') (grid self')))
    with (lines_text (written self')).
  pose proof (written_readable _ _ _ Hparse Heval) as Hread.
  pose proof (cell_texts_lines_text _ Hread) as Htexts.
  pose proof (evaluate_fields _ _ Heval) as (_ & Hgrid & _).
  pose proof (parse_rows_grid _ _ _ _ _ Hparse) as Hnames. simpl in Hnames.
  fold (cell_texts text) in Hnames.
  assert (Forall2 (λ r r', length r = length r')
            (written self') (cell_texts text)) as Hshape.
  { eapply same_shape_trans; [apply written_shape|].
    rewrite Hgrid, Hnames. apply names_of_shape. }
  destruct (parse_rows_count 0 (Py.readlines (lines_text (written self'))) 0 init)
    as [Hret _].
  fold (cell_texts (lines_text (written self'))) in Hret.
  destruct Hret as [again Hagain].
  { rewrite Htexts, (total_cells_same_shape _ _ Hshape).
    destruct (decide (total_cells (cell_texts text) ≤ maxCells init))
      as [Hle|Hgt]; [lia|].
    exfalso.
    destruct (parse_rows_count 0 (Py.readlines text) 0 init) as [_ Hraise].
    fold (cell_texts text) in Hraise. unfold parseInput in Hparse.
    rewrite Hraise in Hparse; [done| |lia].
    intros Hnil. apply Hgt. unfold cell_texts. rewrite Hnil.
    vm_compute. done. }
  exists self, self', again. do 4 (split; [done|]). split; [exact Hagain|].
  apply parse_rows_grid in Hagain. simpl in Hagain.
  fold (cell_texts (lines_text (written self'))) in Hagain.
  rewrite Hagain, Htexts, Hnames. by apply names_of_same_shape.
Qed.

Lemma output_round_trip_witness :
  ∃ self self' again,
    parseInput init ("B1,-.5" +:+ nl +:+ "C7") = Ret self
    ∧ evaluate self = Ret self'
    ∧ "-0.5,-0.5" +:+ nl +:+ nl = lines_text (written self')
    ∧ cell_texts ("-0.5,-0.5" +:+ nl +:+ nl) = written self'
    ∧ parseInput init ("-0.5,-0.5" +:+ nl +:+ nl) = Ret again
    ∧ grid again = grid self.
Proof.
  apply (output_round_trip ("B1,-.5" +:+ nl +:+ "C7") ("-0.5,-0.5" +:+ nl +:+ nl)).
  vm_compute. reflexivity.
Defined.

(** X18. The values after an evaluation. When the evaluation of a loaded
    sheet returns, every value of the Value Map is a float or the empty
    marker: no other text, and no tuple or method object of the operator
    branch, is ever stored, so every field the writer prints is the text
    of a float or empty. *)
Theorem evaluated_values_are_floats (text : string)
    (self self' : SpreadsheetEval) (cell : string) (v : pyval) :
  parseInput init text = Ret self → evaluate self = Ret self' →
  valMap self' !! cell = Some v →
  cell_value v ∧ Py.all float_char (py_str v) = true.
Proof.
  intros Hparse Heval Hv.
  pose proof (evaluate_cell_values _ _ _ Hparse Heval cell v Hv) as Hvalue.
  split; [done|]. destruct Hvalue as [->|[f ->]]; [done|].
  apply float_repr_chars.
Qed.

Lemma evaluated_values_are_floats_witness :
  ∃ self self' v,
    parseInput init ("B1,-.5" +:+ nl +:+ "C7") = Ret self
    ∧ evaluate self = Ret self'
    ∧ valMap self' !! "A1" = Some v
    ∧ cell_value v ∧ Py.all float_char (py_str v) = true.
Proof.
  do 3 eexists. split; [vm_compute; reflexivity|].
  split; [vm_compute; reflexivity|].
  split; [vm_compute; reflexivity|].
  eapply (evaluated_values_are_floats ("B1,-.5" +:+ nl +:+ "C7") _ _ "A1").
  - vm_compute. reflexivity.
  - vm_compute. reflexivity.
  - vm_compute. reflexivity.
Defined.

(** ** Expressions of numbers *)

Lemma number_token_intro (t : string) :
  loader_token t → match_number t = true → is_operator t = false →
  number_token t.
Proof.
  intros Htoken Hm Hop. split; [done|]. split; [|done].
  by apply match_number_numeral.
Qed.

(** A number is read and pushed. *)
Lemma tokenLoop_number limit resolve cell ops t todo queue st :
  Z.of_nat (length ops) ≤ limit → number_token t →
  ∃ f, Py.float t = Ret f
       ∧ tokenLoop limit resolve cell ops (t :: todo) queue st
         = tokenLoop limit resolve cell ops todo (queue ++ [PyFloat f]) st.
Proof.
  intros Hlen (Htoken & Hnum & Hop).
  destruct (float_numeral t Htoken Hop Hnum) as [f Hf]. exists f.
  split; [done|]. simpl.
  destruct (Z.gtb_spec (Z.of_nat (length ops)) limit) as [Hgt|_]; [lia|].
  rewrite Hop, (numeral_not_reference t Hnum). simpl.
  by rewrite (proj2 (match_number_numeral t Htoken) Hnum), Hf.
Qed.

Lemma tokenLoop_numbers limit resolve cell ops nums :
  Z.of_nat (length ops) ≤ limit → Forall number_token nums →
  ∃ fs, Forall2 (λ t f, Py.float t = Ret f) nums fs
        ∧ ∀ todo queue st,
            tokenLoop limit resolve cell ops (nums ++ todo) queue st
            = tokenLoop limit resolve cell ops todo (queue ++ map PyFloat fs) st.
Proof.
  intros Hlen. induction 1 as [|t nums Ht _ [fs [Hfs IH]]].
  { exists []. split; [constructor|]. intros todo queue st. simpl.
    by rewrite app_nil_r. }
  destruct (tokenLoop_number limit resolve cell ops t [] [] (∅, ∅) Hlen Ht)
    as [f [Hf _]].
  exists (f :: fs). split; [by constructor|].
  intros todo queue st. rewrite <-app_comm_cons.
  destruct (tokenLoop_number limit resolve cell ops t (nums ++ todo) queue st
              Hlen Ht) as [f' [Hf' ->]].
  rewrite Hf in Hf'. injection Hf' as <-.
  rewrite IH. simpl. by rewrite <-app_assoc.
Qed.

(** X19. Numbers followed by an operator. A cell that is resolved and
    whose expression, within the token limit, is a run of numbers
    followed by an operator never computes: after fewer than two numbers
    it raises the operand error that names the operator and the cell,
    after two or more the TypeError of the operands handed to
    [calculate], whatever the numbers are and whatever follows the
    operator. *)
Theorem numbers_then_operator (limit : Z) (exprs : gmap string (list string))
    (fuel : nat) (cell : string) (visiting : gset string)
    (valMap : gmap string pyval) (nums : list string) (op : string)
    (post : list string) :
  exprs !! cell = Some (nums ++ op :: post) →
  valMap !! cell = None → cell ∉ visiting →
  Z.of_nat (length (nums ++ op :: post)) ≤ limit →
  Forall number_token nums → is_operator op = true →
  evaluateDFS limit exprs (S fuel) cell (visiting, valMap)
  = Raise (if (length nums <? 2)%nat
           then Exception ("Need at least 1 operand for " +:+ op
                           +:+ " in " +:+ cell)
           else TypeError op TTuple TBuiltinMethod).
Proof.
  intros Hops Hmemo Hvis Hlen Hnums Hop.
  cbn [evaluateDFS]. rewrite Hmemo, bool_decide_false, Hops by done.
  destruct (tokenLoop_numbers limit (evaluateDFS limit exprs fuel) cell
              (nums ++ op :: post) nums Hlen Hnums) as (fs & Hfs & ->).
  apply Forall2_length in Hfs.
  destruct (Nat.ltb_spec (length nums) 2) as [Hlt|Hge].
  - cbn [tokenLoop].
    destruct (Z.gtb_spec (Z.of_nat (length (nums ++ op :: post))) limit)
      as [Hgt|_]; [lia|].
    rewrite Hop.
    destruct (Z.ltb_spec (Z.of_nat (length ([] ++ map PyFloat fs))) 2)
      as [_|Hq]; [done|].
    rewrite length_app, length_map in Hq. simpl in Hq. lia.
  - rewrite tokenLoop_operator; [done..|].
    rewrite length_app, length_map. simpl. lia.
Qed.

Lemma numbers_then_operator_witness :
  evaluateDFS 100 {["A1" := ["2"; "3"; "+"; "4"; "*"]]} 1 "A1" (∅, ∅)
  = Raise (if (length ["2"; "3"] <? 2)%nat
           then Exception ("Need at least 1 operand for " +:+ "+"
                           +:+ " in " +:+ "A1")
           else TypeError "+" TTuple TBuiltinMethod).
Proof.
  apply (numbers_then_operator 100 {["A1" := ["2"; "3"; "+"; "4"; "*"]]} 0 "A1"
           ∅ ∅ ["2"; "3"] "+" ["4"; "*"]).
  - reflexivity.
  - reflexivity.
  - apply not_elem_of_empty.
  - simpl. lia.
  - repeat (constructor;
              [apply number_token_intro;
               [split; [done|reflexivity]|reflexivity|reflexivity]|]).
    constructor.
  - reflexivity.
Defined.

(** X20. Numbers alone. A cell that is resolved and whose expression,
    within the token limit, holds numbers only gets a value exactly when
    there is one number: the float that [float] reads from it, which is
    stored under the cell, the visiting set being as before. With no
    token or with two or more numbers it raises the invalid-expression
    error that names the cell. *)
Theorem numbers_only (limit : Z) (exprs : gmap string (list string))
    (fuel : nat) (cell : string) (visiting : gset string)
    (valMap : gmap string pyval) (nums : list string) :
  exprs !! cell = Some nums →
  valMap !! cell = None → cell ∉ visiting →
  Z.of_nat (length nums) ≤ limit → Forall number_token nums →
  match nums with
  | [t] =>
      ∃ f, Py.float t = Ret f
           ∧ evaluateDFS limit exprs (S fuel) cell (visiting, valMap)
             = Ret (PyFloat f, (visiting, <[cell := PyFloat f]> valMap))
  | _ =>
      evaluateDFS limit exprs (S fuel) cell (visiting, valMap)
      = Raise (Exception ("Invalid expression in " +:+ cell))
  end.
Proof.
  intros Hops Hmemo Hvis Hlen Hnums.
  assert (evaluateDFS limit exprs (S fuel) cell (visiting, valMap)
          = '(queue, (visiting', valMap')) ←
              tokenLoop limit (evaluateDFS limit exprs fuel) cell nums
                (nums ++ []) [] ({[cell]} ∪ visiting, valMap);
            match queue with
            | [r] =>
                if bool_decide (cell ∈ visiting') then
                  Ret (r, (visiting' ∖ {[cell]}, <[cell := r]> valMap'))
                else Raise (KeyError cell)
            | _ => Raise (Exception ("Invalid expression in " +:+ cell))
            end) as ->.
  { cbn [evaluateDFS]. rewrite Hmemo, bool_decide_false, Hops by done.
    by rewrite app_nil_r. }
  destruct (tokenLoop_numbers limit (evaluateDFS limit exprs fuel) cell
              nums nums Hlen Hnums) as (fs & Hfs & ->).
  simpl.
  destruct Hfs as [|t f nums fs Hf Hfs]; [done|].
  destruct Hfs as [|t' f' nums fs Hf' Hfs]; [|done].
  exists f. split; [done|]. simpl.
  rewrite bool_decide_true by set_solver.
  do 3 f_equal. set_solver.
Qed.

Lemma numbers_only_witness :
  ∃ f, Py.float "-.5" = Ret f
       ∧ evaluateDFS 100 {["A1" := ["-.5"]]} 1 "A1" (∅, ∅)
         = Ret (PyFloat f, (∅, <["A1" := PyFloat f]> ∅)).
Proof.
  apply (numbers_only 100 {["A1" := ["-.5"]]} 0 "A1" ∅ ∅ ["-.5"]).
  - reflexivity.
  - reflexivity.
  - apply not_elem_of_empty.
  - simpl. lia.
  - repeat (constructor;
              [apply number_token_intro;
               [split; [done|reflexivity]|reflexivity|reflexivity]|]).
    constructor.
Defined.

(** ** Reference cycles *)






